(** * Poseidon over the BN254 scalar field: a shallow embedding of
    [poseidon/poseidon.go] and the properties of its permutation, fixed-input
    hash and sponges.

    Layout: the field ([ff]), the constant tables, the Go loops as bounded
    iterations in the option monad (an index out of range is a Go panic,
    modelled by [None]), the permutation [hashElements], the fixed-input
    hashes, the sponges, a pointer-level model of the [*big.Int] heap, and
    then the theorems. *)

From Stdlib Require Import ZArith List Lia Bool Strings.Byte.
From stdpp Require Import base option list numbers gmap.
Import ListNotations.

Local Open Scope Z_scope.

(** ** Bytes and big integers *)

Definition byte_val (b : byte) : Z := Z.of_N (Byte.to_N b).

Definition byte_of_Z (v : Z) : byte :=
  default x00 (Byte.of_N (Z.to_N (v mod 256))).

(** [big.Int.SetBytes]: the bytes read as a big-endian unsigned integer. *)
Definition SetBytes (buf : list byte) : Z :=
  fold_left (λ acc b, acc * 256 + byte_val b) buf 0.

(** The [n]-byte big-endian encoding of [v], leading zeros kept. *)
Fixpoint be_bytes (n : nat) (v : Z) : list byte :=
  match n with
  | O => []
  | S n' => byte_of_Z (v / 256 ^ Z.of_nat n') :: be_bytes n' v
  end.

(** Go's [copy(dst, src)]: the first [min(len dst, len src)] slots of [dst]
    are overwritten. *)
Definition copy {A : Type} (dst src : list A) : list A :=
  take (length dst) (src ++ drop (length src) dst).

(** ** The field [ff] *)

Module ff.

(** The BN254 scalar prime. *)
Definition Modulus : Z :=
  21888242871839275222246405745257275088548364400416034343698204186575808495617.

(** Modelled from the spec: package [ff] (type [Element] and its methods)
    is not part of the sources at hand.  The spec describes a field element
    as an integer in [0, p) with all arithmetic done modulo p, whatever the
    internal representation; an [Element] is that canonical residue. *)
Abbreviation Element := Z.

Definition NewElement : Element := 0.

(** Modelled from the spec: modular addition. *)
Definition Add (x y : Element) : Element := (x + y) mod Modulus.

(** Modelled from the spec: modular multiplication. *)
Definition Mul (x y : Element) : Element := (x * y) mod Modulus.

Definition Square (x : Element) : Element := Mul x x.

(** Modelled from the spec: [Exp] raises to a power with squarings and
    multiplications ("x·x²·x² with two squarings and one multiplication"
    for the exponent 5): the receiver is set to [x]; then, for every bit of
    the exponent below the leading one, most significant first, it is
    squared, and multiplied by [x] when the bit is set.  The recursion on
    the binary exponent reads the leading bit innermost. *)
Fixpoint exp_bits (x : Element) (e : positive) : Element :=
  match e with
  | xH => x
  | xO e' => Square (exp_bits x e')
  | xI e' => Mul (Square (exp_bits x e')) x
  end.

Definition Exp (x : Element) (exponent : N) : Element :=
  match exponent with
  | N0 => 1
  | Npos e => exp_bits x e
  end.

(** Modelled from the spec: [SetBigInt] stores the integer reduced mod p. *)
Definition SetBigInt (v : Z) : Element := v mod Modulus.

(** Modelled from the spec: export in canonical form, in [0, p). *)
Definition ToBigIntRegular (x : Element) : Z := x mod Modulus.

(** Modelled from the spec: [set_bytes_less_mod] reads a big-endian
    integer; a 31-byte value is already below p, and a larger one is
    reduced. *)
Definition SetBytesLessMod (b : list byte) : Element := SetBytes b mod Modulus.

(** Modelled from the spec: the canonical 32-byte big-endian encoding,
    leading zeros preserved. *)
Definition Bytes (x : Element) : list byte := be_bytes 32 (x mod Modulus).

End ff.

(** ** Package-level constants *)

Definition NROUNDSF : nat := 8.

Definition NROUNDSP : list nat :=
  [56; 57; 56; 60; 60; 63; 64; 63; 60; 66; 60; 65; 70; 60; 64; 68]%nat.

Definition spongeChunkSize : nat := 31.
Definition spongeInputs : Z := 16.

Definition zero : ff.Element := ff.NewElement.

Definition big5 : N := 5%N.

(** The tables [c.c], [c.s], [c.m] and [c.p], each indexed by [t-2].  Their
    contents are data of the repository that the functions below only read;
    the embedding takes them as a parameter. *)
Record constants : Type := Build_constants {
  c_c : list (list ff.Element);
  c_s : list (list ff.Element);
  c_m : list (list (list ff.Element));
  c_p : list (list (list ff.Element))
}.

(** ** Go loops and indexing *)

(** [for i := lo; i < lo+n; i++ { body }] over a loop state; [None] is a
    panic raised by the body. *)
Fixpoint for_range {St : Type} (lo n : nat) (body : nat → St → option St) (st : St)
  : option St :=
  match n with
  | O => Some st
  | S n' => st' ← body lo st; for_range (S lo) n' body st'
  end.

(** [l[i] = v]: Go panics when [i] is out of range. *)
Definition set_at {A : Type} (l : list A) (i : nat) (v : A) : option (list A) :=
  if decide (i < length l)%nat then Some (<[i := v]> l) else None.

(** ** The permutation

    A [[]*ff.Element] is the list of the values of its elements: at every
    call site of the package the slots of [state] and [scratch] are distinct
    elements, allocated by the caller for the call, and a method call on
    [state[i]] is an update of slot [i]. *)

(** exp5 performs x^5 mod p.  The argument [*a] is passed to [Exp] by value,
    so the receiver and the base do not alias. *)
Definition exp5 (a : ff.Element) : ff.Element := ff.Exp a big5.

(** exp5state performs exp5 for the whole state. *)
Definition exp5state (state : list ff.Element) : option (list ff.Element) :=
  for_range 0 (length state)
    (λ i state, x ← state !! i; set_at state i (exp5 x)) state.

(** ark computes Add-Round Key. *)
Definition ark (state c : list ff.Element) (it : nat) : option (list ff.Element) :=
  for_range 0 (length state)
    (λ i state, x ← state !! i; k ← c !! (it + i)%nat; set_at state i (ff.Add x k))
    state.

(** mixWithScratch: [scratch[i]] accumulates [m[j][i] * state[j]] over [j];
    the state is then overwritten from the scratch space.  Both slices are
    threaded, since both are written. *)
Definition mixWithScratch (state : list ff.Element) (m : list (list ff.Element))
    (scratch : list ff.Element) : option (list ff.Element * list ff.Element) :=
  scratch ← for_range 0 (length state)
    (λ i scratch,
       scratch ← set_at scratch i 0;
       for_range 0 (length state)
         (λ j scratch,
            acc ← scratch !! i;
            mj ← m !! j;
            mji ← mj !! i;
            sj ← state !! j;
            set_at scratch i (ff.Add acc (ff.Mul mji sj)))
         scratch)
    scratch;
  state ← for_range 0 (length state)
    (λ i state, x ← scratch !! i; set_at state i x) state;
  Some (state, scratch).

(** The three calls of a full round, as [hashElements] makes them in its two
    full-round loops, in the transition round and (without the ARK) at the
    end: S-box on every slot, ARK at offset [it], mix with [m]. *)
Definition full_round (C : list ff.Element) (m : list (list ff.Element)) (it : nat)
    (ss : list ff.Element * list ff.Element)
  : option (list ff.Element * list ff.Element) :=
  state ← exp5state ss.1;
  state ← ark state C it;
  mixWithScratch state m ss.2.

(** The body of the partial-round loop; the loop state is the state slice
    and the temporary [newState0]. *)
Definition partial_round (t : nat) (C S : list ff.Element) (i : nat)
    (sn : list ff.Element * ff.Element) : option (list ff.Element * ff.Element) :=
  let state := sn.1 in
  s0 ← state !! 0%nat;
  state ← set_at state 0 (exp5 s0);
  s0 ← state !! 0%nat;
  k ← C !! ((NROUNDSF / 2 + 1) * t + i)%nat;
  state ← set_at state 0 (ff.Add s0 k);
  newState0 ← for_range 0 (length state)
    (λ j newState0,
       sj ← S !! ((t * 2 - 1) * i + j)%nat;
       x ← state !! j;
       Some (ff.Add newState0 (ff.Mul sj x)))
    0;
  state ← for_range 1 (t - 1)
    (λ k state,
       x ← state !! k;
       s0 ← state !! 0%nat;
       sk ← S !! ((t * 2 - 1) * i + t + k - 1)%nat;
       set_at state k (ff.Add x (ff.Mul s0 sk)))
    state;
  state ← set_at state 0 newState0;
  Some (state, newState0).

(** hashElements.  OBS: assumes scratch and state are of equal length.
    Indexing the tables at [t-2] panics for [t < 2]. *)
Definition hashElements (cs : constants) (state scratch : list ff.Element)
  : option (list ff.Element * list ff.Element) :=
  let t := length state in
  let nRoundsF := NROUNDSF in
  _ ← guard (2 ≤ t)%nat;
  nRoundsP ← NROUNDSP !! (t - 2)%nat;
  C ← c_c cs !! (t - 2)%nat;
  S ← c_s cs !! (t - 2)%nat;
  M ← c_m cs !! (t - 2)%nat;
  P ← c_p cs !! (t - 2)%nat;
  state ← ark state C 0;
  ss ← for_range 0 (nRoundsF / 2 - 1)
    (λ i ss, full_round C M ((i + 1) * t) ss) (state, scratch);
  ss ← full_round C P ((nRoundsF / 2) * t) ss;
  sn ← for_range 0 nRoundsP (partial_round t C S) (ss.1, zero);
  ss ← for_range 0 (nRoundsF / 2 - 1)
    (λ i ss, full_round C M ((nRoundsF / 2 + 1) * t + nRoundsP + i * t) ss)
    (sn.1, ss.2);
  state ← exp5state ss.1;
  mixWithScratch state M ss.2.

(** ** Errors and results *)

(** The errors the package constructs, one constructor per message. *)
Inductive error : Type :=
  | ErrInvalidInputsLength   (* "invalid inputs length %d, max %d" *)
  | ErrInputsNotInField      (* "inputs values not inside Finite Field" *)
  | ErrInvalidNOuts          (* "invalid nOuts %d, min 1, max %d" *)
  | ErrInitStateNotInField   (* "initState values not inside Finite Field" *)
  | ErrIncorrectFrameSize.   (* "incorrect frame size" *)

(** A Go [(value, error)] pair; a panic is the [None] of the enclosing
    option. *)
Inductive result (A : Type) : Type :=
  | Ok (a : A)
  | Err (e : error).
Arguments Ok {A} a.
Arguments Err {A} e.

Definition is_Err {A : Type} (r : option (result A)) : Prop :=
  ∃ e, r = Some (Err e).

(** A loop whose body may return early with an error. *)
Fixpoint for_range_r {St : Type} (lo n : nat)
    (body : nat → St → option (result St)) (st : St) : option (result St) :=
  match n with
  | O => Some (Ok st)
  | S n' =>
      match body lo st with
      | Some (Ok st') => for_range_r (S lo) n' body st'
      | other => other
      end
  end.

(** ** Package [utils] *)

Module utils.

(** Modelled from the spec: [CheckBigIntInField] is not part of the sources
    at hand; the spec rejects an integer exactly when it is ≥ p. *)
Definition CheckBigIntInField (a : Z) : bool := a <? ff.Modulus.

(** Modelled from the spec: every integer of the slice is checked. *)
Definition CheckBigIntArrayInField (arr : list Z) : bool :=
  forallb CheckBigIntInField arr.

(** Modelled from the spec: one fresh element per integer, in order. *)
Definition BigIntArrayToElementArray (bi : list Z) : list ff.Element :=
  ff.SetBigInt <$> bi.

End utils.

(** ** Fixed-input hash *)

Section Hash.

Variable cs : constants.

Definition HashWithStateEx (inpBI : list Z) (initState : Z) (nOuts : Z)
  : option (result (list Z)) :=
  let t := (length inpBI + 1)%nat in
  if decide (length inpBI = 0 ∨ length NROUNDSP < length inpBI)%nat then
    Some (Err ErrInvalidInputsLength)
  else if negb (utils.CheckBigIntArrayInField inpBI) then
    Some (Err ErrInputsNotInField)
  else if decide (nOuts < 1 ∨ Z.of_nat t < nOuts) then
    Some (Err ErrInvalidNOuts)
  else
    let inp := utils.BigIntArrayToElementArray inpBI in
    if negb (utils.CheckBigIntInField initState) then
      Some (Err ErrInitStateNotInField)
    else
      (* state[0] = initState; copy(state[1:], inp) *)
      let state := ff.SetBigInt initState :: inp in
      let scratch := replicate (length state) zero in
      ss ← hashElements cs state scratch;
      r ← mapM (λ i, ff.ToBigIntRegular <$> ss.1 !! i) (seq 0 (Z.to_nat nOuts));
      Some (Ok r).

(** HashWithState computes the Poseidon hash for the given inputs and
    initState. *)
Definition HashWithState (inpBI : list Z) (initState : Z) : option (result Z) :=
  res ← HashWithStateEx inpBI initState 1;
  match res with
  | Err e => Some (Err e)
  | Ok res => r0 ← res !! 0%nat; Some (Ok r0)
  end.

(** Hash computes the Poseidon hash for the given inputs. *)
Definition Hash (inpBI : list Z) : option (result Z) :=
  HashWithState inpBI 0.

Definition HashEx (inpBI : list Z) (nOuts : Z) : option (result (list Z)) :=
  HashWithStateEx inpBI 0 nOuts.

(** OBS: assumes nOuts = 1; assumes scratch and state are of equal length.
    The element returned is [state[0]] itself; the permuted state and the
    scratch space are returned with it, since both were written. *)
Definition hashWithStateExBytes (state scratch : list ff.Element)
  : option (result (ff.Element * list ff.Element * list ff.Element)) :=
  if decide (length state = 1 ∨ length NROUNDSP < length state - 1)%nat then
    Some (Err ErrInvalidInputsLength)
  else
    ss ← hashElements cs state scratch;
    h ← ss.1 !! 0%nat;
    Some (Ok (h, ss.1, ss.2)).

End Hash.

(** ** Sponges *)

Section Sponge.

Variable cs : constants.

(** The locals of the two [*big.Int] sponge loops: the frame, the write
    position, the dirty flag, and the digest ([None] is the nil pointer the
    variable [hash] starts with). *)
Record sponge : Type := Build_sponge {
  sp_frame : list Z;
  sp_k : nat;
  sp_dirty : bool;
  sp_hash : option Z
}.

Definition finish (st : sponge) : option (result (option Z)) :=
  if sp_dirty st then
    (* we haven't hashed something in the main sponge loop *)
    r ← Hash cs (sp_frame st);
    match r with
    | Err e => Some (Err e)
    | Ok h => Some (Ok (Some h))
    end
  else Some (Ok (sp_hash st)).

(** SpongeHashX returns a sponge hash of inputs using Poseidon with
    configurable frame size. *)
Definition SpongeHashX (inputs : list Z) (frameSize : Z)
  : option (result (option Z)) :=
  if decide (frameSize < 2 ∨ 16 < frameSize) then Some (Err ErrIncorrectFrameSize)
  else
    let F := Z.to_nat frameSize in
    let init := Build_sponge (replicate F 0) 0 false None in
    r ← for_range_r 0 (length inputs)
      (λ i st,
         v ← inputs !! i;
         frame ← set_at (sp_frame st) (sp_k st) v;
         if decide (sp_k st = F - 1)%nat then
           r ← Hash cs frame;
           match r with
           | Err e => Some (Err e)
           | Ok h =>
               frame ← set_at (replicate F 0) 0 h;
               Some (Ok (Build_sponge frame 1 false (Some h)))
           end
         else Some (Ok (Build_sponge frame (sp_k st + 1) true (sp_hash st))))
      init;
    match r with
    | Err e => Some (Err e)
    | Ok st => finish st
    end.

(** SpongeHash uses Poseidon with a frame size of 16 inputs. *)
Definition SpongeHash (inputs : list Z) : option (result (option Z)) :=
  SpongeHashX inputs spongeInputs.

(** [msg[spongeChunkSize*i : spongeChunkSize*(i+1)]] *)
Definition chunk (msg : list byte) (i : nat) : list byte :=
  take spongeChunkSize (drop (spongeChunkSize * i) msg).

(** The zero-padded last chunk: a zeroed 31-byte buffer overwritten from
    the bytes after the last whole chunk. *)
Definition last_chunk (msg : list byte) : list byte :=
  copy (replicate spongeChunkSize x00)
       (drop (length msg / spongeChunkSize * spongeChunkSize) msg).

(** HashBytesX returns a sponge hash of a msg byte slice split into blocks
    of 31 bytes. *)
Definition HashBytesX (msg : list byte) (frameSize : Z)
  : option (result (option Z)) :=
  if decide (frameSize < 2 ∨ 16 < frameSize) then Some (Err ErrIncorrectFrameSize)
  else
    let F := Z.to_nat frameSize in
    let init := Build_sponge (replicate F 0) 0 false None in
    r ← for_range_r 0 (length msg / spongeChunkSize)
      (λ i st,
         inputs ← set_at (sp_frame st) (sp_k st) (SetBytes (chunk msg i));
         if decide (sp_k st = F - 1)%nat then
           r ← Hash cs inputs;
           match r with
           | Err e => Some (Err e)
           | Ok h =>
               inputs ← set_at (replicate F 0) 0 h;
               Some (Ok (Build_sponge inputs 1 false (Some h)))
           end
         else Some (Ok (Build_sponge inputs (sp_k st + 1) true (sp_hash st))))
      init;
    match r with
    | Err e => Some (Err e)
    | Ok st =>
        st ← (if decide (length msg mod spongeChunkSize ≠ 0)%nat then
                inputs ← set_at (sp_frame st) (sp_k st) (SetBytes (last_chunk msg));
                Some (Build_sponge inputs (sp_k st) true (sp_hash st))
              else Some st);
        finish st
    end.

Definition HashBytes (msg : list byte) : option (result (option Z)) :=
  HashBytesX msg spongeInputs.

(** The locals of [HashBytesXLessAlloc]. *)
Record sponge_la : Type := Build_sponge_la {
  la_state : list ff.Element;
  la_scratch : list ff.Element;
  la_k : nat;
  la_dirty : bool;
  la_currentHash : ff.Element
}.

(** HashBytesXLessAlloc returns a sponge hash of a msg byte slice split
    into blocks of 31 bytes; uses less allocations than the original
    implementation. *)
Definition HashBytesXLessAlloc (msg : list byte) (frameSize : Z)
  : option (result (list byte)) :=
  if decide (frameSize < 2 ∨ 16 < frameSize) then Some (Err ErrIncorrectFrameSize)
  else
    let F := Z.to_nat frameSize in
    (* one additional item for initState, always 0 *)
    let init :=
      Build_sponge_la (replicate (F + 1) 0) (replicate (F + 1) 0) 0 false 0 in
    r ← for_range_r 0 (length msg / spongeChunkSize)
      (λ i st,
         state ← set_at (la_state st) (la_k st) (ff.SetBytesLessMod (chunk msg i));
         if decide (la_k st = F - 1)%nat then
           r ← hashWithStateExBytes cs state (la_scratch st);
           match r with
           | Err e => Some (Err e)
           | Ok (h, state, scratch) =>
               (* [hash] is [state[0]]: [state[0].Set(hash)] rewrites it
                  with its own value *)
               state ← set_at state 0 h;
               state ← for_range 1 (length state - 1)
                 (λ j state, set_at state j 0) state;
               Some (Ok (Build_sponge_la state scratch 1 false h))
           end
         else
           Some (Ok (Build_sponge_la state (la_scratch st) (la_k st + 1) true
                       (la_currentHash st))))
      init;
    match r with
    | Err e => Some (Err e)
    | Ok st =>
        state ← (if decide (length msg mod spongeChunkSize ≠ 0)%nat then
                   set_at (la_state st) (la_k st) (ff.SetBytesLessMod (last_chunk msg))
                 else Some (la_state st));
        if la_dirty st then
          r ← hashWithStateExBytes cs state (la_scratch st);
          match r with
          | Err e => Some (Err e)
          | Ok (h, _, _) => Some (Ok (ff.Bytes h))
          end
        else Some (Ok (ff.Bytes (la_currentHash st)))
    end.

End Sponge.

(** ** The schedule of the permutation, as the specification words it

    These definitions follow the text of the specification (section 4.2),
    with total indexing and sums over the integers reduced once; they are
    compared with [hashElements] below. *)

Module Spec.

Definition q : Z := ff.Modulus.

Definition at0 (l : list Z) (i : nat) : Z := default 0 (l !! i).

(** [Σ_{j<n} f j] *)
Fixpoint sumZ (n : nat) (f : nat → Z) : Z :=
  match n with
  | O => 0
  | S n' => sumZ n' f + f n'
  end.

(** The S-box: the fifth power. *)
Definition sbox (x : Z) : Z := x ^ 5 mod q.

(** ARK: add [C[off .. off+t]] into the state, element-wise. *)
Definition ark (C : list Z) (off : nat) (state : list Z) : list Z :=
  imap (λ i x, (x + at0 C (off + i)) mod q) state.

(** Mix: output slot [i] accumulates [Σ_j m[j][i] · state[j]]. *)
Definition mix (m : list (list Z)) (state : list Z) : list Z :=
  let t := length state in
  (λ i, sumZ t (λ j, at0 (default [] (m !! j)) i * at0 state j) mod q)
    <$> seq 0 t.

(** Full round: S-box on every slot, then ARK, then mix. *)
Definition full_round (C : list Z) (m : list (list Z)) (off : nat)
    (state : list Z) : list Z :=
  mix m (ark C off (sbox <$> state)).

(** Partial round [i]: S-box and ARK on slot 0 only; the new slot 0 is the
    [S]-weighted sum of the slots; slot [k ≥ 1] gains the pre-update slot 0
    times [S[(2t−1)·i + t + k − 1]]. *)
Definition partial_round (t : nat) (C S : list Z) (i : nat) (state : list Z)
  : list Z :=
  let s0 := (sbox (at0 state 0) + at0 C ((8 / 2 + 1) * t + i)) mod q in
  let pre := <[0%nat := s0]> state in
  imap (λ k x,
          if decide (k = 0%nat)
          then sumZ t (λ j, at0 S ((2 * t - 1) * i + j) * at0 pre j) mod q
          else (x + s0 * at0 S ((2 * t - 1) * i + t + k - 1)) mod q)
       pre.

Definition permute (cs : constants) (state : list Z) : list Z :=
  let t := length state in
  let P := default 0%nat (NROUNDSP !! (t - 2)%nat) in
  let C := default [] (c_c cs !! (t - 2)%nat) in
  let S := default [] (c_s cs !! (t - 2)%nat) in
  let M := default [] (c_m cs !! (t - 2)%nat) in
  let Pmat := default [] (c_p cs !! (t - 2)%nat) in
  (* 1. initial ARK *)
  let state := ark C 0 state in
  (* 2. first half of the full rounds *)
  let state :=
    fold_left (λ st i, full_round C M ((i + 1) * t) st) (seq 0 3) state in
  (* 3. transition round, mixing with the pre-sparse matrix *)
  let state := full_round C Pmat (8 / 2 * t) state in
  (* 4. partial rounds *)
  let state := fold_left (λ st i, partial_round t C S i st) (seq 0 P) state in
  (* 5. second half of the full rounds *)
  let state :=
    fold_left (λ st i, full_round C M ((8 / 2 + 1) * t + P + i * t) st)
              (seq 0 3) state in
  (* 6. final S-box and mix, no ARK *)
  mix M (sbox <$> state).

(** [a^5] by naive repeated multiplication, reducing after each product. *)
Definition pow5_naive (a : Z) : Z :=
  ((((a * a mod q) * a mod q) * a mod q) * a) mod q.

End Spec.

(** ** The [*big.Int] heap

    The functions above work on the integers the [*big.Int] arguments point
    to.  This module keeps the pointers: a [*big.Int] is nil or an address,
    the heap maps addresses to integers, and the exported functions run in a
    state monad over the heap in which a nil dereference panics.  Field
    elements stay values: every [*ff.Element] the package handles is
    allocated by the call that uses it and never escapes. *)

Module Mem.

Definition ptr : Type := option positive.

Definition M (A : Type) : Type := gmap positive Z → option (A * gmap positive Z).

#[global] Instance M_ret : MRet M := λ A a h, Some (a, h).

#[global] Instance M_bind : MBind M := λ A B f m h,
  match m h with
  | Some (a, h') => f a h'
  | None => None
  end.

(** A value-level computation that may panic. *)
Definition lift {A : Type} (o : option A) : M A := λ h,
  match o with
  | Some a => Some (a, h)
  | None => None
  end.

(** Reading through a pointer; nil panics. *)
Definition load (p : ptr) : M Z := λ h,
  match p with
  | Some l => match h !! l with Some v => Some (v, h) | None => None end
  | None => None
  end.

(** [new(big.Int)] and [big.NewInt(v)]: a fresh address. *)
Definition new_big (v : Z) : M ptr := λ h,
  let l := fresh (dom h) in Some (Some l, <[l := v]> h).

(** Writing through a pointer. *)
Definition store (p : ptr) (v : Z) : M unit := λ h,
  match p with
  | Some l => match h !! l with Some _ => Some (tt, <[l := v]> h) | None => None end
  | None => None
  end.

Fixpoint for_range_r {St : Type} (lo n : nat)
    (body : nat → St → M (result St)) (st : St) : M (result St) :=
  match n with
  | O => mret (Ok st)
  | S n' =>
      r ← body lo st;
      match r with
      | Ok st' => for_range_r (S lo) n' body st'
      | Err e => mret (Err e)
      end
  end.

(** Modelled from the spec: [utils.CheckBigIntArrayInField] on the pointers,
    reading each integer in order and stopping at the first one ≥ p. *)
Fixpoint CheckBigIntArrayInField (arr : list ptr) : M bool :=
  match arr with
  | [] => mret true
  | a :: arr =>
      v ← load a;
      if utils.CheckBigIntInField v then CheckBigIntArrayInField arr
      else mret false
  end.

(** Modelled from the spec: [utils.BigIntArrayToElementArray] on the
    pointers. *)
Definition BigIntArrayToElementArray (bi : list ptr) : M (list ff.Element) :=
  vs ← mapM load bi; mret (ff.SetBigInt <$> vs).

Section Hash.

Variable cs : constants.

Definition HashWithStateEx (inpBI : list ptr) (initState : ptr) (nOuts : Z)
  : M (result (list ptr)) :=
  let t := (length inpBI + 1)%nat in
  if decide (length inpBI = 0 ∨ length NROUNDSP < length inpBI)%nat then
    mret (Err ErrInvalidInputsLength)
  else
    ok ← CheckBigIntArrayInField inpBI;
    if negb ok then mret (Err ErrInputsNotInField)
    else if decide (nOuts < 1 ∨ Z.of_nat t < nOuts) then
      mret (Err ErrInvalidNOuts)
    else
      inp ← BigIntArrayToElementArray inpBI;
      iv ← load initState;
      if negb (utils.CheckBigIntInField iv) then
        mret (Err ErrInitStateNotInField)
      else
        let state := ff.SetBigInt iv :: inp in
        let scratch := replicate (length state) zero in
        ss ← lift (hashElements cs state scratch);
        r ← mapM (λ i,
                    rE ← lift (ss.1 !! i);
                    ri ← new_big 0;
                    _ ← store ri (ff.ToBigIntRegular rE);
                    mret ri)
                 (seq 0 (Z.to_nat nOuts));
        mret (Ok r).

Definition HashWithState (inpBI : list ptr) (initState : ptr) : M (result ptr) :=
  res ← HashWithStateEx inpBI initState 1;
  match res with
  | Err e => mret (Err e)
  | Ok res => r0 ← lift (res !! 0%nat); mret (Ok r0)
  end.

Definition Hash (inpBI : list ptr) : M (result ptr) :=
  initState ← new_big 0;
  HashWithState inpBI initState.

(** The locals of [SpongeHashX]; [hash] starts nil. *)
Record sponge : Type := Build_sponge {
  sp_frame : list ptr;
  sp_k : nat;
  sp_dirty : bool;
  sp_hash : ptr
}.

Definition SpongeHashX (inputs : list ptr) (frameSize : Z) : M (result ptr) :=
  if decide (frameSize < 2 ∨ 16 < frameSize) then mret (Err ErrIncorrectFrameSize)
  else
    let F := Z.to_nat frameSize in
    frame ← mapM (λ _, new_big 0) (seq 0 F);
    r ← for_range_r 0 (length inputs)
      (λ i st,
         v ← lift (inputs !! i);
         frame ← lift (set_at (sp_frame st) (sp_k st) v);
         if decide (sp_k st = F - 1)%nat then
           r ← Hash frame;
           match r with
           | Err e => mret (Err e)
           | Ok h =>
               rest ← mapM (λ _, new_big 0) (seq 1 (F - 1));
               mret (Ok (Build_sponge (h :: rest) 1 false h))
           end
         else mret (Ok (Build_sponge frame (sp_k st + 1) true (sp_hash st))))
      (Build_sponge frame 0 false None);
    match r with
    | Err e => mret (Err e)
    | Ok st =>
        if sp_dirty st then Hash (sp_frame st)
        else mret (Ok (sp_hash st))
    end.

(** HashBytesX on the heap.  [inputs[k].SetBytes(chunk)] writes through the
    pointer held in the frame; the last, short chunk goes to a new integer
    that replaces the pointer at [inputs[k]]. *)
Definition HashBytesX (msg : list byte) (frameSize : Z) : M (result ptr) :=
  if decide (frameSize < 2 ∨ 16 < frameSize) then mret (Err ErrIncorrectFrameSize)
  else
    let F := Z.to_nat frameSize in
    inputs ← mapM (λ _, new_big 0) (seq 0 F);
    r ← for_range_r 0 (length msg / spongeChunkSize)
      (λ i st,
         p ← lift (sp_frame st !! sp_k st);
         _ ← store p (SetBytes (chunk msg i));
         if decide (sp_k st = F - 1)%nat then
           r ← Hash (sp_frame st);
           match r with
           | Err e => mret (Err e)
           | Ok h =>
               rest ← mapM (λ _, new_big 0) (seq 1 (F - 1));
               mret (Ok (Build_sponge (h :: rest) 1 false h))
           end
         else
           mret (Ok (Build_sponge (sp_frame st) (sp_k st + 1) true (sp_hash st))))
      (Build_sponge inputs 0 false None);
    match r with
    | Err e => mret (Err e)
    | Ok st =>
        st ← (if decide (length msg mod spongeChunkSize ≠ 0)%nat then
                p ← new_big (SetBytes (last_chunk msg));
                inputs ← lift (set_at (sp_frame st) (sp_k st) p);
                mret (Build_sponge inputs (sp_k st) true (sp_hash st))
              else mret st);
        if sp_dirty st then Hash (sp_frame st)
        else mret (Ok (sp_hash st))
    end.

End Hash.

(** [ps] are non-nil pointers to the integers [vs]. *)
Definition points_to (h : gmap positive Z) (ps : list ptr) (vs : list Z) : Prop :=
  Forall2 (λ p v, ∃ l, p = Some l ∧ h !! l = Some v) ps vs.

(** A pointer allocated after the heap [h] was observed. *)
Definition fresh_in (h : gmap positive Z) (p : ptr) : Prop :=
  ∃ l, p = Some l ∧ h !! l = None.

(** What a call leaves behind: every integer of the heap [h] it started in
    is where and what it was, so the caller's [inputs] point to the values
    they pointed to; and every digest returned is an address that [h] did
    not hold, hence none of the inputs. *)
Definition frame_ok (h : gmap positive Z) (inputs digests : list ptr)
    (h' : gmap positive Z) : Prop :=
  h ⊆ h'
  ∧ (∀ vals, points_to h inputs vals → points_to h' inputs vals)
  ∧ Forall (λ p, fresh_in h p ∧ ∀ vals, points_to h inputs vals → p ∉ inputs)
           digests.

(** The pointer-level call [m], started in [h], does what the value-level
    call [v] does: it panics when [v] does, returns the same error, or
    returns a result related by [R] to the value-level one, in a heap that
    extends [h]. *)
Definition refines {A B : Type} (R : gmap positive Z → A → B → Prop)
    (h : gmap positive Z) (m : M (result A)) (v : option (result B)) : Prop :=
  match v with
  | None => m h = None
  | Some (Err e) => ∃ h', m h = Some (Err e, h') ∧ h ⊆ h'
  | Some (Ok b) => ∃ a h', m h = Some (Ok a, h') ∧ h ⊆ h' ∧ R h' a b
  end.

(** The same for a call that may write to integers allocated after [h0]:
    what it keeps is the heap [h0]. *)
Definition refines_over {A B : Type} (h0 : gmap positive Z)
    (R : gmap positive Z → A → B → Prop)
    (h : gmap positive Z) (m : M (result A)) (v : option (result B)) : Prop :=
  match v with
  | None => m h = None
  | Some (Err e) => ∃ h', m h = Some (Err e, h') ∧ h0 ⊆ h'
  | Some (Ok b) => ∃ a h', m h = Some (Ok a, h') ∧ h0 ⊆ h' ∧ R h' a b
  end.

(** A digest pointer and the digest it stands for. *)
Definition digest_at (h : gmap positive Z) (p : ptr) (d : option Z) : Prop :=
  match d with
  | None => p = None
  | Some v => ∃ l, p = Some l ∧ h !! l = Some v
  end.

(** The frame condition of a computation started in [h], a heap that
    extends [h0]: if it returns, every integer of [h0] is where and what it
    was, and the postcondition holds of the result and the final heap. *)
Definition preserves {A : Type} (h0 : gmap positive Z) (m : M A)
    (h : gmap positive Z) (Φ : A → gmap positive Z → Prop) : Prop :=
  h0 ⊆ h → ∀ a h', m h = Some (a, h') → h0 ⊆ h' ∧ Φ a h'.

End Mem.

(** The locals of the pointer-level sponge loop stand for those of the
    value-level loop. *)
Definition sponge_rel (h : gmap positive Z) (sp : Mem.sponge) (sv : sponge) : Prop :=
  Mem.points_to h (Mem.sp_frame sp) (sp_frame sv)
  ∧ Mem.sp_k sp = sp_k sv
  ∧ Mem.sp_dirty sp = sp_dirty sv
  ∧ Mem.digest_at h (Mem.sp_hash sp) (sp_hash sv).

(** The locals of the pointer-level loop of [HashBytesX] against those of
    the value-level loop: the frame holds distinct integers allocated by the
    call, so a write through [inputs[k]] reaches no other slot, and the
    digest of the last hash, when there is one, sits in slot 0, below the
    write position. *)
Definition bytes_sponge_rel (h0 h : gmap positive Z) (sp : Mem.sponge)
    (sv : sponge) : Prop :=
  h0 ⊆ h
  ∧ sponge_rel h sp sv
  ∧ NoDup (Mem.sp_frame sp)
  ∧ Forall (Mem.fresh_in h0) (Mem.sp_frame sp)
  ∧ (Mem.sp_hash sp = None
     ∨ (1 ≤ Mem.sp_k sp)%nat ∧ Mem.sp_frame sp !! 0%nat = Some (Mem.sp_hash sp)).

(** ** Well-formed constant tables *)

Definition matrix_ok (t : nat) (m : list (list ff.Element)) : bool :=
  (t <=? length m)%nat && forallb (λ row, (t <=? length row)%nat) (take t m).

(** The tables for width [t] exist and are large enough for every index the
    permutation reads. *)
Definition width_ok (cs : constants) (t : nat) : bool :=
  match NROUNDSP !! (t - 2)%nat,
        c_c cs !! (t - 2)%nat, c_s cs !! (t - 2)%nat,
        c_m cs !! (t - 2)%nat, c_p cs !! (t - 2)%nat with
  | Some nP, Some C, Some Sp, Some M, Some P =>
      (NROUNDSF * t + nP <=? length C)%nat
      && ((2 * t - 1) * nP <=? length Sp)%nat
      && matrix_ok t M && matrix_ok t P
  | _, _, _, _, _ => false
  end.

Definition constants_ok (cs : constants) : bool :=
  forallb (width_ok cs) (seq 2 16).

(** A table of the right shape for every width, with synthetic entries: it
    shows that the shape conditions can be met and lets the definitions run
    on concrete inputs. *)
Definition sample_constants : constants :=
  let nP := λ t : nat, default 0%nat (NROUNDSP !! (t - 2)%nat) in
  Build_constants
    ((λ t, (λ i, Z.of_nat (3 * i + t)) <$> seq 0 (NROUNDSF * t + nP t)) <$> seq 2 16)
    ((λ t, (λ i, Z.of_nat (2 * i + 1)) <$> seq 0 ((2 * t - 1) * nP t)) <$> seq 2 16)
    ((λ t, (λ j, (λ i, Z.of_nat (i + 2 * j + 1)) <$> seq 0 t) <$> seq 0 t)
       <$> seq 2 16)
    ((λ t, (λ j, (λ i, Z.of_nat (i * j + 1)) <$> seq 0 t) <$> seq 0 t)
       <$> seq 2 16).

(** The validation conditions of [HashWithStateEx]. *)
Definition invalid_call (inpBI : list Z) (initState nOuts : Z) : Prop :=
  length inpBI = 0%nat ∨ (16 < length inpBI)%nat
  ∨ Exists (λ x, ff.Modulus ≤ x) inpBI
  ∨ ff.Modulus ≤ initState
  ∨ nOuts < 1 ∨ Z.of_nat (length inpBI) + 1 < nOuts.

(** A digest returned through a [*big.Int] that may be nil. *)
Definition as_digest (r : option (result Z)) : option (result (option Z)) :=
  r ← r;
  match r with
  | Err e => Some (Err e)
  | Ok h => Some (Ok (Some h))
  end.

(** The chunk sequence of the specification: the message split into 31-byte
    chunks, a final short chunk zero-padded on the right to 31 bytes, each
    chunk read as a big-endian integer. *)
Definition pad_chunk (c : list byte) : list byte :=
  c ++ replicate (31 - length c) x00.

Definition chunk_seq (msg : list byte) : list Z :=
  (λ i, SetBytes (pad_chunk (take 31 (drop (31 * i) msg))))
    <$> seq 0 ((length msg + 30) / 31).

(** Congruence modulo the field prime, as a relation to rewrite with. *)
Definition cong (a b : Z) : Prop := a mod ff.Modulus = b mod ff.Modulus.

(** One iteration of the loop of [SpongeHashX], on the input value [v], and
    the loop itself by recursion on the inputs still to absorb; the loop of
    [SpongeHashX] is shown below to compute [absorb]. *)
Definition sponge_step (cs : constants) (F : nat) (v : Z) (st : sponge)
  : option (result sponge) :=
  frame ← set_at (sp_frame st) (sp_k st) v;
  if decide (sp_k st = F - 1)%nat then
    r ← Hash cs frame;
    match r with
    | Err e => Some (Err e)
    | Ok h =>
        frame ← set_at (replicate F 0) 0 h;
        Some (Ok (Build_sponge frame 1 false (Some h)))
    end
  else Some (Ok (Build_sponge frame (sp_k st + 1) true (sp_hash st))).

Fixpoint absorb (cs : constants) (F : nat) (xs : list Z) (st : sponge)
  : option (result sponge) :=
  match xs with
  | [] => Some (Ok st)
  | v :: xs =>
      match sponge_step cs F v st with
      | Some (Ok st') => absorb cs F xs st'
      | other => other
      end
  end.

(** The locals of the sponge loops right after a frame was hashed to [h]. *)
Definition chained (F : nat) (h : Z) : sponge :=
  Build_sponge (h :: replicate (F - 1) 0) 1 false (Some h).

(** ** Loop rules *)

Lemma for_range_inv {St : Type} (I : nat → St → Prop)
    (body : nat → St → option St) (n lo : nat) (st : St) :
  I lo st →
  (∀ i s, (lo ≤ i < lo + n)%nat → I i s → ∃ s', body i s = Some s' ∧ I (S i) s') →
  ∃ st', for_range lo n body st = Some st' ∧ I (lo + n)%nat st'.
Proof.
  revert lo st. induction n as [|n IH]; intros lo st Hinit Hstep; simpl.
  - exists st. rewrite Nat.add_0_r. done.
  - destruct (Hstep lo st) as (s' & Hb & Hs'); [lia | done |].
    rewrite Hb. simpl.
    destruct (IH (S lo) s') as (st' & Hr & HI); [done | |].
    + intros i s Hi. apply Hstep. lia.
    + exists st'. split; [done|]. by replace (lo + S n)%nat with (S lo + n)%nat by lia.
Qed.

Lemma for_range_ext {St : Type} (f g : nat → St → option St) (n lo : nat) (st : St) :
  (∀ i s, (lo ≤ i < lo + n)%nat → f i s = g i s) →
  for_range lo n f st = for_range lo n g st.
Proof.
  revert lo st. induction n as [|n IH]; intros lo st H; simpl; [done|].
  rewrite H by lia. destruct (g lo st) as [s'|]; simpl; [|done].
  apply IH. intros. apply H. lia.
Qed.

Lemma set_at_Some {A : Type} (l : list A) (i : nat) (v : A) :
  (i < length l)%nat → set_at l i v = Some (<[i := v]> l).
Proof. intros. unfold set_at. by rewrite decide_True. Qed.

Lemma insert_take_drop_step {A : Type} (l tgt : list A) (i : nat) (y : A) :
  length tgt = length l → tgt !! i = Some y →
  <[i := y]> (take i tgt ++ drop i l) = take (S i) tgt ++ drop (S i) l.
Proof.
  intros Hlen Hy.
  assert (i < length tgt)%nat by (by eapply lookup_lt_Some).
  assert (length (take i tgt) = i) as Hti by (rewrite length_take; lia).
  destruct (lookup_lt_is_Some_2 l i) as [x Hx]; [lia|].
  rewrite (drop_S l x i Hx).
  rewrite insert_app_r_alt by lia. rewrite Hti, Nat.sub_diag. simpl.
  rewrite (take_S_r _ _ y) by done. by rewrite <- app_assoc.
Qed.

(** An in-place loop over a slice computes [imap]. *)
Lemma for_range_imap {A : Type} (body : nat → list A → option (list A))
    (h : nat → A → A) (l : list A) :
  (∀ i s x, l !! i = Some x → s !! i = Some x → length s = length l →
            body i s = set_at s i (h i x)) →
  for_range 0 (length l) body l = Some (imap h l).
Proof.
  intros Hbody.
  destruct (for_range_inv
              (λ i s, s = take i (imap h l) ++ drop i l) body (length l) 0 l)
    as (st' & Hr & HI).
  - done.
  - intros i s [_ Hi] ->. simpl in Hi.
    destruct (lookup_lt_is_Some_2 l i Hi) as [x Hx].
    assert (length (imap h l) = length l) as Hlen by apply length_imap.
    assert ((take i (imap h l) ++ drop i l) !! i = Some x) as Hsi.
    { rewrite lookup_app_r; rewrite length_take; [|lia].
      replace (i - i `min` length (imap h l))%nat with 0%nat by lia.
      by rewrite lookup_drop, Nat.add_0_r. }
    eexists. split.
    + rewrite (Hbody i _ x); [| done | done |].
      * apply set_at_Some. rewrite length_app, length_take, length_drop. lia.
      * rewrite length_app, length_take, length_drop. lia.
    + apply insert_take_drop_step; [done|].
      by rewrite list_lookup_imap, Hx.
  - rewrite Hr. f_equal. rewrite HI. simpl.
    rewrite <- (length_imap h l) at 1. rewrite firstn_all.
    rewrite drop_all. by rewrite app_nil_r.
Qed.

(** ** Arithmetic modulo the field prime *)

Lemma Modulus_pos : 0 < ff.Modulus.
Proof. reflexivity. Qed.

Lemma Modulus_nz : ff.Modulus ≠ 0.
Proof. pose proof Modulus_pos. lia. Qed.

Lemma cong_eq (a b : Z) : cong a b → a mod ff.Modulus = b mod ff.Modulus.
Proof. done. Qed.

Lemma cong_mod (a : Z) : cong (a mod ff.Modulus) a.
Proof. unfold cong. apply Z.mod_mod, Modulus_nz. Qed.

#[local] Instance cong_equiv : Equivalence cong.
Proof. unfold cong. split; red; intros; congruence. Qed.

#[local] Instance cong_add : Proper (cong ==> cong ==> cong) Z.add.
Proof.
  unfold cong. intros a a' Ha b b' Hb.
  rewrite (Z.add_mod a), (Z.add_mod a') by apply Modulus_nz. by rewrite Ha, Hb.
Qed.

#[local] Instance cong_mul : Proper (cong ==> cong ==> cong) Z.mul.
Proof.
  unfold cong. intros a a' Ha b b' Hb.
  rewrite (Z.mul_mod a), (Z.mul_mod a') by apply Modulus_nz. by rewrite Ha, Hb.
Qed.

#[local] Typeclasses Opaque cong.
#[local] Opaque cong.

Lemma exp5_sbox (a : ff.Element) : exp5 a = Spec.sbox a.
Proof.
  unfold exp5, big5, ff.Exp, ff.exp_bits, ff.Square, ff.Mul, Spec.sbox, Spec.q.
  apply cong_eq. rewrite !cong_mod.
  replace (a ^ 5) with (a * a * (a * a) * a) by ring. reflexivity.
Qed.

(** The accumulation step of the mixing loops: adding a reduced product to
    a reduced partial sum gives the reduced longer sum. *)
Lemma acc_step (f : nat → Z) (j : nat) (x y : Z) :
  f j = x * y →
  ff.Add (Spec.sumZ j f mod ff.Modulus) (ff.Mul x y)
  = Spec.sumZ (S j) f mod ff.Modulus.
Proof.
  intros Hf. unfold ff.Add, ff.Mul. simpl. rewrite Hf.
  apply cong_eq. by rewrite !cong_mod.
Qed.

(** ** The pieces of the permutation against the schedule *)

Lemma at0_Some (l : list Z) (i : nat) (x : Z) : l !! i = Some x → Spec.at0 l i = x.
Proof. unfold Spec.at0. by intros ->. Qed.

Lemma exp5state_spec (state : list ff.Element) :
  exp5state state = Some (Spec.sbox <$> state).
Proof.
  unfold exp5state.
  rewrite (for_range_imap _ (λ _ x, exp5 x)).
  - f_equal. apply list_eq. intros i.
    rewrite list_lookup_imap, list_lookup_fmap.
    destruct (state !! i); simpl; by rewrite ?exp5_sbox.
  - intros i s x _ Hs _. by rewrite Hs.
Qed.

Lemma ark_spec (state C : list ff.Element) (it : nat) :
  (it + length state ≤ length C)%nat →
  ark state C it = Some (Spec.ark C it state).
Proof.
  intros Hlen. unfold ark, Spec.ark.
  apply for_range_imap. intros i s x Hl Hs _.
  rewrite Hs. simpl.
  assert (i < length state)%nat by (by eapply lookup_lt_Some).
  destruct (lookup_lt_is_Some_2 C (it + i)) as [k Hk]; [lia|].
  rewrite Hk. simpl. by rewrite (at0_Some _ _ _ Hk).
Qed.

Lemma length_spec_ark (C : list Z) (it : nat) (state : list Z) :
  length (Spec.ark C it state) = length state.
Proof. apply length_imap. Qed.

Lemma length_spec_mix (m : list (list Z)) (state : list Z) :
  length (Spec.mix m state) = length state.
Proof. unfold Spec.mix. by rewrite length_fmap, length_seq. Qed.

Lemma matrix_ok_lookup (t : nat) (m : list (list ff.Element)) (i j : nat) :
  matrix_ok t m = true → (i < t)%nat → (j < t)%nat →
  ∃ mj mji, m !! j = Some mj ∧ mj !! i = Some mji.
Proof.
  unfold matrix_ok. rewrite andb_true_iff, Nat.leb_le, forallb_forall.
  intros [Hlen Hrows] Hi Hj.
  destruct (lookup_lt_is_Some_2 m j) as [mj Hmj]; [lia|].
  assert (In mj (take t m)) as Hin.
  { apply list_elem_of_In. apply list_elem_of_lookup. exists j.
    by rewrite lookup_take_lt. }
  apply Hrows in Hin. apply Nat.leb_le in Hin.
  destruct (lookup_lt_is_Some_2 mj i) as [mji Hmji]; [lia|].
  by exists mj, mji.
Qed.

Lemma spec_mix_lookup (m : list (list Z)) (state : list Z) (i : nat) :
  (i < length state)%nat →
  Spec.mix m state !! i
  = Some (Spec.sumZ (length state)
            (λ j, Spec.at0 (default [] (m !! j)) i * Spec.at0 state j)
          mod Spec.q).
Proof.
  intros Hi. unfold Spec.mix. rewrite list_lookup_fmap.
  by rewrite lookup_seq_lt.
Qed.

(** One output slot of the mixing step: the inner loop over [j]. *)
Lemma mix_inner_loop (state : list ff.Element) (m : list (list ff.Element))
    (s : list ff.Element) (i : nat) :
  matrix_ok (length state) m = true → (i < length state)%nat →
  (i < length s)%nat →
  for_range 0 (length state)
    (λ j scratch,
       acc ← scratch !! i;
       mj ← m !! j;
       mji ← mj !! i;
       sj ← state !! j;
       set_at scratch i (ff.Add acc (ff.Mul mji sj)))
    (<[i := 0]> s)
  = Some (<[i := Spec.sumZ (length state)
                    (λ j, Spec.at0 (default [] (m !! j)) i * Spec.at0 state j)
                  mod Spec.q]> s).
Proof.
  intros Hm Hi His.
  set (f := λ j : nat, Spec.at0 (default [] (m !! j)) i * Spec.at0 state j).
  edestruct (for_range_inv (λ j s', s' = <[i := Spec.sumZ j f mod Spec.q]> s))
    as (s' & Hr & HI); [| | rewrite Hr; by rewrite HI].
  - simpl. by rewrite Z.mod_0_l by apply Modulus_nz.
  - intros j s' [_ Hj] ->. simpl in Hj.
    destruct (matrix_ok_lookup _ _ i j Hm Hi Hj) as (mj & mji & Hmj & Hmji).
    destruct (lookup_lt_is_Some_2 state j Hj) as [sj Hsj].
    rewrite list_lookup_insert_eq by done. simpl.
    rewrite Hmj. simpl. rewrite Hmji. simpl. rewrite Hsj. simpl.
    rewrite set_at_Some by (by rewrite length_insert).
    eexists. split; [done|].
    rewrite list_insert_insert_eq. f_equal.
    unfold Spec.q. rewrite (acc_step f j mji sj); [done|].
    unfold f. rewrite Hmj. simpl.
    by rewrite (at0_Some _ _ _ Hmji), (at0_Some _ _ _ Hsj).
Qed.

Lemma mixWithScratch_spec (state : list ff.Element) (m : list (list ff.Element))
    (scratch : list ff.Element) :
  matrix_ok (length state) m = true → length scratch = length state →
  mixWithScratch state m scratch = Some (Spec.mix m state, Spec.mix m state).
Proof.
  intros Hm Hlen. unfold mixWithScratch.
  set (tgt := Spec.mix m state).
  assert (length tgt = length state) as Htgt by apply length_spec_mix.
  edestruct (for_range_inv (λ i s, s = take i tgt ++ drop i scratch))
    as (s' & Hr & HI); [| | rewrite Hr; clear Hr].
  - done.
  - intros i s [_ Hi] ->. simpl in Hi.
    assert (length (take i tgt ++ drop i scratch) = length state) as Hls.
    { rewrite length_app, length_take, length_drop. lia. }
    rewrite set_at_Some by lia. simpl.
    rewrite mix_inner_loop by (done || lia).
    eexists. split; [done|].
    apply insert_take_drop_step; [lia|].
    by apply spec_mix_lookup.
  - simpl in HI. subst s'. simpl.
    rewrite take_ge by lia. rewrite drop_ge by lia. rewrite app_nil_r.
    rewrite (for_range_imap _ (λ i _, Spec.at0 tgt i)).
    + simpl. do 2 f_equal. apply list_eq. intros i.
      rewrite list_lookup_imap.
      destruct (decide (i < length state)%nat) as [Hi|Hi].
      * destruct (lookup_lt_is_Some_2 state i Hi) as [x Hx].
        destruct (lookup_lt_is_Some_2 tgt i) as [y Hy]; [lia|].
        rewrite Hx, Hy. simpl. by rewrite (at0_Some _ _ _ Hy).
      * rewrite !lookup_ge_None_2 by lia. done.
    + intros i s x Hx Hs Hl.
      assert (i < length state)%nat by (by eapply lookup_lt_Some).
      destruct (lookup_lt_is_Some_2 tgt i) as [y Hy]; [lia|].
      rewrite Hy. simpl. by rewrite (at0_Some _ _ _ Hy).
Qed.

Lemma full_round_spec (C : list ff.Element) (m : list (list ff.Element))
    (it : nat) (state scratch : list ff.Element) :
  matrix_ok (length state) m = true → length scratch = length state →
  (it + length state ≤ length C)%nat →
  full_round C m it (state, scratch)
  = Some (Spec.full_round C m it state, Spec.full_round C m it state).
Proof.
  intros Hm Hlen HC. unfold full_round, Spec.full_round. simpl.
  rewrite exp5state_spec. simpl.
  rewrite ark_spec by (by rewrite length_fmap). simpl.
  apply mixWithScratch_spec; rewrite length_spec_ark, length_fmap; done.
Qed.

Lemma length_spec_full_round (C : list Z) (m : list (list Z)) (it : nat)
    (state : list Z) :
  length (Spec.full_round C m it state) = length state.
Proof.
  unfold Spec.full_round.
  by rewrite length_spec_mix, length_spec_ark, length_fmap.
Qed.

Lemma lookup_take_drop {A : Type} (tgt l : list A) (i k : nat) :
  length tgt = length l → (i ≤ length l)%nat →
  (take i tgt ++ drop i l) !! k = if decide (k < i)%nat then tgt !! k else l !! k.
Proof.
  intros Hlen Hi. destruct (decide (k < i)%nat).
  - rewrite lookup_app_l by (rewrite length_take; lia). by rewrite lookup_take_lt.
  - rewrite lookup_app_r by (rewrite length_take; lia).
    rewrite length_take, lookup_drop. f_equal. lia.
Qed.

(** The sum that becomes the new slot 0 of a partial round. *)
Lemma partial_sum_loop (S pre : list ff.Element) (off : nat) :
  (off + length pre ≤ length S)%nat →
  for_range 0 (length pre)
    (λ j newState0,
       sj ← S !! (off + j)%nat;
       x ← pre !! j;
       Some (ff.Add newState0 (ff.Mul sj x)))
    0
  = Some (Spec.sumZ (length pre) (λ j, Spec.at0 S (off + j) * Spec.at0 pre j)
          mod Spec.q).
Proof.
  intros HS.
  set (g := λ j : nat, Spec.at0 S (off + j) * Spec.at0 pre j).
  edestruct (for_range_inv (λ j (a : Z), a = Spec.sumZ j g mod Spec.q))
    as (a & Hr & HI); [| | rewrite Hr; by rewrite HI].
  - simpl. by rewrite Z.mod_0_l by apply Modulus_nz.
  - intros j a [_ Hj] ->. simpl in Hj.
    destruct (lookup_lt_is_Some_2 S (off + j)) as [sj Hsj]; [lia|].
    destruct (lookup_lt_is_Some_2 pre j Hj) as [x Hx].
    rewrite Hsj. simpl. rewrite Hx. simpl.
    eexists. split; [done|].
    unfold Spec.q. rewrite (acc_step g j sj x); [done|].
    unfold g. by rewrite (at0_Some _ _ _ Hsj), (at0_Some _ _ _ Hx).
Qed.

(** The fan-out of slot 0 into the slots [1 .. t-1] of a partial round. *)
Lemma partial_fanout_loop (S pre : list ff.Element) (off : nat) (s0 : ff.Element) :
  pre !! 0%nat = Some s0 →
  (off + length pre - 1 ≤ length S)%nat →
  for_range 1 (length pre - 1)
    (λ k state,
       x ← state !! k;
       s0 ← state !! 0%nat;
       sk ← S !! (off + k - 1)%nat;
       set_at state k (ff.Add x (ff.Mul s0 sk)))
    pre
  = Some (imap (λ k x, if decide (k = 0%nat) then x
                       else (x + s0 * Spec.at0 S (off + k - 1)) mod Spec.q) pre).
Proof.
  intros H0 HS.
  set (tgt := imap (λ k x, if decide (k = 0%nat) then x
                           else (x + s0 * Spec.at0 S (off + k - 1)) mod Spec.q) pre).
  assert (length tgt = length pre) as Hlen by apply length_imap.
  assert (0 < length pre)%nat as Hpos by (by eapply lookup_lt_Some).
  assert (tgt !! 0%nat = Some s0) as Ht0.
  { unfold tgt. rewrite list_lookup_imap, H0. done. }
  edestruct (for_range_inv (λ k s, s = take k tgt ++ drop k pre)
               (λ k state,
                  x ← state !! k;
                  s0 ← state !! 0%nat;
                  sk ← S !! (off + k - 1)%nat;
                  set_at state k (ff.Add x (ff.Mul s0 sk)))
               (length pre - 1) 1 pre)
    as (s' & Hr & HI); [| | rewrite Hr; f_equal; rewrite HI].
  - apply list_eq. intros k. rewrite (lookup_take_drop tgt pre) by (done || lia).
    destruct (decide (k < 1)%nat); [|done].
    replace k with 0%nat by lia. by rewrite H0, Ht0.
  - intros k s [Hk1 Hk] ->.
    destruct (lookup_lt_is_Some_2 pre k) as [x Hx]; [lia|].
    destruct (lookup_lt_is_Some_2 S (off + k - 1)) as [sk Hsk]; [lia|].
    rewrite !(lookup_take_drop tgt pre) by (done || lia).
    rewrite (decide_False (P := (k < k)%nat)) by lia.
    rewrite (decide_True (P := (0 < k)%nat)) by lia.
    rewrite Hx, Ht0. simpl. rewrite Hsk. simpl.
    rewrite set_at_Some by (rewrite length_app, length_take, length_drop; lia).
    eexists. split; [done|].
    apply insert_take_drop_step; [done|].
    unfold tgt. rewrite list_lookup_imap, Hx. simpl.
    rewrite decide_False by lia.
    unfold ff.Add, ff.Mul, Spec.q. f_equal.
    rewrite (at0_Some _ _ _ Hsk). apply cong_eq. by rewrite !cong_mod.
  - replace (1 + (length pre - 1))%nat with (length pre) by lia.
    rewrite take_ge by lia. rewrite drop_ge by lia. by rewrite app_nil_r.
Qed.

Lemma sumZ_ext (n : nat) (f g : nat → Z) :
  (∀ j, (j < n)%nat → f j = g j) → Spec.sumZ n f = Spec.sumZ n g.
Proof.
  induction n as [|n IH]; intros H; simpl; [done|].
  rewrite IH by (intros; apply H; lia). by rewrite H by lia.
Qed.

Lemma partial_round_spec (t : nat) (C S : list ff.Element) (i : nat)
    (state : list ff.Element) (n0 : ff.Element) :
  length state = t → (1 ≤ t)%nat →
  ((NROUNDSF / 2 + 1) * t + i < length C)%nat →
  ((2 * t - 1) * i + (2 * t - 1) ≤ length S)%nat →
  ∃ n0', partial_round t C S i (state, n0)
         = Some (Spec.partial_round t C S i state, n0').
Proof.
  intros Hlen Ht HC HS.
  destruct state as [|s0 rest]; [simpl in Hlen; lia|].
  destruct (lookup_lt_is_Some_2 C ((NROUNDSF / 2 + 1) * t + i)) as [k Hk]; [lia|].
  set (s0' := ff.Add (exp5 s0) k).
  set (pre := s0' :: rest).
  assert (length pre = t) as Hpre by (simpl in *; lia).
  unfold partial_round.
  cbn [fst]. 
  change ((s0 :: rest) !! 0%nat) with (Some s0). cbn [mbind option_bind].
  rewrite set_at_Some by (simpl; lia). cbn [mbind option_bind].
  change (<[0%nat:=exp5 s0]> (s0 :: rest)) with (exp5 s0 :: rest).
  change ((exp5 s0 :: rest) !! 0%nat) with (Some (exp5 s0)). cbn [mbind option_bind].
  rewrite Hk. cbn [mbind option_bind].
  rewrite set_at_Some by (simpl; lia). cbn [mbind option_bind].
  change (<[0%nat:=ff.Add (exp5 s0) k]> (exp5 s0 :: rest)) with pre.
  rewrite (partial_sum_loop S pre ((t * 2 - 1) * i)) by lia.
  cbn [mbind option_bind].
  replace (t - 1)%nat with (length pre - 1)%nat by lia.
  rewrite (partial_fanout_loop S pre ((t * 2 - 1) * i + t) s0') by (done || lia).
  cbn [mbind option_bind].
  rewrite set_at_Some by (rewrite length_imap; lia). cbn [mbind option_bind].
  eexists. do 2 f_equal.
  unfold Spec.partial_round.
  assert (Spec.at0 (s0 :: rest) 0 = s0) as -> by done.
  change (Spec.at0 C ((8 / 2 + 1) * t + i)%nat)
    with (Spec.at0 C ((NROUNDSF / 2 + 1) * t + i)%nat).
  rewrite (at0_Some _ _ _ Hk).
  assert ((Spec.sbox s0 + k) mod Spec.q = s0') as ->.
  { unfold s0', ff.Add. by rewrite exp5_sbox. }
  change (<[0%nat:=s0']> (s0 :: rest)) with pre.
  apply list_eq. intros j. destruct j as [|j].
  - rewrite list_lookup_insert_eq by (rewrite length_imap; lia).
    rewrite list_lookup_imap.
    change (pre !! 0%nat) with (Some s0'). cbn [fmap option_fmap option_map].
    rewrite decide_True by done.
    f_equal. rewrite Hpre. f_equal. apply sumZ_ext. intros j _.
    do 2 f_equal. lia.
  - rewrite list_lookup_insert_ne by done.
    rewrite !list_lookup_imap.
    destruct (pre !! Datatypes.S j); cbn [fmap option_fmap option_map]; [|done].
    rewrite !decide_False by done.
    do 5 f_equal. lia.
Qed.

Lemma for_range_fold {A B : Type} (Inv : A → B → Prop)
    (body : nat → A * B → option (A * B)) (g : nat → A → A)
    (n lo : nat) (a : A) (b : B) :
  Inv a b →
  (∀ i a b, (lo ≤ i < lo + n)%nat → Inv a b →
            ∃ b', body i (a, b) = Some (g i a, b') ∧ Inv (g i a) b') →
  ∃ b', for_range lo n body (a, b)
        = Some (fold_left (λ a i, g i a) (seq lo n) a, b')
        ∧ Inv (fold_left (λ a i, g i a) (seq lo n) a) b'.
Proof.
  revert lo a b. induction n as [|n IH]; intros lo a b Hinv Hstep; simpl.
  - by exists b.
  - destruct (Hstep lo a b) as (b1 & Hb & Hinv1); [lia | done |].
    rewrite Hb. simpl. apply IH; [done|].
    intros i a' b' Hi. apply Hstep. lia.
Qed.

Lemma length_spec_partial_round (t : nat) (C S : list Z) (i : nat) (state : list Z) :
  length (Spec.partial_round t C S i state) = length state.
Proof. unfold Spec.partial_round. by rewrite length_imap, length_insert. Qed.

Lemma width_ok_inv (cs : constants) (t : nat) :
  width_ok cs t = true →
  ∃ nP C Sp M P,
    NROUNDSP !! (t - 2)%nat = Some nP ∧ c_c cs !! (t - 2)%nat = Some C ∧
    c_s cs !! (t - 2)%nat = Some Sp ∧ c_m cs !! (t - 2)%nat = Some M ∧
    c_p cs !! (t - 2)%nat = Some P ∧
    (NROUNDSF * t + nP ≤ length C)%nat ∧ ((2 * t - 1) * nP ≤ length Sp)%nat ∧
    matrix_ok t M = true ∧ matrix_ok t P = true.
Proof.
  unfold width_ok.
  destruct (NROUNDSP !! (t - 2)%nat) as [nP|]; [|done].
  destruct (c_c cs !! (t - 2)%nat) as [C|]; [|done].
  destruct (c_s cs !! (t - 2)%nat) as [Sp|]; [|done].
  destruct (c_m cs !! (t - 2)%nat) as [M|]; [|done].
  destruct (c_p cs !! (t - 2)%nat) as [P|]; [|done].
  rewrite !andb_true_iff, !Nat.leb_le. intros [[[? ?] ?] ?].
  by exists nP, C, Sp, M, P.
Qed.

Lemma hashElements_spec (cs : constants) (state scratch : list ff.Element) :
  width_ok cs (length state) = true → (2 ≤ length state)%nat →
  length scratch = length state →
  hashElements cs state scratch
  = Some (Spec.permute cs state, Spec.permute cs state).
Proof.
  intros Hok Ht Hscr.
  destruct (width_ok_inv _ _ Hok)
    as (nP & C & Sp & M & P & HnP & HC & HS & HM & HP & HlC & HlS & HmM & HmP).
  unfold hashElements, Spec.permute.
  set (t := length state) in *.
  rewrite option_guard_True by done. cbn [mbind option_bind].
  rewrite HnP, HC, HS, HM, HP. cbn [mbind option_bind default from_option id].
  change (NROUNDSF / 2 - 1)%nat with 3%nat.
  change (NROUNDSF / 2)%nat with (8 / 2)%nat.
  unfold NROUNDSF in HlC.
  pose (Inv := λ (a b : list Z), length a = t ∧ length b = t).
  (* initial ARK *)
  rewrite ark_spec by (fold t; lia). cbn [mbind option_bind].
  set (st1 := Spec.ark C 0 state).
  assert (Inv st1 scratch) as Hinv1.
  { split; [apply length_spec_ark | done]. }
  (* first half of the full rounds *)
  destruct (for_range_fold Inv
              (λ i ss, full_round C M ((i + 1) * t) ss)
              (λ i a, Spec.full_round C M ((i + 1) * t) a) 3 0 st1 scratch Hinv1)
    as (b2 & Hr2 & Hinv2).
  { intros i a b Hi [Ha Hb]. eexists. split.
    - apply full_round_spec; rewrite ?Ha; try done. nia.
    - split; by rewrite length_spec_full_round. }
  rewrite Hr2. cbn [mbind option_bind]. clear Hr2.
  set (st2 := fold_left _ (seq 0 3) st1) in *.
  destruct Hinv2 as [Hl2 Hb2].
  (* transition round *)
  rewrite full_round_spec
    by (rewrite ?Hl2; first [done | change (8 / 2)%nat with 4%nat; lia]).
  cbn [mbind option_bind fst snd].
  set (st3 := Spec.full_round C P (8 / 2 * t) st2).
  assert (length st3 = t) as Hl3 by (unfold st3; by rewrite length_spec_full_round).
  (* partial rounds *)
  destruct (for_range_fold (λ (a : list Z) (_ : Z), length a = t)
              (partial_round t C Sp)
              (λ i a, Spec.partial_round t C Sp i a) nP 0 st3 zero Hl3)
    as (n0 & Hr4 & Hl4).
  { intros i a b Hi Ha.
    destruct (partial_round_spec t C Sp i a b) as [n0' Hn0']; try done; try lia.
    - change (NROUNDSF / 2 + 1)%nat with 5%nat. lia.
    - nia.
    - exists n0'. split; [done|]. by rewrite length_spec_partial_round. }
  rewrite Hr4. cbn [mbind option_bind fst snd]. clear Hr4.
  set (st4 := fold_left _ (seq 0 nP) st3) in *.
  (* second half of the full rounds *)
  destruct (for_range_fold Inv
              (λ i ss, full_round C M ((8 / 2 + 1) * t + nP + i * t) ss)
              (λ i a, Spec.full_round C M ((8 / 2 + 1) * t + nP + i * t) a)
              3 0 st4 st3)
    as (b5 & Hr5 & Hinv5).
  { done. }
  { intros i a b Hi [Ha Hb]. eexists. split.
    - apply full_round_spec; rewrite ?Ha; try done.
      change (8 / 2 + 1)%nat with 5%nat. nia.
    - split; by rewrite length_spec_full_round. }
  rewrite Hr5. cbn [mbind option_bind fst snd]. clear Hr5.
  set (st5 := fold_left _ (seq 0 3) st4) in *.
  destruct Hinv5 as [Hl5 Hb5].
  (* final S-box and mix *)
  rewrite exp5state_spec. cbn [mbind option_bind].
  apply mixWithScratch_spec; rewrite length_fmap; rewrite ?Hl5; done.
Qed.

(** ** The fixed-input hash *)

Lemma CheckBigIntArrayInField_true (arr : list Z) :
  utils.CheckBigIntArrayInField arr = true ↔ Forall (λ x, x < ff.Modulus) arr.
Proof.
  unfold utils.CheckBigIntArrayInField, utils.CheckBigIntInField.
  induction arr as [|x arr IH]; simpl.
  - split; [constructor | done].
  - rewrite andb_true_iff, Forall_cons, IH, Z.ltb_lt. done.
Qed.

Lemma CheckBigIntArrayInField_false (arr : list Z) :
  utils.CheckBigIntArrayInField arr = false ↔ Exists (λ x, ff.Modulus ≤ x) arr.
Proof.
  unfold utils.CheckBigIntArrayInField, utils.CheckBigIntInField.
  induction arr as [|x arr IH]; simpl.
  - split; [done | by intros ?%Exists_nil].
  - rewrite andb_false_iff, Exists_cons, IH, Z.ltb_ge. done.
Qed.

Lemma length_fold_left {A : Type} (g : nat → list A → list A) (l : list nat)
    (a : list A) :
  (∀ i a, length (g i a) = length a) →
  length (fold_left (λ a i, g i a) l a) = length a.
Proof.
  intros Hg. revert a. induction l as [|i l IH]; intros a; simpl; [done|].
  by rewrite IH, Hg.
Qed.

Lemma length_spec_permute (cs : constants) (state : list Z) :
  length (Spec.permute cs state) = length state.
Proof.
  unfold Spec.permute.
  rewrite length_spec_mix, length_fmap.
  rewrite length_fold_left by (intros; apply length_spec_full_round).
  rewrite length_fold_left by (intros; apply length_spec_partial_round).
  rewrite length_spec_full_round.
  rewrite length_fold_left by (intros; apply length_spec_full_round).
  apply length_spec_ark.
Qed.

Lemma mapM_lookup_seq {A B : Type} (f : A → B) (l : list A) (lo n : nat) :
  (lo + n ≤ length l)%nat →
  mapM (λ i, f <$> l !! i) (seq lo n) = Some (f <$> take n (drop lo l)).
Proof.
  revert lo. induction n as [|n IH]; intros lo Hn; simpl; [done|].
  destruct (lookup_lt_is_Some_2 l lo) as [x Hx]; [lia|].
  rewrite Hx. simpl. rewrite IH by lia. simpl.
  rewrite (drop_S l x lo Hx). done.
Qed.

(** A validated call runs the permutation on [initState :: inputs] and
    returns the first [nOuts] slots. *)
Lemma HashWithStateEx_valid (cs : constants) (inpBI : list Z) (initState nOuts : Z) :
  width_ok cs (length inpBI + 1) = true →
  ¬ invalid_call inpBI initState nOuts →
  HashWithStateEx cs inpBI initState nOuts
  = Some (Ok (ff.ToBigIntRegular
                <$> take (Z.to_nat nOuts)
                      (Spec.permute cs
                         (ff.SetBigInt initState
                            :: utils.BigIntArrayToElementArray inpBI)))).
Proof.
  intros Hok Hv. unfold invalid_call in Hv.
  unfold HashWithStateEx.
  change (length NROUNDSP) with 16%nat.
  rewrite decide_False by (intros [?|?]; apply Hv; auto).
  destruct (utils.CheckBigIntArrayInField inpBI) eqn:Hchk; simpl.
  2:{ apply CheckBigIntArrayInField_false in Hchk. exfalso. apply Hv. auto. }
  rewrite decide_False by (intros [?|?]; apply Hv; [right; right; right; right; left|
                                                    do 5 right]; lia).
  destruct (utils.CheckBigIntInField initState) eqn:Hchk0; simpl.
  2:{ apply Z.ltb_ge in Hchk0. exfalso. apply Hv. auto. }
  assert (length (ff.SetBigInt initState :: utils.BigIntArrayToElementArray inpBI)
          = (length inpBI + 1)%nat) as Hlen.
  { unfold utils.BigIntArrayToElementArray. simpl. rewrite length_fmap. lia. }
  rewrite hashElements_spec.
  - cbn [mbind option_bind fst].
    rewrite mapM_lookup_seq.
    + by rewrite drop_0.
    + rewrite length_spec_permute, Hlen.
      assert (nOuts ≤ Z.of_nat (length inpBI) + 1)
        by (apply Z.nlt_ge; intros ?; apply Hv; auto 10).
      lia.
  - by rewrite Hlen.
  - rewrite Hlen. destruct inpBI; simpl in *; [exfalso; apply Hv; auto | lia].
  - simpl. by rewrite ?length_replicate.
Qed.

Lemma HashWithStateEx_invalid (cs : constants) (inpBI : list Z) (initState nOuts : Z) :
  invalid_call inpBI initState nOuts →
  is_Err (HashWithStateEx cs inpBI initState nOuts).
Proof.
  intros Hinv. unfold HashWithStateEx, is_Err.
  change (length NROUNDSP) with 16%nat.
  destruct (decide _) as [|Hlen]; [by eexists|].
  destruct (utils.CheckBigIntArrayInField inpBI) eqn:Hchk; simpl; [|by eexists].
  destruct (decide _) as [|Hn]; [by eexists|].
  destruct (utils.CheckBigIntInField initState) eqn:Hchk0; simpl; [|by eexists].
  exfalso.
  apply CheckBigIntArrayInField_true in Hchk. apply Z.ltb_lt in Hchk0.
  destruct Hinv as [?|[?|[Hex|[?|[?|?]]]]]; try lia.
  rewrite Exists_exists in Hex. destruct Hex as (x & Hin & Hx).
  rewrite Forall_forall in Hchk. specialize (Hchk x Hin). lia.
Qed.

Lemma HashWithStateEx_Err_invalid (cs : constants) (inpBI : list Z)
    (initState nOuts : Z) :
  is_Err (HashWithStateEx cs inpBI initState nOuts) →
  invalid_call inpBI initState nOuts.
Proof.
  unfold HashWithStateEx, is_Err, invalid_call.
  change (length NROUNDSP) with 16%nat.
  intros [e He].
  destruct (decide _) as [[?|?]|Hlen]; [auto | auto |].
  destruct (utils.CheckBigIntArrayInField inpBI) eqn:Hchk; simpl in He.
  2:{ apply CheckBigIntArrayInField_false in Hchk. auto. }
  destruct (decide _) as [[?|?]|Hn]; [auto 10 | right; right; right; right; right; lia |].
  destruct (utils.CheckBigIntInField initState) eqn:Hchk0; simpl in He.
  2:{ apply Z.ltb_ge in Hchk0. auto 10. }
  destruct (hashElements cs _ _) as [ss|]; simpl in He; [|done].
  destruct (mapM _ _); simpl in He; done.
Qed.

Lemma constants_ok_width (cs : constants) (t : nat) :
  constants_ok cs = true → (2 ≤ t ≤ 17)%nat → width_ok cs t = true.
Proof.
  unfold constants_ok. rewrite forallb_forall. intros H Ht.
  apply H. apply in_seq. lia.
Qed.

(** ** The sponges *)

Lemma for_range_r_inv {St : Type} (I : nat → St → Prop)
    (body : nat → St → option (result St)) (n lo : nat) (st : St) :
  I lo st →
  (∀ i s, (lo ≤ i < lo + n)%nat → I i s →
          ∃ s', body i s = Some (Ok s') ∧ I (S i) s') →
  ∃ st', for_range_r lo n body st = Some (Ok st') ∧ I (lo + n)%nat st'.
Proof.
  revert lo st. induction n as [|n IH]; intros lo st Hinit Hstep; simpl.
  - exists st. by rewrite Nat.add_0_r.
  - destruct (Hstep lo st) as (s' & Hb & Hs'); [lia | done |].
    rewrite Hb.
    destruct (IH (S lo) s') as (st' & Hr & HI); [done | |].
    + intros i s Hi. apply Hstep. lia.
    + exists st'. split; [done|].
      by replace (lo + S n)%nat with (S lo + n)%nat by lia.
Qed.

Lemma for_range_r_ext {St : Type} (f g : nat → St → option (result St))
    (n lo : nat) (st : St) :
  (∀ i s, (lo ≤ i < lo + n)%nat → f i s = g i s) →
  for_range_r lo n f st = for_range_r lo n g st.
Proof.
  revert lo st. induction n as [|n IH]; intros lo st H; simpl; [done|].
  rewrite H by lia. destruct (g lo st) as [[s'|e]|]; [|done|done].
  apply IH. intros. apply H. lia.
Qed.

Lemma for_range_r_snoc {St : Type} (body : nat → St → option (result St))
    (n lo : nat) (st : St) :
  for_range_r lo (n + 1) body st
  = match for_range_r lo n body st with
    | Some (Ok st') => body (lo + n)%nat st'
    | other => other
    end.
Proof.
  revert lo st. induction n as [|n IH]; intros lo st; simpl.
  - rewrite Nat.add_0_r. by destruct (body lo st) as [[s'|e]|].
  - destruct (body lo st) as [[s'|e]|]; [|done|done].
    rewrite IH. by replace (S lo + n)%nat with (lo + S n)%nat by lia.
Qed.

Lemma insert_take_replicate {A : Type} (x : list A) (i n : nat) (v z : A) :
  x !! i = Some v → (i < n)%nat →
  <[i := v]> (take i x ++ replicate (n - i) z)
  = take (S i) x ++ replicate (n - S i) z.
Proof.
  intros Hx Hi.
  assert (i < length x)%nat by (by eapply lookup_lt_Some).
  assert (length (take i x) = i) as Hti by (rewrite length_take; lia).
  rewrite insert_app_r_alt by lia. rewrite Hti, Nat.sub_diag.
  replace (n - i)%nat with (S (n - S i)) by lia. simpl.
  rewrite (take_S_r _ _ v) by done. by rewrite <- app_assoc.
Qed.

Lemma finish_dirty (cs : constants) (frame : list Z) (k : nat) (h : option Z) :
  finish cs (Build_sponge frame k true h) = as_digest (Hash cs frame).
Proof. done. Qed.

(** A stream shorter than the frame is hashed once, in a zero-padded frame. *)
Lemma SpongeHashX_single_frame (cs : constants) (x : list Z) (frameSize : Z) :
  2 ≤ frameSize ≤ 16 → 1 ≤ Z.of_nat (length x) ≤ frameSize - 1 →
  SpongeHashX cs x frameSize
  = as_digest (Hash cs (x ++ replicate (Z.to_nat frameSize - length x) 0)).
Proof.
  intros HF Hx. unfold SpongeHashX.
  rewrite decide_False by lia.
  set (F := Z.to_nat frameSize).
  assert (length x ≤ F - 1)%nat as HxF by lia.
  edestruct (for_range_r_inv
               (λ i st, st = Build_sponge (take i x ++ replicate (F - i) 0) i
                                          (bool_decide (0 < i)%nat) None))
    as (st' & Hr & HI); [| | rewrite Hr; cbn [mbind option_bind]; rewrite HI].
  - simpl. by rewrite Nat.sub_0_r.
  - intros i s [_ Hi] ->. simpl in Hi. cbn [sp_frame sp_k sp_hash].
    destruct (lookup_lt_is_Some_2 x i Hi) as [v Hv].
    rewrite Hv. cbn [mbind option_bind].
    rewrite set_at_Some
      by (rewrite length_app, length_take, length_replicate; lia).
    cbn [mbind option_bind].
    rewrite decide_False by lia.
    eexists. split; [done|].
    rewrite (insert_take_replicate x i F v 0) by (done || lia).
    rewrite Nat.add_1_r. f_equal.
  - simpl. rewrite bool_decide_true by lia.
    rewrite finish_dirty. by rewrite take_ge by lia.
Qed.

Lemma chunks_count (n : nat) :
  ((n + 30) / 31 = n / 31 + if decide (n mod 31 ≠ 0) then 1 else 0)%nat.
Proof.
  pose proof (Nat.div_mod_eq n 31) as Hdm.
  pose proof (Nat.mod_upper_bound n 31) as Hr.
  destruct (decide (n mod 31 ≠ 0)%nat) as [Hne|Heq].
  - symmetry. apply (Nat.div_unique _ 31 _ (n mod 31 - 1)); lia.
  - symmetry. apply (Nat.div_unique _ 31 _ 30); lia.
Qed.

Lemma length_chunk_seq (msg : list byte) :
  length (chunk_seq msg)
  = (length msg / 31 + if decide (length msg mod 31 ≠ 0) then 1 else 0)%nat.
Proof.
  unfold chunk_seq. rewrite length_fmap, length_seq. apply chunks_count.
Qed.

Lemma chunk_seq_whole (msg : list byte) (i : nat) :
  (i < length msg / 31)%nat →
  chunk_seq msg !! i = Some (SetBytes (chunk msg i)).
Proof.
  intros Hi.
  pose proof (Nat.div_mod_eq (length msg) 31) as Hdm.
  unfold chunk_seq. rewrite list_lookup_fmap.
  rewrite lookup_seq_lt by (rewrite chunks_count; lia).
  cbn [fmap option_fmap option_map]. rewrite Nat.add_0_l. do 2 f_equal.
  unfold pad_chunk, chunk, spongeChunkSize.
  rewrite length_take, length_drop.
  replace (31 - _)%nat with 0%nat by lia. apply app_nil_r.
Qed.

Lemma chunk_seq_last (msg : list byte) :
  (length msg mod 31 ≠ 0)%nat →
  chunk_seq msg !! (length msg / 31)%nat = Some (SetBytes (last_chunk msg)).
Proof.
  intros Hne.
  pose proof (Nat.div_mod_eq (length msg) 31) as Hdm.
  pose proof (Nat.mod_upper_bound (length msg) 31) as Hr.
  unfold chunk_seq. rewrite list_lookup_fmap.
  rewrite lookup_seq_lt.
  2:{ rewrite chunks_count. rewrite decide_True by done. lia. }
  cbn [fmap option_fmap option_map]. rewrite Nat.add_0_l. do 2 f_equal.
  unfold pad_chunk, last_chunk, copy, spongeChunkSize.
  rewrite (Nat.mul_comm 31).
  set (tail := drop (length msg / 31 * 31) msg).
  assert (length tail = length msg mod 31)%nat as Htl
    by (unfold tail; rewrite length_drop; lia).
  rewrite (take_ge tail) by lia.
  rewrite length_replicate, drop_replicate.
  rewrite take_ge; [done|]. rewrite length_app, length_replicate. lia.
Qed.

(** The byte sponge is the field-element sponge of the chunk sequence. *)
Lemma HashBytesX_chunks (cs : constants) (msg : list byte) (frameSize : Z) :
  HashBytesX cs msg frameSize = SpongeHashX cs (chunk_seq msg) frameSize.
Proof.
  unfold HashBytesX, SpongeHashX.
  destruct (decide (frameSize < 2 ∨ 16 < frameSize)) as [|HF]; [done|].
  set (F := Z.to_nat frameSize).
  assert (2 ≤ F)%nat as HF2 by lia.
  set (init := Build_sponge (replicate F 0) 0 false None).
  set (body_b := λ (i : nat) (st : sponge), _ : option (result sponge)).
  set (body_s := λ (i : nat) (st : sponge), _ : option (result sponge)).
  change spongeChunkSize with 31%nat.
  assert (∀ i st, (i < length msg / 31)%nat → body_s i st = body_b i st) as Hbody.
  { intros i st Hi. unfold body_s, body_b. by rewrite chunk_seq_whole. }
  rewrite length_chunk_seq.
  destruct (decide (length msg mod 31 ≠ 0)%nat) as [Hne|Heq].
  - rewrite for_range_r_snoc.
    rewrite (for_range_r_ext body_s body_b) by (intros; apply Hbody; lia).
    destruct (for_range_r 0 (length msg / 31) body_b init) as [[st|e]|];
      cbn [mbind option_bind]; [|done|done].
    unfold body_s. rewrite Nat.add_0_l, chunk_seq_last by done.
    cbn [mbind option_bind].
    destruct (set_at (sp_frame st) (sp_k st) (SetBytes (last_chunk msg)))
      as [frame|]; cbn [mbind option_bind]; [|done].
    rewrite finish_dirty.
    destruct (decide (sp_k st = F - 1)%nat).
    + destruct (Hash cs frame) as [[h|err]|]; cbn [mbind option_bind as_digest]; [|done|done].
      rewrite set_at_Some by (rewrite length_replicate; lia). done.
    + done.
  - rewrite Nat.add_0_r.
    rewrite (for_range_r_ext body_s body_b) by (intros; apply Hbody; lia).
    done.
Qed.

Lemma SpongeHashX_empty (cs : constants) (frameSize : Z) :
  2 ≤ frameSize ≤ 16 → SpongeHashX cs [] frameSize = Some (Ok None).
Proof. intros HF. unfold SpongeHashX. by rewrite decide_False by lia. Qed.

Lemma HashBytesX_empty (cs : constants) (frameSize : Z) :
  2 ≤ frameSize ≤ 16 → HashBytesX cs [] frameSize = Some (Ok None).
Proof. intros HF. unfold HashBytesX. by rewrite decide_False by lia. Qed.

(** A message shorter than one chunk never reaches the permutation in
    [HashBytesXLessAlloc]: the padded chunk is stored, the dirty flag stays
    unset, and the zero [currentHash] is encoded. *)
Lemma HashBytesXLessAlloc_short (cs : constants) (msg : list byte) (frameSize : Z) :
  2 ≤ frameSize ≤ 16 → (length msg < 31)%nat →
  HashBytesXLessAlloc cs msg frameSize = Some (Ok (replicate 32 x00)).
Proof.
  intros HF Hlen. unfold HashBytesXLessAlloc.
  rewrite decide_False by lia.
  change spongeChunkSize with 31%nat.
  rewrite Nat.div_small by done. cbn [for_range_r mbind option_bind].
  cbn [la_state la_k la_dirty la_currentHash la_scratch].
  destruct (decide (length msg mod 31 ≠ 0)%nat).
  - rewrite set_at_Some by (rewrite length_replicate; lia). done.
  - done.
Qed.

Lemma HashBytesX_short (cs : constants) (msg : list byte) (frameSize : Z) :
  2 ≤ frameSize ≤ 16 → (0 < length msg < 31)%nat →
  HashBytesX cs msg frameSize
  = as_digest (Hash cs (SetBytes (last_chunk msg)
                          :: replicate (Z.to_nat frameSize - 1) 0)).
Proof.
  intros HF Hlen. unfold HashBytesX.
  rewrite decide_False by lia.
  change spongeChunkSize with 31%nat.
  rewrite Nat.div_small by lia. cbn [for_range_r mbind option_bind].
  cbn [sp_frame sp_k sp_hash].
  rewrite Nat.mod_small by lia. rewrite decide_True by lia.
  rewrite set_at_Some by (rewrite length_replicate; lia).
  cbn [mbind option_bind]. rewrite finish_dirty.
  replace (Z.to_nat frameSize) with (S (Z.to_nat frameSize - 1)) at 1 by lia.
  done.
Qed.

(** ** The heap: frame rules *)

Section FrameRules.

Context {A B : Type}.

Lemma preserves_ret (h0 h : gmap positive Z) (a : A) (Φ : A → gmap positive Z → Prop) :
  Φ a h → Mem.preserves h0 (mret a) h Φ.
Proof. intros HΦ Hsub a' h' [= <- <-]. done. Qed.

Lemma preserves_bind (h0 h : gmap positive Z) (m : Mem.M A) (f : A → Mem.M B)
    (Φ : B → gmap positive Z → Prop) :
  Mem.preserves h0 m h (λ a h1, Mem.preserves h0 (f a) h1 Φ) →
  Mem.preserves h0 (m ≫= f) h Φ.
Proof.
  intros Hm Hsub b h' Hrun. unfold mbind, Mem.M_bind in Hrun.
  destruct (m h) as [[a h1]|] eqn:Hmh; [|done].
  destruct (Hm Hsub a h1 Hmh) as [Hsub1 Hf]. by apply (Hf Hsub1).
Qed.

Lemma preserves_mono (h0 h : gmap positive Z) (m : Mem.M A) (Φ Ψ : A → gmap positive Z → Prop) :
  Mem.preserves h0 m h Φ → (∀ a h', h0 ⊆ h' → Φ a h' → Ψ a h') →
  Mem.preserves h0 m h Ψ.
Proof.
  intros Hm HΦΨ Hsub a h' Hrun. destruct (Hm Hsub a h' Hrun). split; auto.
Qed.

Lemma preserves_lift (h0 h : gmap positive Z) (o : option A) (Φ : A → gmap positive Z → Prop) :
  (∀ a, o = Some a → Φ a h) → Mem.preserves h0 (Mem.lift o) h Φ.
Proof.
  intros HΦ Hsub a h' Hrun. unfold Mem.lift in Hrun.
  destruct o as [a0|]; [|done]. injection Hrun as <- <-. auto.
Qed.

End FrameRules.

Lemma preserves_load (h0 h : gmap positive Z) (p : Mem.ptr)
    (Φ : Z → gmap positive Z → Prop) :
  (∀ v, Φ v h) → Mem.preserves h0 (Mem.load p) h Φ.
Proof.
  intros HΦ Hsub v h' Hrun. unfold Mem.load in Hrun.
  destruct p as [l|]; [|done]. destruct (h !! l); [|done].
  injection Hrun as <- <-. auto.
Qed.

Lemma preserves_new_big (h0 h : gmap positive Z) (v : Z)
    (Φ : Mem.ptr → gmap positive Z → Prop) :
  (∀ l, h0 !! l = None → h !! l = None → Φ (Some l) (<[l := v]> h)) →
  Mem.preserves h0 (Mem.new_big v) h Φ.
Proof.
  intros HΦ Hsub p h' Hrun. unfold Mem.new_big in Hrun.
  injection Hrun as <- <-.
  assert (h !! fresh (dom h) = None) as Hfresh.
  { apply not_elem_of_dom. apply is_fresh. }
  assert (h0 !! fresh (dom h) = None) as Hfresh0.
  { eapply lookup_weaken_None; done. }
  split; [|auto].
  etrans; [done|]. by apply insert_subseteq.
Qed.

Lemma preserves_store (h0 h : gmap positive Z) (l : positive) (v : Z)
    (Φ : unit → gmap positive Z → Prop) :
  h0 !! l = None → Φ tt (<[l := v]> h) →
  Mem.preserves h0 (Mem.store (Some l) v) h Φ.
Proof.
  intros Hl HΦ Hsub u h' Hrun. unfold Mem.store in Hrun.
  destruct (h !! l); [|done]. injection Hrun as <- <-.
  split; [|done].
  apply map_subseteq_spec. intros l' v' Hl'.
  rewrite lookup_insert_ne by congruence.
  by eapply lookup_weaken.
Qed.

(** A [mapM] whose steps each return a pointer fresh for [h0]. *)
Lemma preserves_mapM_fresh {X : Type} (h0 : gmap positive Z)
    (f : X → Mem.M Mem.ptr) (xs : list X) (h : gmap positive Z) :
  (∀ x h, Mem.preserves h0 (f x) h (λ p _, Mem.fresh_in h0 p)) →
  Mem.preserves h0 (mapM f xs) h (λ ps _, Forall (Mem.fresh_in h0) ps).
Proof.
  intros Hf. revert h. induction xs as [|x xs IH]; intros h; simpl.
  - by apply preserves_ret.
  - apply preserves_bind. eapply preserves_mono; [apply Hf|].
    intros p h1 _ Hp. simpl.
    apply preserves_bind. eapply preserves_mono; [apply IH|].
    intros ps h2 _ Hps. simpl.
    apply preserves_ret. by constructor.
Qed.

Lemma preserves_for_range_r {St : Type} (h0 : gmap positive Z)
    (I : nat → St → Prop) (body : nat → St → Mem.M (result St))
    (n lo : nat) (st : St) (h : gmap positive Z) :
  I lo st →
  (∀ i s h, (lo ≤ i < lo + n)%nat → I i s →
     Mem.preserves h0 (body i s) h
       (λ r _, match r with Ok s' => I (S i) s' | Err _ => True end)) →
  Mem.preserves h0 (Mem.for_range_r lo n body st) h
    (λ r _, match r with Ok s' => I (lo + n)%nat s' | Err _ => True end).
Proof.
  revert lo st h. induction n as [|n IH]; intros lo st h Hinit Hstep; simpl.
  - apply preserves_ret. by rewrite Nat.add_0_r.
  - apply preserves_bind. eapply preserves_mono; [apply Hstep; [lia|done]|].
    intros [s'|e] h1 _ Hs'; simpl.
    + replace (lo + S n)%nat with (S lo + n)%nat by lia.
      apply IH; [done|]. intros i s h2 Hi. apply Hstep. lia.
    + by apply preserves_ret.
Qed.

Lemma preserves_mapM_any {X Y : Type} (h0 : gmap positive Z)
    (f : X → Mem.M Y) (xs : list X) (h : gmap positive Z) :
  (∀ x h, Mem.preserves h0 (f x) h (λ _ _, True)) →
  Mem.preserves h0 (mapM f xs) h (λ _ _, True).
Proof.
  intros Hf. revert h. induction xs as [|x xs IH]; intros h; simpl.
  - by apply preserves_ret.
  - apply preserves_bind. eapply preserves_mono; [apply Hf|].
    intros y h1 _ _. simpl.
    apply preserves_bind. eapply preserves_mono; [apply IH|].
    intros ys h2 _ _. simpl. by apply preserves_ret.
Qed.

Lemma preserves_CheckBigIntArrayInField (h0 : gmap positive Z)
    (arr : list Mem.ptr) (h : gmap positive Z) :
  Mem.preserves h0 (Mem.CheckBigIntArrayInField arr) h (λ _ _, True).
Proof.
  induction arr as [|a arr IH]; simpl.
  - by apply preserves_ret.
  - apply preserves_bind, preserves_load. intros v.
    destruct (utils.CheckBigIntInField v); [apply IH | by apply preserves_ret].
Qed.

Lemma preserves_BigIntArrayToElementArray (h0 : gmap positive Z)
    (bi : list Mem.ptr) (h : gmap positive Z) :
  Mem.preserves h0 (Mem.BigIntArrayToElementArray bi) h (λ _ _, True).
Proof.
  unfold Mem.BigIntArrayToElementArray.
  apply preserves_bind.
  eapply preserves_mono.
  - apply preserves_mapM_any. intros. by apply preserves_load.
  - intros vs h1 _ _. by apply preserves_ret.
Qed.

Lemma fresh_in_new (h0 : gmap positive Z) (l : positive) :
  h0 !! l = None → Mem.fresh_in h0 (Some l).
Proof. intros. by exists l. Qed.

Lemma preserves_HashWithStateEx (cs : constants) (h0 : gmap positive Z)
    (inpBI : list Mem.ptr) (initState : Mem.ptr) (nOuts : Z)
    (h : gmap positive Z) :
  Mem.preserves h0 (Mem.HashWithStateEx cs inpBI initState nOuts) h
    (λ r _, match r with
            | Ok ps => Forall (Mem.fresh_in h0) ps
            | Err _ => True
            end).
Proof.
  unfold Mem.HashWithStateEx.
  destruct (decide _); [by apply preserves_ret|].
  apply preserves_bind.
  eapply preserves_mono; [apply preserves_CheckBigIntArrayInField|].
  intros ok h1 _ _. simpl.
  destruct ok; simpl; [|by apply preserves_ret].
  destruct (decide _); [by apply preserves_ret|].
  apply preserves_bind.
  eapply preserves_mono; [apply preserves_BigIntArrayToElementArray|].
  intros inp h2 _ _. simpl.
  apply preserves_bind, preserves_load. intros iv.
  destruct (utils.CheckBigIntInField iv); simpl; [|by apply preserves_ret].
  apply preserves_bind, preserves_lift. intros ss _.
  apply preserves_bind.
  eapply preserves_mono.
  - apply preserves_mapM_fresh. intros i h3.
    apply preserves_bind, preserves_lift. intros rE _.
    apply preserves_bind, preserves_new_big. intros l Hl0 Hl.
    apply preserves_bind, preserves_store; [done|].
    apply preserves_ret. by apply fresh_in_new.
  - intros ps h3 _ Hps. simpl. by apply preserves_ret.
Qed.

Lemma preserves_HashWithState (cs : constants) (h0 : gmap positive Z)
    (inpBI : list Mem.ptr) (initState : Mem.ptr) (h : gmap positive Z) :
  Mem.preserves h0 (Mem.HashWithState cs inpBI initState) h
    (λ r _, match r with
            | Ok p => Mem.fresh_in h0 p
            | Err _ => True
            end).
Proof.
  unfold Mem.HashWithState.
  apply preserves_bind.
  eapply preserves_mono; [apply preserves_HashWithStateEx|].
  intros [ps|e] h1 _ Hps; simpl; [|by apply preserves_ret].
  apply preserves_bind, preserves_lift. intros r0 Hr0.
  apply preserves_ret.
  rewrite Forall_lookup in Hps. by eapply Hps.
Qed.

Lemma preserves_Hash (cs : constants) (h0 : gmap positive Z)
    (inpBI : list Mem.ptr) (h : gmap positive Z) :
  Mem.preserves h0 (Mem.Hash cs inpBI) h
    (λ r _, match r with
            | Ok p => Mem.fresh_in h0 p
            | Err _ => True
            end).
Proof.
  unfold Mem.Hash.
  apply preserves_bind, preserves_new_big. intros l _ _.
  apply preserves_HashWithState.
Qed.

Lemma preserves_SpongeHashX (cs : constants) (h0 : gmap positive Z)
    (inputs : list Mem.ptr) (frameSize : Z) (h : gmap positive Z) :
  Mem.preserves h0 (Mem.SpongeHashX cs inputs frameSize) h
    (λ r _, match r with
            | Ok p => (p = None ∧ inputs = []) ∨ Mem.fresh_in h0 p
            | Err _ => True
            end).
Proof.
  unfold Mem.SpongeHashX.
  destruct (decide _) as [HF|HF]; [by apply preserves_ret|].
  apply preserves_bind.
  eapply preserves_mono;
    [apply preserves_mapM_any; intros; by apply preserves_new_big|].
  intros frame h1 _ _. simpl.
  apply preserves_bind.
  eapply preserves_mono.
  - apply (preserves_for_range_r h0
             (λ i st, (Mem.sp_hash st = None
                       ∧ (Mem.sp_dirty st = true ∨ i = 0%nat))
                      ∨ Mem.fresh_in h0 (Mem.sp_hash st))).
    + left. auto.
    + intros i st h2 Hi Hinv.
      apply preserves_bind, preserves_lift. intros v _.
      apply preserves_bind, preserves_lift. intros frame' _.
      destruct (decide _) as [Hk|Hk].
      * apply preserves_bind.
        eapply preserves_mono; [apply preserves_Hash|].
        intros [p|e] h3 _ Hp; simpl; [|by apply preserves_ret].
        apply preserves_bind.
        eapply preserves_mono;
          [apply preserves_mapM_any; intros; by apply preserves_new_big|].
        intros rest h4 _ _. simpl. apply preserves_ret. by right.
      * apply preserves_ret. simpl.
        destruct Hinv as [[Hnone _]|Hfresh]; [left | right]; auto.
  - intros [st|e] h2 _ Hinv; simpl; [|by apply preserves_ret].
    destruct (Mem.sp_dirty st) eqn:Hd.
    + eapply preserves_mono; [apply preserves_Hash|].
      intros [p|e] h3 _ Hp; simpl; auto.
    + apply preserves_ret.
      destruct Hinv as [[Hnone [Hdirty|Hlen]]|Hfresh]; [congruence | | by right].
      left. split; [done|]. simpl in Hlen. by apply length_zero_iff_nil.
Qed.

(** ** The heap: agreement with the value-level functions *)

Lemma points_to_mono (h h' : gmap positive Z) (ps : list Mem.ptr) (vs : list Z) :
  h ⊆ h' → Mem.points_to h ps vs → Mem.points_to h' ps vs.
Proof.
  intros Hsub Hpt. unfold Mem.points_to in *.
  eapply Forall2_impl; [exact Hpt|].
  intros p v (l & -> & Hl). exists l. split; [done|]. by eapply lookup_weaken.
Qed.

Lemma M_bind_Some {A B : Type} (m : Mem.M A) (f : A → Mem.M B)
    (h h' : gmap positive Z) (a : A) :
  m h = Some (a, h') → (m ≫= f) h = f a h'.
Proof. intros H. unfold mbind, Mem.M_bind. by rewrite H. Qed.

Lemma M_bind_None {A B : Type} (m : Mem.M A) (f : A → Mem.M B)
    (h : gmap positive Z) :
  m h = None → (m ≫= f) h = None.
Proof. intros H. unfold mbind, Mem.M_bind. by rewrite H. Qed.

Lemma CheckBigIntArrayInField_points_to (h : gmap positive Z)
    (ps : list Mem.ptr) (vs : list Z) :
  Mem.points_to h ps vs →
  Mem.CheckBigIntArrayInField ps h = Some (utils.CheckBigIntArrayInField vs, h).
Proof.
  induction 1 as [|p v ps vs (l & -> & Hl) _ IH]; simpl; [done|].
  rewrite (M_bind_Some _ _ h h v) by (unfold Mem.load; by rewrite Hl).
  destruct (utils.CheckBigIntInField v); simpl; [apply IH | done].
Qed.

Lemma mapM_load_points_to (h : gmap positive Z) (ps : list Mem.ptr) (vs : list Z) :
  Mem.points_to h ps vs → mapM Mem.load ps h = Some (vs, h).
Proof.
  induction 1 as [|p v ps vs (l & -> & Hl) _ IH]; simpl; [done|].
  rewrite (M_bind_Some _ _ h h v) by (unfold Mem.load; by rewrite Hl).
  by rewrite (M_bind_Some _ _ h h vs).
Qed.

(** The export loop: one fresh [big.Int] per returned slot. *)
Lemma export_refines (st : list ff.Element) (idx : list nat) (h : gmap positive Z) :
  match mapM (λ i, ff.ToBigIntRegular <$> st !! i) idx with
  | None =>
      mapM (λ i, rE ← Mem.lift (st !! i);
                 ri ← Mem.new_big 0;
                 _ ← Mem.store ri (ff.ToBigIntRegular rE);
                 mret ri) idx h = None
  | Some vs =>
      ∃ ps h',
        mapM (λ i, rE ← Mem.lift (st !! i);
                   ri ← Mem.new_big 0;
                   _ ← Mem.store ri (ff.ToBigIntRegular rE);
                   mret ri) idx h = Some (ps, h')
        ∧ h ⊆ h' ∧ Mem.points_to h' ps vs
  end.
Proof.
  revert h. induction idx as [|i idx IH]; intros h; simpl.
  - exists [], h. split; [done|]. split; [done | constructor].
  - destruct (st !! i) as [x|] eqn:Hx; simpl; [|done].
    set (l := fresh (dom h)).
    assert (h !! l = None) as Hl by (apply not_elem_of_dom, is_fresh).
    set (h1 := <[l := ff.ToBigIntRegular x]> (<[l := 0]> h)).
    assert (h ⊆ h1) as Hsub.
    { unfold h1. rewrite insert_insert_eq. by apply insert_subseteq. }
    assert (h1 !! l = Some (ff.ToBigIntRegular x)) as Hl1
      by (unfold h1; by rewrite lookup_insert_eq).
    rewrite (M_bind_Some _ _ h h1 (Some l)).
    2:{ rewrite (M_bind_Some _ _ h h x) by done.
        rewrite (M_bind_Some _ _ h (<[l := 0]> h) (Some l)) by done.
        rewrite (M_bind_Some _ _ (<[l := 0]> h) h1 tt); [done|].
        unfold Mem.store. by rewrite lookup_insert_eq. }
    specialize (IH h1).
    destruct (mapM _ idx) as [vs|]; simpl.
    + destruct IH as (ps & h' & Hrun & Hsub' & Hpt).
      exists (Some l :: ps), h'.
      rewrite (M_bind_Some _ _ h1 h' ps) by done.
      split; [done|]. split; [by etrans|].
      constructor; [|done]. exists l. split; [done|]. by eapply lookup_weaken.
    + by rewrite M_bind_None.
Qed.

Lemma HashWithStateEx_refines (cs : constants) (h : gmap positive Z)
    (ps : list Mem.ptr) (vs : list Z) (l0 : positive) (iv nOuts : Z) :
  Mem.points_to h ps vs → h !! l0 = Some iv →
  Mem.refines Mem.points_to h
    (Mem.HashWithStateEx cs ps (Some l0) nOuts)
    (HashWithStateEx cs vs iv nOuts).
Proof.
  intros Hpt Hl0.
  assert (length ps = length vs) as Hlen by (by eapply Forall2_length).
  unfold Mem.refines, Mem.HashWithStateEx, HashWithStateEx. rewrite Hlen.
  destruct (decide _) as [Hd|Hd]; [by exists h|].
  rewrite (M_bind_Some _ _ h h (utils.CheckBigIntArrayInField vs))
    by (by apply CheckBigIntArrayInField_points_to).
  destruct (utils.CheckBigIntArrayInField vs); simpl; [|by exists h].
  destruct (decide _) as [Hn|Hn]; [by exists h|].
  rewrite (M_bind_Some _ _ h h (utils.BigIntArrayToElementArray vs)).
  2:{ unfold Mem.BigIntArrayToElementArray.
      by rewrite (M_bind_Some _ _ h h vs) by (by apply mapM_load_points_to). }
  rewrite (M_bind_Some _ _ h h iv) by (unfold Mem.load; by rewrite Hl0).
  destruct (utils.CheckBigIntInField iv); simpl; [|by exists h].
  destruct (hashElements cs _ _) as [ss|] eqn:Hss; simpl.
  2:{ by rewrite M_bind_None. }
  rewrite (M_bind_Some _ _ h h ss) by done.
  pose proof (export_refines ss.1 (seq 0 (Z.to_nat nOuts)) h) as Hex.
  destruct (mapM _ (seq 0 (Z.to_nat nOuts))) as [rs|]; simpl.
  - destruct Hex as (ps' & h' & Hrun & Hsub & Hpt').
    exists ps', h'. by rewrite (M_bind_Some _ _ h h' ps').
  - by rewrite M_bind_None.
Qed.

Lemma HashWithState_refines (cs : constants) (h : gmap positive Z)
    (ps : list Mem.ptr) (vs : list Z) (l0 : positive) (iv : Z) :
  Mem.points_to h ps vs → h !! l0 = Some iv →
  Mem.refines (λ h' p v, Mem.digest_at h' p (Some v)) h
    (Mem.HashWithState cs ps (Some l0)) (HashWithState cs vs iv).
Proof.
  intros Hpt Hl0.
  pose proof (HashWithStateEx_refines cs h ps vs l0 iv 1 Hpt Hl0) as Hex.
  unfold Mem.HashWithState, HashWithState, Mem.refines in *.
  destruct (HashWithStateEx cs vs iv 1) as [[rs|e]|]; simpl.
  - destruct Hex as (ps' & h' & Hrun & Hsub & Hpt').
    rewrite (M_bind_Some _ _ h h' (Ok ps')) by done.
    destruct Hpt' as [|p v ps'' rs' Hp _]; simpl; [done|].
    exists p, h'. done.
  - destruct Hex as (h' & Hrun & Hsub). exists h'.
    by rewrite (M_bind_Some _ _ h h' (Err e)).
  - by rewrite M_bind_None.
Qed.

Lemma Hash_refines (cs : constants) (h : gmap positive Z)
    (ps : list Mem.ptr) (vs : list Z) :
  Mem.points_to h ps vs →
  Mem.refines (λ h' p v, Mem.digest_at h' p (Some v)) h
    (Mem.Hash cs ps) (Hash cs vs).
Proof.
  intros Hpt. unfold Mem.Hash, Hash.
  set (l := fresh (dom h)).
  assert (h !! l = None) as Hl by (apply not_elem_of_dom, is_fresh).
  assert (h ⊆ <[l := 0]> h) as Hsub by (by apply insert_subseteq).
  pose proof (HashWithState_refines cs (<[l := 0]> h) ps vs l 0
                (points_to_mono _ _ _ _ Hsub Hpt) (lookup_insert_eq _ _ _)) as Hr.
  unfold Mem.refines in *.
  rewrite (M_bind_Some _ _ h (<[l := 0]> h) (Some l)) by done.
  destruct (HashWithState cs vs 0) as [[v|e]|].
  - destruct Hr as (p & h' & Hrun & Hsub' & Hd). exists p, h'.
    split; [done|]. split; [by etrans | done].
  - destruct Hr as (h' & Hrun & Hsub'). exists h'. split; [done | by etrans].
  - done.
Qed.

Lemma for_range_r_refines {Sp Sv : Type} (R : gmap positive Z → Sp → Sv → Prop)
    (body_p : nat → Sp → Mem.M (result Sp))
    (body_v : nat → Sv → option (result Sv))
    (n lo : nat) (sp : Sp) (sv : Sv) (h : gmap positive Z) :
  R h sp sv →
  (∀ i h sp sv, (lo ≤ i < lo + n)%nat → R h sp sv →
                Mem.refines R h (body_p i sp) (body_v i sv)) →
  Mem.refines R h (Mem.for_range_r lo n body_p sp) (for_range_r lo n body_v sv).
Proof.
  revert lo sp sv h. induction n as [|n IH]; intros lo sp sv h HR Hstep; simpl.
  - exists sp, h. done.
  - specialize (Hstep lo h sp sv) as Hs. unfold Mem.refines in Hs |- *.
    destruct (body_v lo sv) as [[sv'|e]|].
    + destruct Hs as (sp' & h' & Hrun & Hsub & HR'); [lia | done |].
      rewrite (M_bind_Some _ _ h h' (Ok sp')) by done.
      specialize (IH (S lo) sp' sv' h' HR').
      unfold Mem.refines in *.
      destruct (for_range_r (S lo) n body_v sv') as [[sv''|e]|].
      * destruct IH as (sp'' & h'' & Hrun' & Hsub' & HR'').
        { intros. apply Hstep; [lia|done]. }
        exists sp'', h''. split; [done|]. split; [by etrans | done].
      * destruct IH as (h'' & Hrun' & Hsub').
        { intros. apply Hstep; [lia|done]. }
        exists h''. split; [done | by etrans].
      * apply IH. intros. apply Hstep; [lia|done].
    + destruct Hs as (h' & Hrun & Hsub); [lia | done |].
      exists h'. by rewrite (M_bind_Some _ _ h h' (Err e)).
    + rewrite M_bind_None; [done|]. apply Hs; [lia | done].
Qed.

Lemma new_bigs_points_to {X : Type} (xs : list X) (h : gmap positive Z) :
  ∃ ps h', mapM (λ _, Mem.new_big 0) xs h = Some (ps, h')
           ∧ h ⊆ h' ∧ Mem.points_to h' ps (replicate (length xs) 0).
Proof.
  revert h. induction xs as [|x xs IH]; intros h; simpl.
  - exists [], h. split; [done|]. split; [done | constructor].
  - set (l := fresh (dom h)).
    assert (h !! l = None) as Hl by (apply not_elem_of_dom, is_fresh).
    destruct (IH (<[l := 0]> h)) as (ps & h' & Hrun & Hsub & Hpt).
    exists (Some l :: ps), h'.
    rewrite (M_bind_Some _ _ h (<[l := 0]> h) (Some l)) by done.
    rewrite (M_bind_Some _ _ (<[l := 0]> h) h' ps) by done.
    split; [done|].
    assert (h ⊆ h') by (etrans; [by apply insert_subseteq | done]).
    split; [done|]. constructor; [|done].
    exists l. split; [done|]. eapply lookup_weaken; [|exact Hsub].
    by rewrite lookup_insert_eq.
Qed.

Lemma digest_at_mono (h h' : gmap positive Z) (p : Mem.ptr) (d : option Z) :
  h ⊆ h' → Mem.digest_at h p d → Mem.digest_at h' p d.
Proof.
  intros Hsub. destruct d as [v|]; simpl; [|done].
  intros (l & -> & Hl). exists l. split; [done|]. by eapply lookup_weaken.
Qed.

Lemma set_at_points_to (h : gmap positive Z) (ps : list Mem.ptr) (vs : list Z)
    (k : nat) (p : Mem.ptr) (v : Z) :
  Mem.points_to h ps vs → Mem.digest_at h p (Some v) →
  match set_at vs k v with
  | None => set_at ps k p = None
  | Some vs' => ∃ ps', set_at ps k p = Some ps' ∧ Mem.points_to h ps' vs'
  end.
Proof.
  intros Hpt Hp.
  assert (length ps = length vs) as Hlen by (by eapply Forall2_length).
  unfold set_at. rewrite Hlen.
  destruct (decide (k < length vs)%nat); [|done].
  eexists. split; [done|]. by apply Forall2_insert.
Qed.

Lemma SpongeHashX_refines (cs : constants) (h : gmap positive Z)
    (inputs : list Mem.ptr) (vs : list Z) (frameSize : Z) :
  Mem.points_to h inputs vs →
  Mem.refines Mem.digest_at h
    (Mem.SpongeHashX cs inputs frameSize) (SpongeHashX cs vs frameSize).
Proof.
  intros Hpt.
  assert (length inputs = length vs) as Hlen by (by eapply Forall2_length).
  unfold Mem.SpongeHashX, SpongeHashX.
  destruct (decide (frameSize < 2 ∨ 16 < frameSize)) as [HF|HF]; [by exists h|].
  set (F := Z.to_nat frameSize).
  assert (2 ≤ F)%nat as HF2 by lia.
  destruct (new_bigs_points_to (seq 0 F) h) as (frame & h1 & Hrun1 & Hsub1 & Hpt1).
  rewrite length_seq in Hpt1.
  set (body_p := λ (i : nat) (st : Mem.sponge), _ : Mem.M (result Mem.sponge)).
  set (body_v := λ (i : nat) (st : sponge), _ : option (result sponge)).
  pose (R := λ hc sp sv, h ⊆ hc ∧ sponge_rel hc sp sv).
  assert (Mem.refines R h1
            (Mem.for_range_r 0 (length inputs) body_p
               (Mem.Build_sponge frame 0 false None))
            (for_range_r 0 (length vs) body_v
               (Build_sponge (replicate F 0) 0 false None))) as Hloop.
  { rewrite <- Hlen. apply for_range_r_refines.
    - split; [done|]. repeat split; done.
    - intros i hc sp sv [_ Hi] (Hsubc & Hfr & Hk & Hd & Hh). simpl in Hi.
      assert (Mem.points_to hc inputs vs) as Hptc by (by eapply points_to_mono).
      destruct (lookup_lt_is_Some_2 inputs i Hi) as [p Hp].
      destruct (Forall2_lookup_l _ _ _ _ _ Hptc Hp) as (v & Hv & Hpv).
      unfold Mem.refines, body_p, body_v. rewrite Hp, Hv. cbn [mbind option_bind].
      rewrite (M_bind_Some _ _ hc hc p) by done.
      pose proof (set_at_points_to hc _ _ (sp_k sv) p v Hfr Hpv) as Hset.
      rewrite Hk.
      destruct (set_at (sp_frame sv) (sp_k sv) v) as [fv|]; cbn [mbind option_bind].
      2:{ rewrite Hset. by rewrite M_bind_None. }
      destruct Hset as (fp & -> & Hfp).
      rewrite (M_bind_Some _ _ hc hc fp) by done.
      destruct (decide (sp_k sv = F - 1)%nat) as [HkF|HkF].
      + pose proof (Hash_refines cs hc fp fv Hfp) as Hh1. unfold Mem.refines in Hh1.
        destruct (Hash cs fv) as [[hv|e]|]; cbn [mbind option_bind].
        * destruct Hh1 as (hp & h2 & Hrun2 & Hsub2 & Hhp).
          rewrite (M_bind_Some _ _ hc h2 (Ok hp)) by done.
          rewrite set_at_Some by (rewrite length_replicate; lia).
          cbn [mbind option_bind].
          destruct (new_bigs_points_to (seq 1 (F - 1)) h2)
            as (rest & h3 & Hrun3 & Hsub3 & Hpt3).
          rewrite length_seq in Hpt3.
          rewrite (M_bind_Some _ _ h2 h3 rest) by done.
          eexists _, h3. split; [done|].
          assert (hc ⊆ h3) by (by etrans).
          split; [done|]. split; [by etrans|].
          assert (Mem.digest_at h3 hp (Some hv))
            by (eapply digest_at_mono; [exact Hsub3 | exact Hhp]).
          repeat split; try done.
          replace F with (S (F - 1)) by lia. simpl.
          constructor; done.
        * destruct Hh1 as (h2 & Hrun2 & Hsub2).
          exists h2. by rewrite (M_bind_Some _ _ hc h2 (Err e)).
        * by rewrite M_bind_None.
      + eexists _, hc. split; [done|]. split; [done|].
        split; [done|]. repeat split; simpl; try done. }
  unfold Mem.refines in *.
  rewrite (M_bind_Some _ _ h h1 frame) by done.
  destruct (for_range_r 0 (length vs) body_v _) as [[sv|e]|]; cbn [mbind option_bind].
  - destruct Hloop as (sp & h2 & Hrun2 & Hsub2 & Hsubh & Hfr & Hk & Hd & Hh).
    rewrite (M_bind_Some _ _ h1 h2 (Ok sp)) by done.
    unfold finish. rewrite Hd.
    destruct (sp_dirty sv).
    + pose proof (Hash_refines cs h2 _ _ Hfr) as Hh1. unfold Mem.refines in Hh1.
      destruct (Hash cs (sp_frame sv)) as [[hv|e]|]; cbn [mbind option_bind].
      * destruct Hh1 as (hp & h3 & Hrun3 & Hsub3 & Hhp).
        exists hp, h3. split; [done|]. split; [by etrans | done].
      * destruct Hh1 as (h3 & Hrun3 & Hsub3).
        exists h3. split; [done | by etrans].
      * done.
    + exists (Mem.sp_hash sp), h2. done.
  - destruct Hloop as (h2 & Hrun2 & Hsub2).
    exists h2. rewrite (M_bind_Some _ _ h1 h2 (Err e)) by done.
    split; [done | by etrans].
  - by rewrite M_bind_None.
Qed.

Lemma fresh_in_not_input (h : gmap positive Z) (inputs : list Mem.ptr)
    (vals : list Z) (p : Mem.ptr) :
  Mem.fresh_in h p → Mem.points_to h inputs vals → p ∉ inputs.
Proof.
  intros (l & -> & Hl) Hpt Hin.
  apply list_elem_of_lookup in Hin as [i Hi].
  destruct (Forall2_lookup_l _ _ _ _ _ Hpt Hi) as (v & _ & l' & [= <-] & Hl').
  congruence.
Qed.

(** ** The calls return *)

Lemma Forall_not_Exists_ge (x : list Z) :
  Forall (λ v, v < ff.Modulus) x → ¬ Exists (λ v, ff.Modulus ≤ v) x.
Proof.
  intros Hall Hex. rewrite Exists_exists in Hex. destruct Hex as (v & Hin & Hv).
  rewrite Forall_forall in Hall. specialize (Hall v Hin). lia.
Qed.

Lemma Hash_returns (cs : constants) (x : list Z) :
  constants_ok cs = true → (1 ≤ length x ≤ 16)%nat →
  Forall (λ v, v < ff.Modulus) x →
  ∃ d, Hash cs x = Some (Ok d) ∧ 0 ≤ d < ff.Modulus.
Proof.
  intros Hcs Hlen Hx. unfold Hash, HashWithState.
  rewrite HashWithStateEx_valid.
  - cbn [mbind option_bind].
    set (st := Spec.permute cs _).
    assert (length st = (length x + 1)%nat) as Hst.
    { unfold st. rewrite length_spec_permute. simpl.
      unfold utils.BigIntArrayToElementArray. rewrite length_fmap. lia. }
    destruct st as [|d st']; [simpl in Hst; lia|].
    change (Z.to_nat 1) with 1%nat. simpl.
    eexists. split; [done|].
    unfold ff.ToBigIntRegular. apply Z.mod_pos_bound, Modulus_pos.
  - apply constants_ok_width; [done | lia].
  - unfold invalid_call. pose proof (Forall_not_Exists_ge x Hx).
    pose proof Modulus_pos. intros [?|[?|[?|[?|[?|?]]]]]; try lia. done.
Qed.

Lemma SpongeHashX_returns (cs : constants) (x : list Z) (frameSize : Z) :
  constants_ok cs = true → 2 ≤ frameSize ≤ 16 → x ≠ [] →
  Forall (λ v, v < ff.Modulus) x →
  ∃ d, SpongeHashX cs x frameSize = Some (Ok (Some d)) ∧ 0 ≤ d < ff.Modulus.
Proof.
  intros Hcs HF Hne Hx. unfold SpongeHashX.
  rewrite decide_False by lia.
  set (F := Z.to_nat frameSize).
  assert (2 ≤ F ≤ 16)%nat as HF' by lia.
  pose proof Modulus_pos as Hq.
  edestruct (for_range_r_inv
               (λ i st, length (sp_frame st) = F ∧ (sp_k st < F)%nat
                        ∧ Forall (λ v, v < ff.Modulus) (sp_frame st)
                        ∧ (sp_dirty st = false →
                           i = 0%nat
                           ∨ ∃ d, sp_hash st = Some d ∧ 0 ≤ d < ff.Modulus)))
    as (st' & Hr & Hlen & Hk & Hfr & Hd);
    [| | rewrite Hr; cbn [mbind option_bind]].
  - simpl. rewrite length_replicate. repeat split; [lia | | auto].
    apply Forall_replicate. lia.
  - intros i st [_ Hi] (Hlen & Hk & Hfr & Hd). simpl in Hi.
    destruct (lookup_lt_is_Some_2 x i Hi) as [v Hv].
    assert (v < ff.Modulus) as Hvq.
    { rewrite Forall_forall in Hx. apply Hx. by eapply list_elem_of_lookup_2. }
    rewrite Hv. cbn [mbind option_bind].
    rewrite set_at_Some by lia. cbn [mbind option_bind].
    assert (Forall (λ v, v < ff.Modulus) (<[sp_k st := v]> (sp_frame st))) as Hfr'
      by (by apply Forall_insert).
    destruct (decide (sp_k st = F - 1)%nat) as [HkF|HkF].
    + destruct (Hash_returns cs (<[sp_k st := v]> (sp_frame st)))
        as (d & Hd' & Hdq); [done | rewrite length_insert; lia | done |].
      rewrite Hd'. cbn [mbind option_bind].
      rewrite set_at_Some by (rewrite length_replicate; lia).
      cbn [mbind option_bind].
      eexists. split; [done|]. cbn [sp_frame sp_k sp_dirty sp_hash].
      rewrite length_insert, length_replicate.
      repeat split; [lia | | ].
      * apply Forall_insert; [|lia]. apply Forall_replicate. lia.
      * intros _. right. by exists d.
    + eexists. split; [done|]. cbn [sp_frame sp_k sp_dirty sp_hash].
      rewrite length_insert. repeat split; [done | lia | done | done].
  - unfold finish. destruct (sp_dirty st') eqn:Hdirty.
    + destruct (Hash_returns cs (sp_frame st')) as (d & Hd' & Hdq);
        [done | lia | done |].
      rewrite Hd'. cbn [mbind option_bind]. by exists d.
    + destruct (Hd eq_refl) as [H0|(d & Hd' & Hdq)].
      * simpl in H0. apply length_zero_iff_nil in H0. done.
      * exists d. by rewrite Hd'.
Qed.

Lemma byte_val_bound (b : byte) : 0 ≤ byte_val b < 256.
Proof.
  unfold byte_val. pose proof (Byte.to_N_bounded b). lia.
Qed.

Lemma SetBytes_bound (buf : list byte) :
  0 ≤ SetBytes buf < 256 ^ Z.of_nat (length buf).
Proof.
  unfold SetBytes.
  assert (∀ acc n, 0 ≤ acc < 256 ^ Z.of_nat n →
            0 ≤ fold_left (λ acc b, acc * 256 + byte_val b) buf acc
            < 256 ^ Z.of_nat (n + length buf)) as Hgen.
  { induction buf as [|b buf IH]; intros acc n Hacc; simpl.
    - by rewrite Nat.add_0_r.
    - replace (n + S (length buf))%nat with (S n + length buf)%nat by lia.
      apply IH. pose proof (byte_val_bound b).
      rewrite Nat2Z.inj_succ, Z.pow_succ_r by lia. lia. }
  apply (Hgen 0 0%nat). simpl. lia.
Qed.

Lemma chunk_seq_in_field (msg : list byte) :
  Forall (λ v, v < ff.Modulus) (chunk_seq msg).
Proof.
  unfold chunk_seq. apply Forall_fmap, Forall_forall. intros i _. simpl.
  set (c := pad_chunk _).
  assert (length c = 31%nat) as Hc.
  { unfold c, pad_chunk. rewrite length_app, length_replicate, length_take. lia. }
  pose proof (SetBytes_bound c) as Hb. rewrite Hc in Hb.
  eapply Z.lt_trans; [apply Hb | reflexivity].
Qed.

Lemma HashBytesX_returns (cs : constants) (msg : list byte) (frameSize : Z) :
  constants_ok cs = true → 2 ≤ frameSize ≤ 16 → msg ≠ [] →
  ∃ d, HashBytesX cs msg frameSize = Some (Ok (Some d)) ∧ 0 ≤ d < ff.Modulus.
Proof.
  intros Hcs HF Hne. rewrite HashBytesX_chunks.
  apply SpongeHashX_returns; [done | done | | apply chunk_seq_in_field].
  intros Hnil. apply (f_equal length) in Hnil.
  unfold chunk_seq in Hnil. rewrite length_fmap, length_seq in Hnil.
  change (length (@nil Z)) with 0%nat in Hnil.
  apply Nat.div_small_iff in Hnil; [|lia].
  destruct msg; [done | simpl in Hnil; lia].
Qed.

Lemma Mem_SpongeHashX_returns (cs : constants) (h : gmap positive Z)
    (inputs : list Mem.ptr) (vals : list Z) (frameSize : Z) :
  constants_ok cs = true → 2 ≤ frameSize ≤ 16 → inputs ≠ [] →
  Mem.points_to h inputs vals → Forall (λ v, v < ff.Modulus) vals →
  ∃ l h' d, Mem.SpongeHashX cs inputs frameSize h = Some (Ok (Some l), h')
            ∧ h' !! l = Some d
            ∧ SpongeHashX cs vals frameSize = Some (Ok (Some d)).
Proof.
  intros Hcs HF Hne Hpt Hvals.
  destruct (SpongeHashX_returns cs vals frameSize) as (d & Hd & _); try done.
  { intros ->. apply Forall2_nil_inv_r in Hpt. done. }
  pose proof (SpongeHashX_refines cs h inputs vals frameSize Hpt) as Hr.
  unfold Mem.refines in Hr. rewrite Hd in Hr.
  destruct Hr as (p & h' & Hrun & _ & l & -> & Hl).
  by exists l, h', d.
Qed.

(** ** The properties of the specification *)

(** C1. For every state of width t with 2 ≤ t ≤ 17 (and tables of the
    documented shape for that width, and a scratch space as long as the
    state), [hashElements] returns the state that the schedule of section
    4.2 produces: initial ARK, three full rounds with M, the transition
    round with the pre-sparse matrix, the partial rounds acting on slot 0
    and fanning the pre-update slot 0 out to the other slots, three full
    rounds with M, and a final S-box and mix without ARK, every mix sending
    input slot j to output slot i with coefficient m[j][i].  It does not
    panic, and the scratch space holds a copy of the result. *)
Theorem hashElements_schedule (cs : constants) (state scratch : list ff.Element) :
  (2 ≤ length state ≤ 17)%nat →
  width_ok cs (length state) = true →
  length scratch = length state →
  hashElements cs state scratch
  = Some (Spec.permute cs state, Spec.permute cs state).
Proof.
  intros [Ht _] Hok Hscr. by apply hashElements_spec.
Qed.

Lemma hashElements_schedule_witness :
  hashElements sample_constants [1; 2; 3] [0; 0; 0]
  = Some (Spec.permute sample_constants [1; 2; 3],
          Spec.permute sample_constants [1; 2; 3]).
Proof.
  apply (hashElements_schedule sample_constants [1; 2; 3] [0; 0; 0]).
  - simpl. lia.
  - vm_compute. reflexivity.
  - reflexivity.
Defined.

(** C3. For every byte string msg (in particular every non-empty one) and
    every frame size, [HashBytesX msg F] is [SpongeHashX] applied to the
    chunk sequence of msg: its 31-byte chunks read as big-endian integers,
    a final short chunk zero-padded on the right.  The two calls agree on
    the digest, on errors and on panics, so the digest depends on the
    message only through this sequence.  On a non-empty message, with a
    frame size in 2..16 and tables of the documented shape, the call
    returns a digest in [0, p). *)
Theorem HashBytesX_is_sponge_of_chunks (cs : constants) (msg : list byte)
    (frameSize : Z) :
  HashBytesX cs msg frameSize = SpongeHashX cs (chunk_seq msg) frameSize
  ∧ (constants_ok cs = true → 2 ≤ frameSize ≤ 16 → msg ≠ [] →
     ∃ d, HashBytesX cs msg frameSize = Some (Ok (Some d))
          ∧ 0 ≤ d < ff.Modulus).
Proof.
  split; [apply HashBytesX_chunks | apply HashBytesX_returns].
Qed.

(** C4. [HashWithStateEx] returns an error exactly when a validation
    condition holds: no input or more than 16, an input ≥ p, initState ≥ p,
    or nOuts outside [1, |inputs|+1].  When none holds (and the tables have
    the documented shape) it returns nOuts values and no error. *)
Theorem HashWithStateEx_error_iff_invalid (cs : constants) (inpBI : list Z)
    (initState nOuts : Z) :
  constants_ok cs = true →
  (is_Err (HashWithStateEx cs inpBI initState nOuts)
   ↔ invalid_call inpBI initState nOuts)
  ∧ (¬ invalid_call inpBI initState nOuts →
     ∃ r, HashWithStateEx cs inpBI initState nOuts = Some (Ok r)
          ∧ Z.of_nat (length r) = nOuts).
Proof.
  intros Hcs. split.
  - split; [apply HashWithStateEx_Err_invalid | apply HashWithStateEx_invalid].
  - intros Hv.
    assert (1 ≤ length inpBI ≤ 16)%nat as Hlen.
    { unfold invalid_call in Hv. destruct (length inpBI); [tauto|]. 
      destruct (decide (16 < S n)%nat); [tauto | lia]. }
    assert (1 ≤ nOuts ≤ Z.of_nat (length inpBI) + 1) as Hn.
    { unfold invalid_call in Hv. split; apply Z.nlt_ge; intros ?; tauto. }
    eexists. split.
    + apply HashWithStateEx_valid; [|done].
      apply constants_ok_width; [done | lia].
    + rewrite length_fmap, length_take, length_spec_permute. simpl.
      unfold utils.BigIntArrayToElementArray. rewrite length_fmap. lia.
Qed.

Lemma HashWithStateEx_error_iff_invalid_witness :
  (is_Err (HashWithStateEx sample_constants [1; 2] 0 1) ↔ invalid_call [1; 2] 0 1)
  ∧ (¬ invalid_call [1; 2] 0 1 →
     ∃ r, HashWithStateEx sample_constants [1; 2] 0 1 = Some (Ok r)
          ∧ Z.of_nat (length r) = 1).
Proof.
  apply (HashWithStateEx_error_iff_invalid sample_constants [1; 2] 0 1).
  vm_compute. reflexivity.
Defined.

(** C5. For every frame size F with 2 ≤ F ≤ 16 and every input sequence x
    with 1 ≤ |x| ≤ F−1, [SpongeHashX x F] returns what [Hash] returns on x
    right-padded with zeros to length F; when the elements of x are below p
    (and the tables have the documented shape) both return a digest, the
    same one. *)
Theorem SpongeHashX_single_frame_is_Hash (cs : constants) (x : list Z)
    (frameSize : Z) :
  2 ≤ frameSize ≤ 16 → 1 ≤ Z.of_nat (length x) ≤ frameSize - 1 →
  let padded := x ++ replicate (Z.to_nat frameSize - length x) 0 in
  SpongeHashX cs x frameSize = as_digest (Hash cs padded)
  ∧ (constants_ok cs = true → Forall (λ v, v < ff.Modulus) x →
     ∃ d, Hash cs padded = Some (Ok d)
          ∧ SpongeHashX cs x frameSize = Some (Ok (Some d))).
Proof.
  intros HF Hx padded.
  assert (SpongeHashX cs x frameSize = as_digest (Hash cs padded)) as Heq
    by (by apply SpongeHashX_single_frame).
  split; [done|]. intros Hcs Hfield.
  destruct (Hash_returns cs padded) as (d & Hd & _); [done | | |].
  - unfold padded. rewrite length_app, length_replicate. lia.
  - unfold padded. apply Forall_app. split; [done|].
    apply Forall_replicate. apply Modulus_pos.
  - exists d. split; [done|]. by rewrite Heq, Hd.
Qed.

Lemma SpongeHashX_single_frame_is_Hash_witness :
  let padded := [1; 2] ++ replicate (Z.to_nat 3 - 2) 0 in
  SpongeHashX sample_constants [1; 2] 3 = as_digest (Hash sample_constants padded)
  ∧ (constants_ok sample_constants = true → Forall (λ v, v < ff.Modulus) [1; 2] →
     ∃ d, Hash sample_constants padded = Some (Ok d)
          ∧ SpongeHashX sample_constants [1; 2] 3 = Some (Ok (Some d))).
Proof.
  apply (SpongeHashX_single_frame_is_Hash sample_constants [1; 2] 3); simpl; lia.
Defined.

(** C6, as the code has it.  For every frame size F with 2 ≤ F ≤ 16,
    [SpongeHashX] on the empty input sequence and [HashBytesX] on the empty
    byte string return a nil digest and a nil error: nothing was absorbed,
    the dirty flag is unset, and [hash] still holds its initial nil. *)
Theorem sponge_empty_input_nil_digest (cs : constants) (frameSize : Z) :
  2 ≤ frameSize ≤ 16 →
  SpongeHashX cs [] frameSize = Some (Ok None)
  ∧ HashBytesX cs [] frameSize = Some (Ok None).
Proof.
  intros HF. split; [by apply SpongeHashX_empty | by apply HashBytesX_empty].
Qed.

Lemma sponge_empty_input_nil_digest_witness :
  SpongeHashX sample_constants [] 16 = Some (Ok None)
  ∧ HashBytesX sample_constants [] 16 = Some (Ok None).
Proof.
  apply (sponge_empty_input_nil_digest sample_constants 16). lia.
Defined.

(** C6, as stated, fails at frame size 2: whatever the tables, both sponges
    return a nil digest with a nil error on the empty input, which is
    neither an error nor the hash of the all-zero frame. *)
Lemma sponge_empty_input_counterexample :
  (∀ cs, SpongeHashX cs [] 2 = Some (Ok None))
  ∧ (∀ cs, HashBytesX cs [] 2 = Some (Ok None)).
Proof. split; intros cs; reflexivity. Qed.

(** C8. [exp5 a] is a^5 mod p, and equals the result of multiplying a by
    itself four times with a reduction after each product. *)
Theorem exp5_is_fifth_power (a : ff.Element) :
  exp5 a = a ^ 5 mod ff.Modulus ∧ exp5 a = Spec.pow5_naive a.
Proof.
  split; [apply exp5_sbox|].
  rewrite exp5_sbox. unfold Spec.pow5_naive, Spec.sbox, Spec.q.
  apply cong_eq. rewrite !cong_mod.
  replace (a ^ 5) with (a * a * a * a * a) by ring. reflexivity.
Qed.

(** C9. [Hash x] is [HashWithState x 0]: the two calls have the same
    outcome, so they agree on errors, and on a valid x (1 to 16 elements
    below p, tables of the documented shape) both return the same digest. *)
Theorem Hash_is_HashWithState_zero (cs : constants) (x : list Z) :
  Hash cs x = HashWithState cs x 0
  ∧ (is_Err (Hash cs x) ↔ is_Err (HashWithState cs x 0))
  ∧ (constants_ok cs = true → (1 ≤ length x ≤ 16)%nat →
     Forall (λ v, v < ff.Modulus) x →
     ∃ d, Hash cs x = Some (Ok d) ∧ HashWithState cs x 0 = Some (Ok d)).
Proof.
  split; [reflexivity|]. split; [reflexivity|].
  intros Hcs Hlen Hx. destruct (Hash_returns cs x) as (d & Hd & _); try done.
  by exists d.
Qed.

(** C2, at the one-byte message "a" and frame size 16.  Whatever the
    tables, [HashBytesXLessAlloc] returns 32 zero bytes without running the
    permutation: the padded chunk is stored in the state, but the dirty flag
    is not set, so the zero [currentHash] is encoded.  [HashBytesX] sets the
    flag and returns the hash of the frame holding the padded chunk. *)
Theorem HashBytesXLessAlloc_skips_short_message (cs : constants) :
  HashBytesXLessAlloc cs [x61] 16 = Some (Ok (replicate 32 x00))
  ∧ HashBytesX cs [x61] 16
    = as_digest (Hash cs (97 * 2 ^ 240 :: replicate 15 0)).
Proof.
  split.
  - apply HashBytesXLessAlloc_short; simpl; lia.
  - rewrite HashBytesX_short by (simpl; lia).
    replace (SetBytes (last_chunk [x61])) with (97 * 2 ^ 240)
      by (vm_compute; reflexivity).
    reflexivity.
Qed.

(** On a table of the documented shape the two byte sponges do return
    different digests for "a": the equivalence does not follow from the
    structure of the code. *)
Lemma byte_sponges_differ_on_short_message :
  ∃ d, HashBytesX sample_constants [x61] 16 = Some (Ok (Some d))
       ∧ HashBytesXLessAlloc sample_constants [x61] 16
         = Some (Ok (replicate 32 x00))
       ∧ ff.Bytes d ≠ replicate 32 x00.
Proof.
  eexists. split; [vm_compute; reflexivity|].
  split; [vm_compute; reflexivity|]. vm_compute. discriminate.
Qed.

(** The same on a message of two whole chunks and frame size 2, where both
    run the permutation once: [HashBytesXLessAlloc] permutes the state
    [chunk0; chunk1; 0], [HashBytesX] the state [0; chunk0; chunk1]. *)
Lemma byte_sponges_differ_on_whole_frame :
  let msg := replicate 31 x01 ++ replicate 31 x02 in
  ∃ d bs, HashBytesX sample_constants msg 2 = Some (Ok (Some d))
          ∧ HashBytesXLessAlloc sample_constants msg 2 = Some (Ok bs)
          ∧ hashElements sample_constants
              [SetBytes (replicate 31 x01); SetBytes (replicate 31 x02); 0]
              [0; 0; 0]
            ≫= (λ ss, ff.Bytes <$> ss.1 !! 0%nat) = Some bs
          ∧ ff.Bytes d ≠ bs.
Proof.
  eexists _, _. split; [vm_compute; reflexivity|].
  split; [vm_compute; reflexivity|].
  split; [vm_compute; reflexivity|]. vm_compute. discriminate.
Qed.

(** C10. [HashWithStateEx], [Hash] and [SpongeHashX] never write to an
    integer that existed before the call: whenever a call returns, with a
    result or with an error, every integer of the initial heap, and so every
    integer of the input slice, holds the value it held; and every digest
    returned is a freshly allocated integer, none of the inputs.
    [SpongeHashX] returns a nil digest only for the empty input. *)
Theorem hash_calls_preserve_inputs (cs : constants) (h : gmap positive Z)
    (inputs : list Mem.ptr) :
  (∀ initState nOuts r h',
     Mem.HashWithStateEx cs inputs initState nOuts h = Some (r, h') →
     Mem.frame_ok h inputs (match r with Ok ps => ps | Err _ => [] end) h')
  ∧ (∀ r h',
       Mem.Hash cs inputs h = Some (r, h') →
       Mem.frame_ok h inputs (match r with Ok p => [p] | Err _ => [] end) h')
  ∧ (∀ frameSize r h',
       Mem.SpongeHashX cs inputs frameSize h = Some (r, h') →
       Mem.frame_ok h inputs
         (match r with Ok (Some l) => [Some l] | _ => [] end) h'
       ∧ (r = Ok None → inputs = [])).
Proof.
  assert (∀ h' ps, h ⊆ h' → Forall (Mem.fresh_in h) ps →
                   Mem.frame_ok h inputs ps h') as Hframe.
  { intros h' ps Hsub Hps. split; [done|]. split.
    - intros vals. by apply points_to_mono.
    - eapply Forall_impl; [exact Hps|]. intros p Hp. split; [done|].
      intros vals. by apply fresh_in_not_input. }
  split; [|split].
  - intros initState nOuts r h' Hrun.
    destruct (preserves_HashWithStateEx cs h inputs initState nOuts h
                (reflexivity h) r h' Hrun) as [Hsub Hr].
    apply Hframe; [done|]. destruct r; [done | constructor].
  - intros r h' Hrun.
    destruct (preserves_Hash cs h inputs h (reflexivity h) r h' Hrun)
      as [Hsub Hr].
    apply Hframe; [done|]. destruct r; [by constructor | constructor].
  - intros frameSize r h' Hrun.
    destruct (preserves_SpongeHashX cs h inputs frameSize h
                (reflexivity h) r h' Hrun) as [Hsub Hr].
    split.
    + apply Hframe; [done|].
      destruct r as [[l|]|]; [|constructor|constructor].
      destruct Hr as [[? _]|Hr]; [done | by constructor].
    + intros ->. destruct Hr as [[_ ?]|(l & ? & _)]; done.
Qed.

Lemma hash_calls_preserve_inputs_witness :
  let h : gmap positive Z := {[ 1%positive := 5; 2%positive := 7 ]} in
  let inputs := [Some 1%positive; Some 2%positive; Some 1%positive] in
  ∃ r h',
    Mem.SpongeHashX sample_constants inputs 2 h = Some (r, h')
    ∧ Mem.frame_ok h inputs (match r with Ok (Some l) => [Some l] | _ => [] end) h'
    ∧ (r = Ok None → inputs = []).
Proof.
  intros h inputs. eexists _, _.
  refine (let Hrun := _ in
          conj Hrun
            (proj2 (proj2 (hash_calls_preserve_inputs sample_constants h inputs))
               2 _ _ Hrun)).
  vm_compute. reflexivity.
Defined.

(** ** Further properties *)

(** X1. Field closure and width coverage: for every width, a call of [Hash]
    on 1 to 16 integers below p (with tables of the documented shape)
    completes and returns a digest in [0, p). *)
Theorem Hash_digest_in_field (cs : constants) (x : list Z) :
  constants_ok cs = true → (1 ≤ length x ≤ 16)%nat →
  Forall (λ v, v < ff.Modulus) x →
  ∃ d, Hash cs x = Some (Ok d) ∧ 0 ≤ d < ff.Modulus.
Proof. apply Hash_returns. Qed.

Lemma Hash_digest_in_field_witness :
  ∃ d, Hash sample_constants [1; 2] = Some (Ok d) ∧ 0 ≤ d < ff.Modulus.
Proof.
  apply (Hash_digest_in_field sample_constants [1; 2]).
  - vm_compute. reflexivity.
  - simpl. lia.
  - repeat (constructor; [reflexivity|]). constructor.
Defined.

(** X2. The scratch space is uninitialised on entry: the permutation
    returns the same state whatever the scratch space holds. *)
Theorem hashElements_ignores_scratch (cs : constants)
    (state scratch1 scratch2 : list ff.Element) :
  (2 ≤ length state ≤ 17)%nat → width_ok cs (length state) = true →
  length scratch1 = length state → length scratch2 = length state →
  hashElements cs state scratch1 = hashElements cs state scratch2.
Proof.
  intros [Ht _] Hok H1 H2. by rewrite !hashElements_spec.
Qed.

Lemma hashElements_ignores_scratch_witness :
  hashElements sample_constants [1; 2; 3] [0; 0; 0]
  = hashElements sample_constants [1; 2; 3] [7; 8; 9].
Proof.
  apply (hashElements_ignores_scratch sample_constants [1; 2; 3]).
  - simpl. lia.
  - vm_compute. reflexivity.
  - reflexivity.
  - reflexivity.
Defined.

(** X3. The pointer-level [SpongeHashX] computes the value-level one: on
    inputs that point to integers below p, not all absent, it returns a
    pointer to the digest that the value-level function returns. *)
Theorem Mem_SpongeHashX_computes (cs : constants) (h : gmap positive Z)
    (inputs : list Mem.ptr) (vals : list Z) (frameSize : Z) :
  constants_ok cs = true → 2 ≤ frameSize ≤ 16 → inputs ≠ [] →
  Mem.points_to h inputs vals → Forall (λ v, v < ff.Modulus) vals →
  ∃ l h' d, Mem.SpongeHashX cs inputs frameSize h = Some (Ok (Some l), h')
            ∧ h' !! l = Some d
            ∧ SpongeHashX cs vals frameSize = Some (Ok (Some d)).
Proof. apply Mem_SpongeHashX_returns. Qed.

Lemma Mem_SpongeHashX_computes_witness :
  let h : gmap positive Z := {[ 1%positive := 5; 2%positive := 7 ]} in
  let inputs := [Some 1%positive; Some 2%positive; Some 1%positive] in
  ∃ l h' d, Mem.SpongeHashX sample_constants inputs 2 h = Some (Ok (Some l), h')
            ∧ h' !! l = Some d
            ∧ SpongeHashX sample_constants [5; 7; 5] 2 = Some (Ok (Some d)).
Proof.
  intros h inputs.
  apply (Mem_SpongeHashX_computes sample_constants h inputs [5; 7; 5] 2).
  - vm_compute. reflexivity.
  - lia.
  - discriminate.
  - repeat constructor; eexists; (split; [reflexivity|]); vm_compute; reflexivity.
  - repeat (constructor; [reflexivity|]). constructor.
Defined.

(** * More of the package *)

(** ** The sponge loop as a recursion on the inputs *)

Lemma for_range_r_absorb (cs : constants) (F : nat) (inputs : list Z)
    (n lo : nat) (st : sponge) :
  (lo + n ≤ length inputs)%nat →
  for_range_r lo n (λ i st, v ← inputs !! i; sponge_step cs F v st) st
  = absorb cs F (take n (drop lo inputs)) st.
Proof.
  revert lo st. induction n as [|n IH]; intros lo st Hn; simpl; [done|].
  destruct (lookup_lt_is_Some_2 inputs lo) as [v Hv]; [lia|].
  rewrite Hv. cbn [mbind option_bind].
  rewrite (drop_S inputs v lo Hv). simpl.
  destruct (sponge_step cs F v st) as [[st'|e]|]; [|done|done].
  apply IH. lia.
Qed.

Lemma SpongeHashX_absorb (cs : constants) (inputs : list Z) (frameSize : Z) :
  2 ≤ frameSize ≤ 16 →
  SpongeHashX cs inputs frameSize
  = r ← absorb cs (Z.to_nat frameSize) inputs
         (Build_sponge (replicate (Z.to_nat frameSize) 0) 0 false None);
    match r with
    | Err e => Some (Err e)
    | Ok st => finish cs st
    end.
Proof.
  intros HF. unfold SpongeHashX. rewrite decide_False by lia.
  pose proof (for_range_r_absorb cs (Z.to_nat frameSize) inputs (length inputs) 0
                (Build_sponge (replicate (Z.to_nat frameSize) 0) 0 false None))
    as H.
  rewrite drop_0, take_ge in H by lia. rewrite <- H by lia. done.
Qed.

Lemma absorb_app (cs : constants) (F : nat) (xs ys : list Z) (st : sponge) :
  absorb cs F (xs ++ ys) st
  = match absorb cs F xs st with
    | Some (Ok st') => absorb cs F ys st'
    | other => other
    end.
Proof.
  revert st. induction xs as [|v xs IH]; intros st; simpl; [done|].
  destruct (sponge_step cs F v st) as [[st'|e]|]; [apply IH | done | done].
Qed.

(** Inputs that do not complete the frame are stored and nothing else. *)
Lemma absorb_fill (cs : constants) (F : nat) (pre y : list Z) (d : bool)
    (h : option Z) :
  (length pre + length y ≤ F - 1)%nat →
  absorb cs F y
    (Build_sponge (pre ++ replicate (F - length pre) 0) (length pre) d h)
  = Some (Ok (Build_sponge ((pre ++ y) ++ replicate (F - length (pre ++ y)) 0)
                (length (pre ++ y))
                (if decide (y = []) then d else true) h)).
Proof.
  revert pre d. induction y as [|v y IH]; intros pre d Hlen; simpl.
  - by rewrite app_nil_r.
  - simpl in Hlen. unfold sponge_step. cbn [sp_frame sp_k sp_hash].
    rewrite set_at_Some by (rewrite length_app, length_replicate; lia).
    cbn [mbind option_bind].
    rewrite decide_False by lia.
    rewrite insert_app_r_alt, Nat.sub_diag by lia.
    replace (F - length pre)%nat with (S (F - length (pre ++ [v]))).
    2:{ rewrite length_app. simpl. lia. }
    cbn [replicate]. simpl.
    replace (pre ++ v :: replicate (F - length (pre ++ [v])) 0)
      with ((pre ++ [v]) ++ replicate (F - length (pre ++ [v])) 0)
      by (by rewrite <- app_assoc).
    replace (length pre + 1)%nat with (length (pre ++ [v]))
      by (rewrite length_app; simpl; lia).
    rewrite IH by (rewrite length_app; simpl; lia).
    replace ((pre ++ [v]) ++ y) with (pre ++ v :: y) by (by rewrite <- app_assoc).
    by destruct (decide (y = [])).
Qed.

(** Inputs that complete the frame get it hashed, and the loop goes on from
    the chained state. *)
Lemma absorb_block (cs : constants) (F : nat) (pre y : list Z) (d : bool)
    (h : option Z) :
  (1 ≤ F)%nat → y ≠ [] → (length pre + length y = F)%nat →
  absorb cs F y
    (Build_sponge (pre ++ replicate (F - length pre) 0) (length pre) d h)
  = r ← Hash cs (pre ++ y);
    match r with
    | Err e => Some (Err e)
    | Ok h' => Some (Ok (chained F h'))
    end.
Proof.
  intros HF Hy Hlen.
  destruct (exists_last Hy) as (y' & v & ->).
  rewrite length_app in Hlen. simpl in Hlen.
  rewrite absorb_app, absorb_fill by lia.
  simpl. unfold sponge_step. cbn [sp_frame sp_k sp_hash].
  rewrite set_at_Some
    by (rewrite !length_app, length_replicate; lia).
  cbn [mbind option_bind].
  rewrite decide_True by (rewrite length_app; lia).
  replace (F - length (pre ++ y'))%nat with 1%nat by (rewrite length_app; lia).
  rewrite insert_app_r_alt, Nat.sub_diag by lia. simpl.
  rewrite app_assoc.
  destruct (Hash cs ((pre ++ y') ++ [v])) as [[h'|e]|]; cbn [mbind option_bind];
    [|done|done].
  rewrite set_at_Some by (rewrite length_replicate; lia).
  cbn [mbind option_bind]. unfold chained. do 3 f_equal.
  destruct F; [lia|]. simpl. by rewrite Nat.sub_0_r.
Qed.

Lemma init_sponge_eq (F : nat) :
  Build_sponge (replicate F 0) 0 false None
  = Build_sponge ([] ++ replicate (F - length (@nil Z)) 0) (length (@nil Z))
      false None.
Proof. simpl. by rewrite Nat.sub_0_r. Qed.

Lemma chained_eq (F : nat) (h : Z) :
  chained F h
  = Build_sponge ([h] ++ replicate (F - length [h]) 0) (length [h]) false (Some h).
Proof. done. Qed.

(** A stream of at most one frame is hashed once, zero-padded. *)
Lemma SpongeHashX_one_frame (cs : constants) (x : list Z) (frameSize : Z) :
  2 ≤ frameSize ≤ 16 → 1 ≤ Z.of_nat (length x) ≤ frameSize →
  SpongeHashX cs x frameSize
  = as_digest (Hash cs (x ++ replicate (Z.to_nat frameSize - length x) 0)).
Proof.
  intros HF Hx.
  destruct (decide (Z.of_nat (length x) = frameSize)) as [Hfull|Hpart].
  - rewrite SpongeHashX_absorb by done.
    rewrite init_sponge_eq.
    rewrite absorb_block; [| lia | intros ->; simpl in *; lia | simpl; lia].
    replace (Z.to_nat frameSize - length x)%nat with 0%nat by lia.
    simpl. rewrite app_nil_r.
    by destruct (Hash cs x) as [[h|e]|].
  - apply SpongeHashX_single_frame; [done | lia].
Qed.

Lemma absorb_to_boundary (cs : constants) (F j : nat) (x : list Z) (st : sponge) :
  (2 ≤ F)%nat → (length x = F + j * (F - 1))%nat →
  absorb cs F x (Build_sponge (replicate F 0) 0 false None) = Some (Ok st) →
  ∃ h, st = chained F h.
Proof.
  intros HF. revert x st. induction j as [|j IH]; intros x st Hlen Hrun.
  - rewrite init_sponge_eq in Hrun.
    rewrite absorb_block in Hrun;
      [| lia | intros ->; simpl in *; lia | simpl; lia].
    simpl in Hrun. destruct (Hash cs x) as [[h|e]|]; simpl in Hrun; [|done|done].
    exists h. congruence.
  - set (n := (F + j * (F - 1))%nat).
    rewrite <- (take_drop n x) in Hrun. rewrite absorb_app in Hrun.
    destruct (absorb cs F (take n x) _) as [[st1|e]|] eqn:Hrun1; [|done|done].
    destruct (IH (take n x) st1) as [h1 ->]; [rewrite length_take; lia | done |].
    rewrite chained_eq in Hrun.
    rewrite absorb_block in Hrun.
    + destruct (Hash cs _) as [[h|e]|]; simpl in Hrun; [|done|done].
      exists h. congruence.
    + lia.
    + intros Hnil. apply (f_equal length) in Hnil.
      rewrite length_drop in Hnil. simpl in Hnil. lia.
    + rewrite length_drop. simpl. lia.
Qed.

(** Chaining: once the stream so far has ended on a frame boundary with
    digest [h], what follows is hashed in a frame that starts with [h]. *)
Lemma SpongeHashX_chain (cs : constants) (x y : list Z) (frameSize : Z)
    (j : nat) (h : Z) :
  2 ≤ frameSize ≤ 16 →
  (length x = Z.to_nat frameSize + j * (Z.to_nat frameSize - 1))%nat →
  SpongeHashX cs x frameSize = Some (Ok (Some h)) →
  1 ≤ Z.of_nat (length y) ≤ frameSize - 1 →
  SpongeHashX cs (x ++ y) frameSize
  = as_digest (Hash cs (h :: y ++ replicate (Z.to_nat frameSize - 1 - length y) 0)).
Proof.
  intros HF Hlen Hx Hy.
  set (F := Z.to_nat frameSize) in *.
  rewrite SpongeHashX_absorb in Hx |- * by done. fold F in Hx |- *.
  rewrite absorb_app.
  destruct (absorb cs F x _) as [[st|e]|] eqn:Hrun; simpl in Hx; [|done|done].
  destruct (absorb_to_boundary cs F j x st) as [h' ->]; [lia | done | done |].
  assert (h' = h) as -> by (unfold chained, finish in Hx; simpl in Hx; congruence).
  rewrite chained_eq.
  destruct (decide (length y = F - 1)%nat) as [Hfull|Hpart].
  - rewrite absorb_block; [| lia | intros ->; simpl in *; lia | simpl; lia].
    replace (F - 1 - length y)%nat with 0%nat by lia. rewrite app_nil_r.
    simpl. by destruct (Hash cs (h :: y)) as [[h2|e]|].
  - rewrite absorb_fill by (simpl; lia).
    cbn [mbind option_bind].
    rewrite decide_False by (intros ->; simpl in Hy; lia).
    rewrite finish_dirty. simpl.
    by replace (F - S (length y))%nat with (F - 1 - length y)%nat by lia.
Qed.

(** Zeros appended inside the current frame do not change the digest. *)
Lemma SpongeHashX_trailing_zeros (cs : constants) (x : list Z) (n : nat)
    (frameSize : Z) :
  2 ≤ frameSize ≤ 16 → 1 ≤ Z.of_nat (length x) →
  Z.of_nat (length x + n) ≤ frameSize →
  SpongeHashX cs (x ++ replicate n 0) frameSize = SpongeHashX cs x frameSize.
Proof.
  intros HF Hx Hn.
  rewrite !SpongeHashX_one_frame by (rewrite ?length_app, ?length_replicate; lia).
  rewrite length_app, length_replicate, <- app_assoc, <- replicate_add.
  do 4 f_equal. lia.
Qed.

(** ** Which error *)

Lemma HashWithStateEx_error_kinds (cs : constants) (inpBI : list Z)
    (initState nOuts : Z) :
  let call := HashWithStateEx cs inpBI initState nOuts in
  let n := length inpBI in
  ((n = 0 ∨ 16 < n)%nat → call = Some (Err ErrInvalidInputsLength))
  ∧ ((1 ≤ n ≤ 16)%nat → Exists (λ v, ff.Modulus ≤ v) inpBI →
     call = Some (Err ErrInputsNotInField))
  ∧ ((1 ≤ n ≤ 16)%nat → Forall (λ v, v < ff.Modulus) inpBI →
     nOuts < 1 ∨ Z.of_nat n + 1 < nOuts →
     call = Some (Err ErrInvalidNOuts))
  ∧ ((1 ≤ n ≤ 16)%nat → Forall (λ v, v < ff.Modulus) inpBI →
     1 ≤ nOuts ≤ Z.of_nat n + 1 → ff.Modulus ≤ initState →
     call = Some (Err ErrInitStateNotInField)).
Proof.
  intros call n. unfold call, HashWithStateEx. fold n.
  change (length NROUNDSP) with 16%nat.
  split; [|split; [|split]].
  - intros Hn. by rewrite decide_True.
  - intros Hn Hbad. rewrite decide_False by lia.
    apply CheckBigIntArrayInField_false in Hbad. by rewrite Hbad.
  - intros Hn Hgood Hout. rewrite decide_False by lia.
    apply CheckBigIntArrayInField_true in Hgood. rewrite Hgood. simpl.
    rewrite decide_True by lia. done.
  - intros Hn Hgood Hout Hinit. rewrite decide_False by lia.
    apply CheckBigIntArrayInField_true in Hgood. rewrite Hgood. simpl.
    rewrite decide_False by lia.
    unfold utils.CheckBigIntInField.
    by rewrite (proj2 (Z.ltb_ge _ _) Hinit).
Qed.

Lemma Hash_not_in_field (cs : constants) (x : list Z) :
  (1 ≤ length x ≤ 16)%nat → Exists (λ v, ff.Modulus ≤ v) x →
  Hash cs x = Some (Err ErrInputsNotInField).
Proof.
  intros Hlen Hbad. unfold Hash, HashWithState.
  destruct (HashWithStateEx_error_kinds cs x 0 1) as (_ & H & _).
  by rewrite H.
Qed.

(** Once an integer ≥ p sits in the frame, the sponge ends with the error
    of the hash that finds it. *)
Lemma absorb_bad (cs : constants) (F : nat) (xs : list Z) (st : sponge) :
  (2 ≤ F ≤ 16)%nat → length (sp_frame st) = F → (sp_k st < F)%nat →
  sp_dirty st = true →
  (∃ j b, (j < sp_k st)%nat ∧ sp_frame st !! j = Some b ∧ ff.Modulus ≤ b) →
  absorb cs F xs st = Some (Err ErrInputsNotInField)
  ∨ ∃ st', absorb cs F xs st = Some (Ok st') ∧ length (sp_frame st') = F
           ∧ sp_dirty st' = true
           ∧ Exists (λ v, ff.Modulus ≤ v) (sp_frame st').
Proof.
  intros HF. revert st. induction xs as [|v xs IH]; intros st Hlen Hk Hd Hbad.
  - right. exists st. split; [done|]. split; [done|]. split; [done|].
    destruct Hbad as (j & b & _ & Hj & Hb). apply Exists_exists.
    exists b. split; [by eapply list_elem_of_lookup_2 | done].
  - simpl. unfold sponge_step.
    rewrite set_at_Some by lia. cbn [mbind option_bind].
    destruct Hbad as (j & b & Hjk & Hj & Hb).
    assert (<[sp_k st := v]> (sp_frame st) !! j = Some b) as Hj'
      by (rewrite list_lookup_insert_ne by lia; done).
    destruct (decide (sp_k st = F - 1)%nat) as [HkF|HkF].
    + rewrite Hash_not_in_field; [by left | rewrite length_insert; lia |].
      apply Exists_exists. exists b.
      split; [by eapply list_elem_of_lookup_2 | done].
    + apply IH; cbn [sp_frame sp_k sp_dirty]; [by rewrite length_insert | lia | done |].
      exists j, b. split; [lia | done].
Qed.

Lemma absorb_clean (cs : constants) (F : nat) (xs : list Z) (st : sponge) :
  constants_ok cs = true →
  (2 ≤ F ≤ 16)%nat → length (sp_frame st) = F → (sp_k st < F)%nat →
  Forall (λ v, v < ff.Modulus) (sp_frame st) →
  Exists (λ v, ff.Modulus ≤ v) xs →
  absorb cs F xs st = Some (Err ErrInputsNotInField)
  ∨ ∃ st', absorb cs F xs st = Some (Ok st') ∧ length (sp_frame st') = F
           ∧ sp_dirty st' = true
           ∧ Exists (λ v, ff.Modulus ≤ v) (sp_frame st').
Proof.
  intros Hcs HF. revert st.
  induction xs as [|v xs IH]; intros st Hlen Hk Hclean Hex.
  - by apply Exists_nil in Hex.
  - simpl. unfold sponge_step.
    rewrite set_at_Some by lia. cbn [mbind option_bind].
    destruct (decide (ff.Modulus ≤ v)) as [Hv|Hv].
    + assert (<[sp_k st := v]> (sp_frame st) !! sp_k st = Some v) as Hkv
        by (by rewrite list_lookup_insert_eq by lia).
      destruct (decide (sp_k st = F - 1)%nat) as [HkF|HkF].
      * rewrite Hash_not_in_field; [by left | rewrite length_insert; lia |].
        apply Exists_exists. exists v.
        split; [by eapply list_elem_of_lookup_2 | done].
      * apply absorb_bad; cbn [sp_frame sp_k sp_dirty];
          [done | by rewrite length_insert | lia | done |].
        exists (sp_k st), v. split; [lia | done].
    + apply Exists_cons in Hex as [Hex|Hex]; [done|].
      assert (Forall (λ v, v < ff.Modulus) (<[sp_k st := v]> (sp_frame st)))
        as Hclean' by (apply Forall_insert; [done | lia]).
      destruct (decide (sp_k st = F - 1)%nat) as [HkF|HkF].
      * destruct (Hash_returns cs (<[sp_k st := v]> (sp_frame st)))
          as (d & Hd & Hdq); [done | rewrite length_insert; lia | done |].
        rewrite Hd. cbn [mbind option_bind].
        rewrite set_at_Some by (rewrite length_replicate; lia).
        cbn [mbind option_bind].
        apply IH; cbn [sp_frame sp_k]; [| lia | | done].
        -- by rewrite length_insert, length_replicate.
        -- apply Forall_insert; [|lia]. apply Forall_replicate.
           apply Modulus_pos.
      * apply IH; cbn [sp_frame sp_k]; [by rewrite length_insert | lia | done | done].
Qed.

Lemma SpongeHashX_not_in_field (cs : constants) (x : list Z) (frameSize : Z) :
  constants_ok cs = true → 2 ≤ frameSize ≤ 16 →
  Exists (λ v, ff.Modulus ≤ v) x →
  SpongeHashX cs x frameSize = Some (Err ErrInputsNotInField).
Proof.
  intros Hcs HF Hex. rewrite SpongeHashX_absorb by done.
  destruct (absorb_clean cs (Z.to_nat frameSize) x
              (Build_sponge (replicate (Z.to_nat frameSize) 0) 0 false None))
    as [Herr|(st & Hrun & Hlen & Hd & Hbad)]; try done.
  - lia.
  - simpl. by rewrite length_replicate.
  - simpl. lia.
  - simpl. apply Forall_replicate. apply Modulus_pos.
  - by rewrite Herr.
  - rewrite Hrun. cbn [mbind option_bind]. unfold finish. rewrite Hd.
    rewrite Hash_not_in_field; [done | lia | done].
Qed.

(** ** Outputs of the permutation *)

Lemma spec_mix_in_field (m : list (list Z)) (state : list Z) :
  Forall (λ v, 0 ≤ v < ff.Modulus) (Spec.mix m state).
Proof.
  unfold Spec.mix. apply Forall_fmap, Forall_forall. intros i _. simpl.
  apply Z.mod_pos_bound, Modulus_pos.
Qed.

Lemma spec_permute_in_field (cs : constants) (state : list Z) :
  Forall (λ v, 0 ≤ v < ff.Modulus) (Spec.permute cs state).
Proof. unfold Spec.permute. apply spec_mix_in_field. Qed.

Lemma hashElements_outputs (cs : constants) (state scratch : list ff.Element) :
  (2 ≤ length state ≤ 17)%nat → width_ok cs (length state) = true →
  length scratch = length state →
  ∃ out sc, hashElements cs state scratch = Some (out, sc)
            ∧ length out = length state
            ∧ Forall (λ v, 0 ≤ v < ff.Modulus) out.
Proof.
  intros [Ht _] Hok Hsc. eexists _, _.
  split; [by apply hashElements_spec|].
  split; [apply length_spec_permute | apply spec_permute_in_field].
Qed.

Lemma hashElements_width_panic (cs : constants) (state scratch : list ff.Element) :
  (length state < 2 ∨ 17 < length state)%nat →
  hashElements cs state scratch = None.
Proof.
  intros Ht. unfold hashElements.
  destruct (decide (2 ≤ length state)%nat) as [H2|H2].
  - rewrite option_guard_True by done. cbn [mbind option_bind].
    rewrite (lookup_ge_None_2 NROUNDSP) by (simpl; lia). done.
  - by rewrite option_guard_False.
Qed.

Lemma hashWithStateExBytes_guard (cs : constants) (state scratch : list ff.Element) :
  ((length state = 1 ∨ 17 < length state)%nat →
   hashWithStateExBytes cs state scratch = Some (Err ErrInvalidInputsLength))
  ∧ (state = [] → hashWithStateExBytes cs state scratch = None).
Proof.
  unfold hashWithStateExBytes. change (length NROUNDSP) with 16%nat. split.
  - intros Hlen. rewrite decide_True by lia. done.
  - intros ->. rewrite decide_False by (simpl; lia).
    by rewrite hashElements_width_panic by (simpl; lia).
Qed.

Lemma fmap_id_on {A : Type} (f : A → A) (P : A → Prop) (l : list A) :
  (∀ x, P x → f x = x) → Forall P l → f <$> l = l.
Proof.
  intros Hf. induction 1 as [|x l Hx _ IH]; [done|].
  rewrite fmap_cons, IH. by rewrite Hf.
Qed.

(** The two entry points of the permutation agree on the same state. *)
Lemma hashWithStateExBytes_HashWithState (cs : constants) (inp : list Z)
    (initState : Z) (scratch : list ff.Element) :
  constants_ok cs = true → (1 ≤ length inp ≤ 16)%nat →
  Forall (λ v, 0 ≤ v < ff.Modulus) inp → 0 ≤ initState < ff.Modulus →
  length scratch = S (length inp) →
  ∃ d out sc,
    hashWithStateExBytes cs (initState :: inp) scratch = Some (Ok (d, out, sc))
    ∧ HashWithState cs inp initState = Some (Ok d).
Proof.
  intros Hcs Hlen Hinp Hinit Hsc.
  assert (width_ok cs (length (initState :: inp)) = true) as Hok
    by (apply constants_ok_width; [done | simpl; lia]).
  unfold hashWithStateExBytes, HashWithState.
  change (length NROUNDSP) with 16%nat.
  rewrite decide_False by (simpl; lia).
  rewrite hashElements_spec by (done || simpl; lia).
  cbn [mbind option_bind fst snd].
  rewrite HashWithStateEx_valid.
  2:{ apply constants_ok_width; [done | lia]. }
  2:{ unfold invalid_call. intros [?|[?|[Hex|[?|[?|?]]]]]; try lia.
      apply Exists_exists in Hex as (v & Hv & Hq).
      rewrite Forall_forall in Hinp. specialize (Hinp v Hv). lia. }
  unfold utils.BigIntArrayToElementArray, ff.SetBigInt.
  rewrite (fmap_id_on (λ v, v mod ff.Modulus) (λ v, 0 ≤ v < ff.Modulus) inp)
    by (done || intros; by apply Z.mod_small).
  rewrite (Z.mod_small initState) by done.
  set (perm := Spec.permute cs (initState :: inp)).
  assert (length perm = S (length inp)) as Hperm
    by (unfold perm; by rewrite length_spec_permute).
  pose proof (spec_permute_in_field cs (initState :: inp)) as Hfield.
  fold perm in Hfield.
  destruct perm as [|d perm']; [simpl in Hperm; lia|].
  change (Z.to_nat 1) with 1%nat. simpl.
  apply Forall_cons in Hfield as [Hd _].
  exists d, (d :: perm'), (d :: perm'). split; [done|].
  unfold ff.ToBigIntRegular. by rewrite Z.mod_small.
Qed.

(** [HashEx] returns a prefix of the permuted state: asking for fewer
    outputs gives the first ones of the longer answer, and the first output
    is the digest of [Hash]. *)
Lemma HashEx_prefix (cs : constants) (x : list Z) (n m : nat) :
  constants_ok cs = true → (1 ≤ length x ≤ 16)%nat →
  Forall (λ v, v < ff.Modulus) x →
  (1 ≤ n ≤ m)%nat → (m ≤ length x + 1)%nat →
  ∃ r, HashEx cs x (Z.of_nat m) = Some (Ok r)
       ∧ length r = m
       ∧ Forall (λ v, 0 ≤ v < ff.Modulus) r
       ∧ HashEx cs x (Z.of_nat n) = Some (Ok (take n r))
       ∧ ∃ d, head r = Some d ∧ Hash cs x = Some (Ok d).
Proof.
  intros Hcs Hlen Hx Hnm Hm.
  assert (width_ok cs (length x + 1) = true) as Hok
    by (apply constants_ok_width; [done | lia]).
  pose proof Modulus_pos as Hq.
  assert (∀ k, 1 ≤ k ≤ Z.of_nat (length x) + 1 → ¬ invalid_call x 0 k) as Hvalid.
  { intros k Hk. unfold invalid_call. intros [?|[?|[Hex|[?|[?|?]]]]]; try lia.
    by apply (Forall_not_Exists_ge x Hx). }
  unfold HashEx, Hash, HashWithState.
  rewrite !HashWithStateEx_valid by (done || apply Hvalid; lia).
  rewrite !Nat2Z.id. change (Z.to_nat 1) with 1%nat.
  set (perm := Spec.permute cs _).
  assert (length perm = (length x + 1)%nat) as Hperm.
  { unfold perm. rewrite length_spec_permute. simpl.
    unfold utils.BigIntArrayToElementArray. rewrite length_fmap. lia. }
  eexists. split; [done|].
  split; [rewrite length_fmap, length_take; lia|].
  split.
  { apply Forall_fmap, Forall_forall. intros v _. simpl.
    unfold ff.ToBigIntRegular. apply Z.mod_pos_bound, Modulus_pos. }
  split.
  { rewrite <- fmap_take, take_take.
    by replace (n `min` m)%nat with n by lia. }
  destruct perm as [|d perm']; [simpl in Hperm; lia|].
  destruct m as [|m]; [lia|]. simpl.
  eexists. split; [done|]. done.
Qed.

(** ** The byte sponge *)

Lemma pad_chunk_trailing_zeros (msg : list byte) (n i : nat) :
  (length msg mod 31 ≠ 0)%nat → (length msg mod 31 + n ≤ 31)%nat →
  (i ≤ length msg / 31)%nat →
  pad_chunk (take 31 (drop (31 * i) (msg ++ replicate n x00)))
  = pad_chunk (take 31 (drop (31 * i) msg)).
Proof.
  intros Hr Hn Hi.
  pose proof (Nat.div_mod_eq (length msg) 31) as Hdm.
  pose proof (Nat.mod_upper_bound (length msg) 31) as Hlt.
  rewrite drop_app_le by lia.
  set (t := drop (31 * i) msg).
  assert (length t = length msg - 31 * i)%nat as Ht
    by (unfold t; by rewrite length_drop).
  destruct (decide (i < length msg / 31)%nat) as [Hlt'|Hge].
  - by rewrite take_app_le by lia.
  - assert (i = length msg / 31)%nat as -> by lia.
    rewrite take_app, take_ge by lia.
    rewrite take_replicate. unfold pad_chunk.
    rewrite <- app_assoc, <- replicate_add, length_app, length_replicate.
    do 2 f_equal. lia.
Qed.

Lemma chunk_seq_trailing_zeros (msg : list byte) (n : nat) :
  (length msg mod 31 ≠ 0)%nat → (length msg mod 31 + n ≤ 31)%nat →
  chunk_seq (msg ++ replicate n x00) = chunk_seq msg.
Proof.
  intros Hr Hn.
  pose proof (Nat.div_mod_eq (length msg) 31) as Hdm.
  pose proof (Nat.mod_upper_bound (length msg) 31) as Hlt.
  unfold chunk_seq. rewrite length_app, length_replicate.
  assert ((length msg + n + 30) / 31 = length msg / 31 + 1)%nat as ->.
  { symmetry.
    apply (Nat.div_unique _ 31 _ (length msg mod 31 + n - 1)); lia. }
  assert ((length msg + 30) / 31 = length msg / 31 + 1)%nat as ->.
  { rewrite chunks_count. by rewrite decide_True. }
  apply Forall_fmap_ext, Forall_forall. intros i Hi.
  apply elem_of_seq in Hi.
  rewrite pad_chunk_trailing_zeros by (done || lia). done.
Qed.

(** ** [HashBytesXLessAlloc] *)

Lemma length_be_bytes (n : nat) (v : Z) : length (be_bytes n v) = n.
Proof. induction n as [|n IH]; simpl; [done | by rewrite IH]. Qed.

Lemma zero_loop_length (s : list ff.Element) :
  ∃ s', for_range 1 (length s - 1) (λ j state, set_at state j 0) s = Some s'
        ∧ length s' = length s.
Proof.
  destruct (for_range_inv (λ _ s', length s' = length s)
              (λ j state, set_at state j 0) (length s - 1) 1 s)
    as (s' & Hr & Hl); [done | | by exists s'].
  intros j s1 Hj Hl. rewrite set_at_Some by lia.
  eexists. split; [done|]. by rewrite length_insert.
Qed.

(** A call of [hashWithStateExBytes] made by [HashBytesXLessAlloc]. *)
Lemma hashWithStateExBytes_frame (cs : constants) (F : nat)
    (state scratch : list ff.Element) :
  constants_ok cs = true → (2 ≤ F ≤ 16)%nat →
  length state = S F → length scratch = S F →
  hashWithStateExBytes cs state scratch
  = Some (Ok (Spec.at0 (Spec.permute cs state) 0,
              Spec.permute cs state, Spec.permute cs state)).
Proof.
  intros Hcs HF Hst Hsc. unfold hashWithStateExBytes.
  change (length NROUNDSP) with 16%nat.
  rewrite decide_False by lia.
  rewrite hashElements_spec; [| apply constants_ok_width; [done|lia] | lia | lia].
  cbn [mbind option_bind fst snd].
  pose proof (length_spec_permute cs state) as Hl.
  destruct (Spec.permute cs state) as [|h perm]; [simpl in Hl; lia|]. done.
Qed.

(** The step of the loop after which a frame is hashed. *)
Lemma la_hash_step (cs : constants) (F : nat) (state scratch : list ff.Element) :
  constants_ok cs = true → (2 ≤ F ≤ 16)%nat →
  length state = S F → length scratch = S F →
  ∃ state',
    (r ← hashWithStateExBytes cs state scratch;
     match r with
     | Err e => Some (Err e)
     | Ok (h, state, scratch) =>
         state ← set_at state 0 h;
         state ← for_range 1 (length state - 1)
           (λ j state, set_at state j 0) state;
         Some (Ok (Build_sponge_la state scratch 1 false h))
     end)
    = Some (Ok (Build_sponge_la state' (Spec.permute cs state) 1 false
                  (Spec.at0 (Spec.permute cs state) 0)))
    ∧ length state' = S F.
Proof.
  intros Hcs HF Hst Hsc.
  rewrite (hashWithStateExBytes_frame cs F) by done.
  cbn [mbind option_bind].
  pose proof (length_spec_permute cs state) as Hl.
  rewrite set_at_Some by lia. cbn [mbind option_bind].
  destruct (zero_loop_length
              (<[0%nat := Spec.at0 (Spec.permute cs state) 0]>
                 (Spec.permute cs state))) as (s' & Hr & Hl').
  rewrite Hr. cbn [mbind option_bind].
  exists s'. split; [done|]. rewrite Hl', length_insert. lia.
Qed.

Lemma HashBytesXLessAlloc_returns (cs : constants) (msg : list byte)
    (frameSize : Z) :
  constants_ok cs = true → 2 ≤ frameSize ≤ 16 →
  ∃ bs, HashBytesXLessAlloc cs msg frameSize = Some (Ok bs) ∧ length bs = 32%nat.
Proof.
  intros Hcs HF. unfold HashBytesXLessAlloc.
  rewrite decide_False by lia.
  set (F := Z.to_nat frameSize).
  assert (2 ≤ F ≤ 16)%nat as HF' by lia.
  edestruct (for_range_r_inv
               (λ (_ : nat) st, length (la_state st) = S F
                                ∧ length (la_scratch st) = S F
                                ∧ (la_k st < F)%nat))
    as (st & Hr & Hst & Hsc & Hk); [| | rewrite Hr; cbn [mbind option_bind]].
  - simpl. rewrite !length_replicate. repeat split; lia.
  - intros i st _ (Hst & Hsc & Hk).
    rewrite set_at_Some by lia. cbn [mbind option_bind].
    destruct (decide (la_k st = F - 1)%nat) as [HkF|HkF].
    + destruct (la_hash_step cs F
                  (<[la_k st := ff.SetBytesLessMod (chunk msg i)]> (la_state st))
                  (la_scratch st)) as (s' & Hrun & Hl');
        [done | done | by rewrite length_insert | done |].
      rewrite Hrun. eexists. split; [done|]. cbn [la_state la_scratch la_k].
      rewrite length_spec_permute, length_insert. repeat split; [done | done | lia].
    + eexists. split; [done|]. cbn [la_state la_scratch la_k].
      rewrite length_insert. repeat split; [done | done | lia].
  - assert (∃ state, (if decide (length msg mod spongeChunkSize ≠ 0)%nat
                      then set_at (la_state st) (la_k st)
                             (ff.SetBytesLessMod (last_chunk msg))
                      else Some (la_state st)) = Some state
                     ∧ length state = S F) as (state & -> & Hstate).
    { destruct (decide _).
      - rewrite set_at_Some by lia. eexists. split; [done|].
        by rewrite length_insert.
      - by eexists. }
    cbn [mbind option_bind].
    destruct (la_dirty st).
    + rewrite (hashWithStateExBytes_frame cs F) by done.
      cbn [mbind option_bind]. eexists. split; [done|].
      apply length_be_bytes.
    + eexists. split; [done|]. apply length_be_bytes.
Qed.

Lemma chunk_app (msg tail : list byte) (i : nat) :
  (31 * i + 31 ≤ length msg)%nat → chunk (msg ++ tail) i = chunk msg i.
Proof.
  intros Hi. unfold chunk, spongeChunkSize.
  rewrite drop_app_le by lia. rewrite take_app_le; [done|].
  rewrite length_drop. lia.
Qed.

(** A message of exactly one frame of whole chunks, followed by less than a
    chunk: the chunks fill [state[0 .. F-1]], the last slot stays zero, the
    state is permuted once, and what follows the frame is stored but never
    hashed. *)
Lemma HashBytesXLessAlloc_one_frame (cs : constants) (msg tail : list byte)
    (frameSize : Z) :
  constants_ok cs = true → 2 ≤ frameSize ≤ 16 →
  (length msg = 31 * Z.to_nat frameSize)%nat → (length tail < 31)%nat →
  HashBytesXLessAlloc cs (msg ++ tail) frameSize
  = Some (Ok (ff.Bytes
                (Spec.at0
                   (Spec.permute cs
                      (((λ i, ff.SetBytesLessMod (chunk msg i))
                          <$> seq 0 (Z.to_nat frameSize)) ++ [0]))
                   0))).
Proof.
  intros Hcs HF Hmsg Htail. unfold HashBytesXLessAlloc.
  rewrite decide_False by lia.
  set (F := Z.to_nat frameSize) in *.
  assert (2 ≤ F ≤ 16)%nat as HF' by lia.
  change spongeChunkSize with 31%nat.
  assert (length (msg ++ tail) / 31 = (F - 1) + 1)%nat as ->.
  { rewrite length_app. symmetry.
    apply (Nat.div_unique _ 31 _ (length tail)); lia. }
  assert (length (msg ++ tail) mod 31 = length tail)%nat as ->.
  { rewrite length_app. symmetry.
    apply (Nat.mod_unique _ 31 F); lia. }
  set (clist := (λ i, ff.SetBytesLessMod (chunk msg i)) <$> seq 0 F).
  assert (length clist = F) as Hcl by (unfold clist; by rewrite length_fmap, length_seq).
  assert (∀ i, (i < F)%nat →
               clist !! i = Some (ff.SetBytesLessMod (chunk (msg ++ tail) i)))
    as Hclist.
  { intros i Hi. unfold clist. rewrite list_lookup_fmap, lookup_seq_lt by done.
    simpl. by rewrite chunk_app by lia. }
  rewrite for_range_r_snoc.
  edestruct (for_range_r_inv
               (λ i st, st = Build_sponge_la
                               (take i clist ++ replicate (S F - i) 0)
                               (replicate (S F) 0) i
                               (bool_decide (0 < i)%nat) 0))
    as (st & Hr & ->); [| | rewrite Hr; clear Hr].
  - rewrite Nat.add_1_r. done.
  - intros i st [_ Hi] ->. simpl in Hi. cbn [la_state la_k la_scratch la_currentHash].
    rewrite set_at_Some
      by (rewrite length_app, length_take, length_replicate; lia).
    cbn [mbind option_bind].
    rewrite decide_False by lia.
    eexists. split; [done|].
    rewrite (insert_take_replicate clist i (S F)) by (auto with lia).
    rewrite Nat.add_1_r. f_equal.
  - cbn [la_state la_k la_scratch la_currentHash].
    replace (0 + (F - 1))%nat with (F - 1)%nat by lia.
    rewrite set_at_Some
      by (rewrite length_app, length_take, length_replicate; lia).
    cbn [mbind option_bind].
    rewrite decide_True by done.
    rewrite (insert_take_replicate clist (F - 1) (S F)) by (auto with lia).
    replace (S (F - 1)) with F by lia.
    rewrite take_ge by lia.
    replace (S F - F)%nat with 1%nat by lia.
    change (replicate 1 0) with [0].
    destruct (la_hash_step cs F (clist ++ [0]) (replicate (S F) 0))
      as (s' & Hrun & Hl');
      [done | done | rewrite length_app; simpl; lia | by rewrite length_replicate |].
    rewrite Hrun.
    cbn [mbind option_bind la_state la_k la_scratch la_currentHash la_dirty].
    destruct (decide (length tail ≠ 0)%nat).
    + rewrite set_at_Some by lia. done.
    + done.
Qed.

(** ** The heap: the outputs of [HashWithStateEx] *)

Lemma M_bind_inv {A B : Type} (m : Mem.M A) (f : A → Mem.M B)
    (h h' : gmap positive Z) (b : B) :
  (m ≫= f) h = Some (b, h') →
  ∃ a h1, m h = Some (a, h1) ∧ f a h1 = Some (b, h').
Proof.
  unfold mbind, Mem.M_bind. destruct (m h) as [[a h1]|]; [|done].
  intros H. by exists a, h1.
Qed.

Lemma export_distinct (st : list ff.Element) (idx : list nat)
    (h h' : gmap positive Z) (ps : list Mem.ptr) :
  mapM (λ i, rE ← Mem.lift (st !! i);
             ri ← Mem.new_big 0;
             _ ← Mem.store ri (ff.ToBigIntRegular rE);
             mret ri) idx h = Some (ps, h') →
  h ⊆ h' ∧ length ps = length idx ∧ NoDup ps
  ∧ Forall (λ p, ∃ l, p = Some l ∧ h !! l = None ∧ is_Some (h' !! l)) ps.
Proof.
  revert h h' ps. induction idx as [|i idx IH]; intros h h' ps Hrun; simpl in Hrun.
  - injection Hrun as <- <-. repeat split; [done | constructor | constructor].
  - apply M_bind_inv in Hrun as (p & h1 & Hstep & Hrun).
    apply M_bind_inv in Hrun as (ps' & h2 & Hrest & Hret).
    injection Hret as <- <-.
    apply M_bind_inv in Hstep as (rE & h0 & Hlift & Hstep).
    unfold Mem.lift in Hlift. destruct (st !! i) as [x|]; [|done].
    injection Hlift as <- <-.
    apply M_bind_inv in Hstep as (ri & h0 & Hnew & Hstep).
    unfold Mem.new_big in Hnew. injection Hnew as <- <-.
    apply M_bind_inv in Hstep as ([] & h0 & Hstore & Hret).
    injection Hret as <- <-.
    set (l := fresh (dom h)) in *.
    assert (h !! l = None) as Hl by (apply not_elem_of_dom, is_fresh).
    unfold Mem.store in Hstore. rewrite lookup_insert_eq in Hstore.
    injection Hstore as <-. rewrite insert_insert_eq in Hrest.
    destruct (IH _ _ _ Hrest) as (Hsub & Hlen & Hnd & Hall).
    assert (h ⊆ <[l := ff.ToBigIntRegular x]> h) as Hsub0
      by (by apply insert_subseteq).
    assert (is_Some (h2 !! l)) as Hl2.
    { exists (ff.ToBigIntRegular x). eapply lookup_weaken; [|exact Hsub].
      by rewrite lookup_insert_eq. }
    split; [by etrans|]. split; [simpl; by rewrite Hlen|]. split.
    + constructor; [|done]. intros Hin.
      rewrite Forall_forall in Hall.
      destruct (Hall _ Hin) as (l' & [= <-] & Hnone & _).
      by rewrite lookup_insert_eq in Hnone.
    + constructor; [by exists l|].
      eapply Forall_impl; [exact Hall|].
      intros p (l' & -> & Hnone & Hsome). exists l'.
      split; [done|]. split; [|done].
      by eapply lookup_weaken_None.
Qed.

Lemma Mem_HashWithStateEx_outputs (cs : constants) (inpBI : list Mem.ptr)
    (initState : Mem.ptr) (nOuts : Z) (h h' : gmap positive Z)
    (ps : list Mem.ptr) :
  Mem.HashWithStateEx cs inpBI initState nOuts h = Some (Ok ps, h') →
  Z.of_nat (length ps) = nOuts ∧ NoDup ps
  ∧ Forall (λ p, ∃ l, p = Some l ∧ h !! l = None ∧ is_Some (h' !! l)) ps.
Proof.
  unfold Mem.HashWithStateEx. intros Hrun.
  destruct (decide _) as [|Hlen]; [by injection Hrun|].
  apply M_bind_inv in Hrun as (ok & h1 & Hchk & Hrun).
  destruct (preserves_CheckBigIntArrayInField h inpBI h (reflexivity h) _ _ Hchk)
    as [Hsub1 _].
  destruct ok; simpl in Hrun; [|by injection Hrun].
  destruct (decide _) as [|Hn]; [by injection Hrun|].
  apply M_bind_inv in Hrun as (inp & h2 & Hconv & Hrun).
  destruct (preserves_BigIntArrayToElementArray h inpBI h1 Hsub1 _ _ Hconv)
    as [Hsub2 _].
  apply M_bind_inv in Hrun as (iv & h3 & Hload & Hrun).
  destruct (preserves_load h h2 initState (λ _ h', h' = h2)
              (λ _, eq_refl) Hsub2 _ _ Hload) as [Hsub3 ->].
  destruct (utils.CheckBigIntInField iv); simpl in Hrun; [|by injection Hrun].
  apply M_bind_inv in Hrun as (ss & h4 & Hperm & Hrun).
  unfold Mem.lift in Hperm. destruct (hashElements cs _ _); [|done].
  injection Hperm as <- <-.
  apply M_bind_inv in Hrun as (r & h5 & Hexp & Hret).
  injection Hret as <- <-.
  destruct (export_distinct _ _ _ _ _ Hexp) as (Hsub & Hl & Hnd & Hall).
  split; [rewrite Hl, length_seq; lia|]. split; [done|].
  eapply Forall_impl; [exact Hall|].
  intros pt (l & -> & Hnone & Hsome). exists l. split; [done|]. split; [|done].
  by eapply lookup_weaken_None.
Qed.

(** ** Properties of the sponges *)

(** X4. A stream of 1 to F inputs is hashed once: [SpongeHashX] returns
    what [Hash] returns on the inputs right-padded with zeros to the frame
    size, also when the inputs fill the frame exactly. *)
Theorem SpongeHashX_within_one_frame (cs : constants) (x : list Z)
    (frameSize : Z) :
  2 ≤ frameSize ≤ 16 → 1 ≤ Z.of_nat (length x) ≤ frameSize →
  SpongeHashX cs x frameSize
  = as_digest (Hash cs (x ++ replicate (Z.to_nat frameSize - length x) 0)).
Proof. apply SpongeHashX_one_frame. Qed.

Lemma SpongeHashX_within_one_frame_witness :
  SpongeHashX sample_constants [1; 2; 3] 3
  = as_digest (Hash sample_constants ([1; 2; 3] ++ replicate (Z.to_nat 3 - 3) 0)).
Proof.
  apply (SpongeHashX_within_one_frame sample_constants [1; 2; 3] 3); simpl; lia.
Defined.

(** X5. Chaining.  When the inputs so far end on a frame boundary (F of
    them, plus any number of further F−1) and their sponge digest is h, then
    1 to F−1 more inputs y give the hash of the frame [h, y, 0, ..., 0]. *)
Theorem SpongeHashX_chaining (cs : constants) (x y : list Z) (frameSize : Z)
    (j : nat) (h : Z) :
  2 ≤ frameSize ≤ 16 →
  (length x = Z.to_nat frameSize + j * (Z.to_nat frameSize - 1))%nat →
  SpongeHashX cs x frameSize = Some (Ok (Some h)) →
  1 ≤ Z.of_nat (length y) ≤ frameSize - 1 →
  SpongeHashX cs (x ++ y) frameSize
  = as_digest (Hash cs (h :: y ++ replicate (Z.to_nat frameSize - 1 - length y) 0)).
Proof. apply SpongeHashX_chain. Qed.

Lemma SpongeHashX_chaining_witness :
  let h := 6861975343669264165989893507673245553538617146428243957332730807767487146109 in
  SpongeHashX sample_constants ([1; 2; 3; 4; 5] ++ [6]) 3
  = as_digest (Hash sample_constants
                 (h :: [6] ++ replicate (Z.to_nat 3 - 1 - 1) 0)).
Proof.
  intros h.
  apply (SpongeHashX_chaining sample_constants [1; 2; 3; 4; 5] [6] 3 1 h).
  - lia.
  - reflexivity.
  - vm_compute. reflexivity.
  - simpl. lia.
Defined.

(** X6. Zeros appended to a stream that stays within its first frame do
    not change the digest: the frame starts zeroed, so the two streams are
    hashed in the same frame. *)
Theorem SpongeHashX_zero_extension (cs : constants) (x : list Z) (n : nat)
    (frameSize : Z) :
  2 ≤ frameSize ≤ 16 → 1 ≤ Z.of_nat (length x) →
  Z.of_nat (length x + n) ≤ frameSize →
  SpongeHashX cs (x ++ replicate n 0) frameSize = SpongeHashX cs x frameSize.
Proof. apply SpongeHashX_trailing_zeros. Qed.

Lemma SpongeHashX_zero_extension_witness :
  SpongeHashX sample_constants ([1; 2] ++ replicate 1 0) 3
  = SpongeHashX sample_constants [1; 2] 3.
Proof.
  apply (SpongeHashX_zero_extension sample_constants [1; 2] 1 3); simpl; lia.
Defined.

(** X7. Zero bytes appended to a message whose last chunk is short, and
    that do not go past the end of that chunk, do not change the digest of
    [HashBytesX]: the short chunk is zero-padded either way. *)
Theorem HashBytesX_zero_byte_extension (cs : constants) (msg : list byte)
    (n : nat) (frameSize : Z) :
  (length msg mod 31 ≠ 0)%nat → (length msg mod 31 + n ≤ 31)%nat →
  HashBytesX cs (msg ++ replicate n x00) frameSize = HashBytesX cs msg frameSize.
Proof.
  intros Hr Hn. by rewrite !HashBytesX_chunks, chunk_seq_trailing_zeros.
Qed.

Lemma HashBytesX_zero_byte_extension_witness :
  HashBytesX sample_constants ([x61] ++ replicate 2 x00) 16
  = HashBytesX sample_constants [x61] 16.
Proof.
  apply (HashBytesX_zero_byte_extension sample_constants [x61] 2 16).
  - vm_compute. discriminate.
  - vm_compute. lia.
Defined.

(** X8. A message of 1 to 31·F bytes is hashed once: [HashBytesX] returns
    what [Hash] returns on the frame of its chunks, zero-padded to F slots. *)
Theorem HashBytesX_within_one_frame (cs : constants) (msg : list byte)
    (frameSize : Z) :
  2 ≤ frameSize ≤ 16 → (1 ≤ length msg ≤ 31 * Z.to_nat frameSize)%nat →
  HashBytesX cs msg frameSize
  = as_digest (Hash cs (chunk_seq msg
                          ++ replicate (Z.to_nat frameSize - length (chunk_seq msg)) 0)).
Proof.
  intros HF Hlen. rewrite HashBytesX_chunks.
  apply SpongeHashX_one_frame; [done|].
  unfold chunk_seq. rewrite length_fmap, length_seq.
  assert (1 ≤ (length msg + 30) / 31)%nat
    by (apply Nat.div_le_lower_bound; lia).
  assert ((length msg + 30) / 31 < Z.to_nat frameSize + 1)%nat
    by (apply Nat.Div0.div_lt_upper_bound; lia).
  lia.
Qed.

Lemma HashBytesX_within_one_frame_witness :
  HashBytesX sample_constants (replicate 40 x61) 2
  = as_digest (Hash sample_constants
                 (chunk_seq (replicate 40 x61)
                    ++ replicate (Z.to_nat 2 - length (chunk_seq (replicate 40 x61))) 0)).
Proof.
  apply (HashBytesX_within_one_frame sample_constants (replicate 40 x61) 2).
  - lia.
  - vm_compute. lia.
Defined.

(** X9. The errors of [SpongeHashX]: it returns "incorrect frame size"
    exactly when the frame size is outside 2..16 and "inputs values not
    inside Finite Field" exactly when the frame size is in range and some
    input is ≥ p; it returns no other error. *)
Theorem SpongeHashX_error_kinds (cs : constants) (x : list Z) (frameSize : Z) :
  constants_ok cs = true →
  (SpongeHashX cs x frameSize = Some (Err ErrIncorrectFrameSize)
   ↔ frameSize < 2 ∨ 16 < frameSize)
  ∧ (SpongeHashX cs x frameSize = Some (Err ErrInputsNotInField)
     ↔ 2 ≤ frameSize ≤ 16 ∧ Exists (λ v, ff.Modulus ≤ v) x)
  ∧ (∀ e, SpongeHashX cs x frameSize = Some (Err e) →
          e = ErrIncorrectFrameSize ∨ e = ErrInputsNotInField).
Proof.
  intros Hcs.
  destruct (decide (frameSize < 2 ∨ 16 < frameSize)) as [HF|HF].
  { assert (SpongeHashX cs x frameSize = Some (Err ErrIncorrectFrameSize)) as ->
      by (unfold SpongeHashX; by rewrite decide_True).
    split; [done|]. split; [|intros e [= <-]; by left].
    split; [done | lia]. }
  destruct (decide (Forall (λ v, v < ff.Modulus) x)) as [Hgood|Hbad].
  - assert (∃ d, SpongeHashX cs x frameSize = Some (Ok d)) as [d ->].
    { destruct x as [|v x]; [exists None; apply SpongeHashX_empty; lia|].
      destruct (SpongeHashX_returns cs (v :: x) frameSize) as (d & Hd & _);
        [done | lia | done | done |]. by exists (Some d). }
    split; [split; [done | tauto]|]. split; [|done].
    split; [done|]. intros [_ Hex]. exfalso.
    by apply (Forall_not_Exists_ge x Hgood).
  - assert (Exists (λ v, ff.Modulus ≤ v) x) as Hex.
    { apply not_Forall_Exists in Hbad; [|apply _].
      eapply Exists_impl; [exact Hbad|]. simpl. lia. }
    rewrite SpongeHashX_not_in_field by (done || lia).
    split; [split; [done | tauto]|]. split; [|intros e [= <-]; by right].
    split; [|done]. intros _. split; [lia | done].
Qed.

Lemma SpongeHashX_error_kinds_witness :
  (SpongeHashX sample_constants [1; ff.Modulus] 2 = Some (Err ErrIncorrectFrameSize)
   ↔ 2 < 2 ∨ 16 < 2)
  ∧ (SpongeHashX sample_constants [1; ff.Modulus] 2 = Some (Err ErrInputsNotInField)
     ↔ 2 ≤ 2 ≤ 16 ∧ Exists (λ v, ff.Modulus ≤ v) [1; ff.Modulus])
  ∧ (∀ e, SpongeHashX sample_constants [1; ff.Modulus] 2 = Some (Err e) →
          e = ErrIncorrectFrameSize ∨ e = ErrInputsNotInField).
Proof.
  apply (SpongeHashX_error_kinds sample_constants [1; ff.Modulus] 2).
  vm_compute. reflexivity.
Defined.

(** X10. [HashBytesX] fails only on the frame size: with a frame size in
    2..16 it returns no error for any message, and the digest it returns is
    nil exactly for the empty message. *)
Theorem HashBytesX_fails_only_on_frame_size (cs : constants) (msg : list byte)
    (frameSize : Z) :
  constants_ok cs = true →
  (is_Err (HashBytesX cs msg frameSize) ↔ frameSize < 2 ∨ 16 < frameSize)
  ∧ (2 ≤ frameSize ≤ 16 →
     ∃ d, HashBytesX cs msg frameSize = Some (Ok d) ∧ (d = None ↔ msg = [])).
Proof.
  intros Hcs.
  assert (2 ≤ frameSize ≤ 16 →
          ∃ d, HashBytesX cs msg frameSize = Some (Ok d) ∧ (d = None ↔ msg = []))
    as Hok.
  { intros HF. destruct msg as [|b msg].
    - exists None. by rewrite HashBytesX_empty.
    - destruct (HashBytesX_returns cs (b :: msg) frameSize) as (d & Hd & _);
        [done | done | done |].
      exists (Some d). split; [done|]. split; done. }
  split; [|done]. split.
  - intros [e He]. destruct (decide (frameSize < 2 ∨ 16 < frameSize)); [done|].
    destruct Hok as (d & Hd & _); [lia|]. congruence.
  - intros HF. exists ErrIncorrectFrameSize.
    unfold HashBytesX. by rewrite decide_True.
Qed.

Lemma HashBytesX_fails_only_on_frame_size_witness :
  (is_Err (HashBytesX sample_constants [x61] 16) ↔ 16 < 2 ∨ 16 < 16)
  ∧ (2 ≤ 16 ≤ 16 →
     ∃ d, HashBytesX sample_constants [x61] 16 = Some (Ok d)
          ∧ (d = None ↔ [x61] = [])).
Proof.
  apply (HashBytesX_fails_only_on_frame_size sample_constants [x61] 16).
  vm_compute. reflexivity.
Defined.

(** X19. The entry points with the default frame size: [SpongeHash] on 1
    to 16 inputs and [HashBytes] on 1 to 496 bytes make one call of [Hash],
    on the 16-slot frame of the inputs, or of the chunks, padded with
    zeros. *)
Theorem default_frame_size_entry_points (cs : constants) (x : list Z)
    (msg : list byte) :
  (1 ≤ length x ≤ 16)%nat → (1 ≤ length msg ≤ 496)%nat →
  SpongeHash cs x = as_digest (Hash cs (x ++ replicate (16 - length x) 0))
  ∧ HashBytes cs msg
    = as_digest (Hash cs (chunk_seq msg
                            ++ replicate (16 - length (chunk_seq msg)) 0)).
Proof.
  intros Hx Hmsg. unfold SpongeHash, HashBytes, spongeInputs. split.
  - rewrite SpongeHashX_one_frame by lia. done.
  - rewrite HashBytesX_chunks, SpongeHashX_one_frame; [done | lia |].
    unfold chunk_seq. rewrite length_fmap, length_seq.
    assert (1 ≤ (length msg + 30) / 31)%nat
      by (apply Nat.div_le_lower_bound; lia).
    assert ((length msg + 30) / 31 < 17)%nat
      by (apply Nat.Div0.div_lt_upper_bound; lia).
    lia.
Qed.

Lemma default_frame_size_entry_points_witness :
  SpongeHash sample_constants [1; 2]
  = as_digest (Hash sample_constants ([1; 2] ++ replicate (16 - 2) 0))
  ∧ HashBytes sample_constants [x61; x62]
    = as_digest (Hash sample_constants
                   (chunk_seq [x61; x62]
                      ++ replicate (16 - length (chunk_seq [x61; x62])) 0)).
Proof.
  apply (default_frame_size_entry_points sample_constants [1; 2] [x61; x62]);
    simpl; lia.
Defined.

(** ** Properties of the fixed-input hash and of the permutation *)

(** X11. Which error [HashWithStateEx] returns, in the order of its
    checks: the number of inputs first, then the inputs against p, then
    nOuts, and initState last, so that an initState ≥ p is reported only
    for a call that is otherwise valid. *)
Theorem HashWithStateEx_error_precedence (cs : constants) (inpBI : list Z)
    (initState nOuts : Z) :
  let call := HashWithStateEx cs inpBI initState nOuts in
  let n := length inpBI in
  ((n = 0 ∨ 16 < n)%nat → call = Some (Err ErrInvalidInputsLength))
  ∧ ((1 ≤ n ≤ 16)%nat → Exists (λ v, ff.Modulus ≤ v) inpBI →
     call = Some (Err ErrInputsNotInField))
  ∧ ((1 ≤ n ≤ 16)%nat → Forall (λ v, v < ff.Modulus) inpBI →
     nOuts < 1 ∨ Z.of_nat n + 1 < nOuts →
     call = Some (Err ErrInvalidNOuts))
  ∧ ((1 ≤ n ≤ 16)%nat → Forall (λ v, v < ff.Modulus) inpBI →
     1 ≤ nOuts ≤ Z.of_nat n + 1 → ff.Modulus ≤ initState →
     call = Some (Err ErrInitStateNotInField)).
Proof. apply HashWithStateEx_error_kinds. Qed.

Lemma HashWithStateEx_error_precedence_witness :
  HashWithStateEx sample_constants [] ff.Modulus 0
  = Some (Err ErrInvalidInputsLength)
  ∧ HashWithStateEx sample_constants [1; ff.Modulus] ff.Modulus 0
    = Some (Err ErrInputsNotInField)
  ∧ HashWithStateEx sample_constants [1; 2] ff.Modulus 0
    = Some (Err ErrInvalidNOuts)
  ∧ HashWithStateEx sample_constants [1; 2] ff.Modulus 3
    = Some (Err ErrInitStateNotInField).
Proof.
  pose proof (HashWithStateEx_error_precedence sample_constants [] ff.Modulus 0)
    as H1.
  pose proof (HashWithStateEx_error_precedence sample_constants [1; ff.Modulus]
                ff.Modulus 0) as H2.
  pose proof (HashWithStateEx_error_precedence sample_constants [1; 2]
                ff.Modulus 0) as H3.
  pose proof (HashWithStateEx_error_precedence sample_constants [1; 2]
                ff.Modulus 3) as H4.
  cbv zeta in H1, H2, H3, H4.
  destruct H1 as (H1 & _), H2 as (_ & H2 & _), H3 as (_ & _ & H3 & _),
    H4 as (_ & _ & _ & H4).
  split; [apply H1; simpl; lia|].
  split.
  { apply H2; [simpl; lia|]. apply Exists_cons_tl, Exists_cons_hd. lia. }
  split.
  { apply H3; [simpl; lia | | lia].
    repeat (constructor; [reflexivity|]). constructor. }
  apply H4; [simpl; lia | | simpl; lia | lia].
  repeat (constructor; [reflexivity|]). constructor.
Defined.

(** X12. [HashEx] returns a prefix of the permuted state: for a valid
    input and 1 ≤ n ≤ m ≤ |x|+1, the n outputs are the first n of the m
    outputs, every output is in [0, p), and the first one is the digest of
    [Hash]. *)
Theorem HashEx_outputs_prefix (cs : constants) (x : list Z) (n m : nat) :
  constants_ok cs = true → (1 ≤ length x ≤ 16)%nat →
  Forall (λ v, v < ff.Modulus) x →
  (1 ≤ n ≤ m)%nat → (m ≤ length x + 1)%nat →
  ∃ r, HashEx cs x (Z.of_nat m) = Some (Ok r)
       ∧ length r = m
       ∧ Forall (λ v, 0 ≤ v < ff.Modulus) r
       ∧ HashEx cs x (Z.of_nat n) = Some (Ok (take n r))
       ∧ ∃ d, head r = Some d ∧ Hash cs x = Some (Ok d).
Proof. apply HashEx_prefix. Qed.

Lemma HashEx_outputs_prefix_witness :
  ∃ r, HashEx sample_constants [1; 2] (Z.of_nat 3) = Some (Ok r)
       ∧ length r = 3%nat
       ∧ Forall (λ v, 0 ≤ v < ff.Modulus) r
       ∧ HashEx sample_constants [1; 2] (Z.of_nat 2) = Some (Ok (take 2 r))
       ∧ ∃ d, head r = Some d ∧ Hash sample_constants [1; 2] = Some (Ok d).
Proof.
  apply (HashEx_outputs_prefix sample_constants [1; 2] 2 3).
  - vm_compute. reflexivity.
  - simpl. lia.
  - repeat (constructor; [reflexivity|]). constructor.
  - lia.
  - simpl. lia.
Defined.

(** X13. The permutation keeps the width of the state and leaves every
    slot reduced: for a state of width 2..17, whatever integers it holds,
    [hashElements] returns a state of the same width whose slots are all in
    [0, p). *)
Theorem hashElements_outputs_in_field (cs : constants)
    (state scratch : list ff.Element) :
  (2 ≤ length state ≤ 17)%nat → width_ok cs (length state) = true →
  length scratch = length state →
  ∃ out sc, hashElements cs state scratch = Some (out, sc)
            ∧ length out = length state
            ∧ Forall (λ v, 0 ≤ v < ff.Modulus) out.
Proof. apply hashElements_outputs. Qed.

Lemma hashElements_outputs_in_field_witness :
  ∃ out sc, hashElements sample_constants [1; 2; 3] [0; 0; 0] = Some (out, sc)
            ∧ length out = length [1; 2; 3]
            ∧ Forall (λ v, 0 ≤ v < ff.Modulus) out.
Proof.
  apply (hashElements_outputs_in_field sample_constants [1; 2; 3] [0; 0; 0]).
  - simpl. lia.
  - vm_compute. reflexivity.
  - reflexivity.
Defined.

(** X14. Widths outside 2..17.  [hashElements] panics on them, whatever
    the tables (it indexes NROUNDSP at t-2).  [hashWithStateExBytes] turns
    the widths 1 and above 17 into the error "invalid inputs length", but
    lets the empty state through to the panic. *)
Theorem permutation_width_guards (cs : constants)
    (state scratch : list ff.Element) :
  ((length state < 2 ∨ 17 < length state)%nat →
   hashElements cs state scratch = None)
  ∧ ((length state = 1 ∨ 17 < length state)%nat →
     hashWithStateExBytes cs state scratch = Some (Err ErrInvalidInputsLength))
  ∧ (state = [] → hashWithStateExBytes cs state scratch = None).
Proof.
  split; [apply hashElements_width_panic | apply hashWithStateExBytes_guard].
Qed.

Lemma permutation_width_guards_witness :
  hashElements sample_constants [1] [0] = None
  ∧ hashWithStateExBytes sample_constants [1] [0]
    = Some (Err ErrInvalidInputsLength)
  ∧ hashWithStateExBytes sample_constants [] [] = None.
Proof.
  destruct (permutation_width_guards sample_constants [1] [0]) as (H1 & H2 & _).
  destruct (permutation_width_guards sample_constants [] []) as (_ & _ & H3).
  split; [apply H1; simpl; lia|].
  split; [apply H2; simpl; lia | by apply H3].
Defined.

(** X15. The two entry points of the permutation agree: on the state
    [initState :: inputs] of reduced elements, [hashWithStateExBytes]
    returns the digest that [HashWithState] returns for the same inputs and
    initState. *)
Theorem hashWithStateExBytes_agrees_with_HashWithState (cs : constants)
    (inp : list Z) (initState : Z) (scratch : list ff.Element) :
  constants_ok cs = true → (1 ≤ length inp ≤ 16)%nat →
  Forall (λ v, 0 ≤ v < ff.Modulus) inp → 0 ≤ initState < ff.Modulus →
  length scratch = S (length inp) →
  ∃ d out sc,
    hashWithStateExBytes cs (initState :: inp) scratch = Some (Ok (d, out, sc))
    ∧ HashWithState cs inp initState = Some (Ok d).
Proof. apply hashWithStateExBytes_HashWithState. Qed.

Lemma hashWithStateExBytes_agrees_with_HashWithState_witness :
  ∃ d out sc,
    hashWithStateExBytes sample_constants (7 :: [1; 2]) [0; 0; 0]
    = Some (Ok (d, out, sc))
    ∧ HashWithState sample_constants [1; 2] 7 = Some (Ok d).
Proof.
  apply (hashWithStateExBytes_agrees_with_HashWithState
           sample_constants [1; 2] 7 [0; 0; 0]).
  - vm_compute. reflexivity.
  - simpl. lia.
  - repeat (constructor; [split; [lia | reflexivity]|]). constructor.
  - split; [lia | reflexivity].
  - reflexivity.
Defined.

(** ** Properties of [HashBytesXLessAlloc] *)

(** X16. [HashBytesXLessAlloc] fails only on the frame size: with a frame
    size in 2..16 it returns, for any message, exactly 32 bytes and no
    error (the length check of [hashWithStateExBytes] never fires). *)
Theorem HashBytesXLessAlloc_returns_32_bytes (cs : constants)
    (msg : list byte) (frameSize : Z) :
  constants_ok cs = true →
  (is_Err (HashBytesXLessAlloc cs msg frameSize)
   ↔ frameSize < 2 ∨ 16 < frameSize)
  ∧ (2 ≤ frameSize ≤ 16 →
     ∃ bs, HashBytesXLessAlloc cs msg frameSize = Some (Ok bs)
           ∧ length bs = 32%nat).
Proof.
  intros Hcs. split; [|by apply HashBytesXLessAlloc_returns].
  split.
  - intros [e He]. destruct (decide (frameSize < 2 ∨ 16 < frameSize)); [done|].
    destruct (HashBytesXLessAlloc_returns cs msg frameSize) as (bs & Hbs & _);
      [done | lia |]. congruence.
  - intros HF. exists ErrIncorrectFrameSize.
    unfold HashBytesXLessAlloc. by rewrite decide_True.
Qed.

Lemma HashBytesXLessAlloc_returns_32_bytes_witness :
  (is_Err (HashBytesXLessAlloc sample_constants (replicate 70 x61) 2)
   ↔ 2 < 2 ∨ 16 < 2)
  ∧ (2 ≤ 2 ≤ 16 →
     ∃ bs, HashBytesXLessAlloc sample_constants (replicate 70 x61) 2 = Some (Ok bs)
           ∧ length bs = 32%nat).
Proof.
  apply (HashBytesXLessAlloc_returns_32_bytes sample_constants (replicate 70 x61) 2).
  vm_compute. reflexivity.
Defined.

(** X17. A message of exactly F whole chunks: [HashBytesXLessAlloc] puts the
    chunks in [state[0 .. F-1]], leaves the last slot zero and returns the
    encoding of slot 0 of the permuted state.  Fewer than 31 bytes appended
    after such a frame are stored but never hashed: they do not change the
    result. *)
Theorem HashBytesXLessAlloc_drops_tail_after_frame (cs : constants)
    (msg tail : list byte) (frameSize : Z) :
  constants_ok cs = true → 2 ≤ frameSize ≤ 16 →
  (length msg = 31 * Z.to_nat frameSize)%nat → (length tail < 31)%nat →
  HashBytesXLessAlloc cs (msg ++ tail) frameSize
  = HashBytesXLessAlloc cs msg frameSize
  ∧ HashBytesXLessAlloc cs msg frameSize
    = Some (Ok (ff.Bytes
                  (Spec.at0
                     (Spec.permute cs
                        (((λ i, ff.SetBytesLessMod (chunk msg i))
                            <$> seq 0 (Z.to_nat frameSize)) ++ [0]))
                     0))).
Proof.
  intros Hcs HF Hmsg Htail.
  pose proof (HashBytesXLessAlloc_one_frame cs msg [] frameSize Hcs HF Hmsg)
    as Hnil.
  rewrite app_nil_r in Hnil. rewrite Hnil by (simpl; lia).
  split; [|done]. by apply HashBytesXLessAlloc_one_frame.
Qed.

Lemma HashBytesXLessAlloc_drops_tail_after_frame_witness :
  let msg := replicate 62 x61 in
  HashBytesXLessAlloc sample_constants (msg ++ [x62; x63]) 2
  = HashBytesXLessAlloc sample_constants msg 2
  ∧ HashBytesXLessAlloc sample_constants msg 2
    = Some (Ok (ff.Bytes
                  (Spec.at0
                     (Spec.permute sample_constants
                        (((λ i, ff.SetBytesLessMod (chunk msg i))
                            <$> seq 0 (Z.to_nat 2)) ++ [0]))
                     0))).
Proof.
  intros msg.
  apply (HashBytesXLessAlloc_drops_tail_after_frame sample_constants msg
           [x62; x63] 2).
  - vm_compute. reflexivity.
  - lia.
  - reflexivity.
  - simpl. lia.
Defined.

(** ** Properties of the returned integers *)

(** X18. The integers [HashWithStateEx] returns: nOuts of them, each
    allocated by the call (its address held nothing before and holds an
    integer after), and pairwise distinct, so that none aliases an input or
    another output. *)
Theorem Mem_HashWithStateEx_fresh_distinct_outputs (cs : constants)
    (inpBI : list Mem.ptr) (initState : Mem.ptr) (nOuts : Z)
    (h h' : gmap positive Z) (ps : list Mem.ptr) :
  Mem.HashWithStateEx cs inpBI initState nOuts h = Some (Ok ps, h') →
  Z.of_nat (length ps) = nOuts ∧ NoDup ps
  ∧ Forall (λ p, ∃ l, p = Some l ∧ h !! l = None ∧ is_Some (h' !! l)) ps.
Proof. apply Mem_HashWithStateEx_outputs. Qed.

Lemma Mem_HashWithStateEx_fresh_distinct_outputs_witness :
  let h : gmap positive Z := {[ 1%positive := 5; 2%positive := 7; 3%positive := 0 ]} in
  let inputs := [Some 1%positive; Some 2%positive] in
  ∃ ps h',
    Mem.HashWithStateEx sample_constants inputs (Some 3%positive) 3 h
    = Some (Ok ps, h')
    ∧ Z.of_nat (length ps) = 3 ∧ NoDup ps
    ∧ Forall (λ p, ∃ l, p = Some l ∧ h !! l = None ∧ is_Some (h' !! l)) ps.
Proof.
  intros h inputs. eexists _, _.
  refine (let Hrun := _ in
          conj Hrun
            (Mem_HashWithStateEx_fresh_distinct_outputs sample_constants inputs
               (Some 3%positive) 3 h _ _ Hrun)).
  vm_compute. reflexivity.
Defined.

(** ** The heap: [HashBytesX] and its writes in place *)

Lemma fresh_in_mono (h0 h : gmap positive Z) (p : Mem.ptr) :
  h0 ⊆ h → Mem.fresh_in h p → Mem.fresh_in h0 p.
Proof.
  intros Hsub (l & -> & Hl). exists l. split; [done|].
  by eapply lookup_weaken_None.
Qed.

Lemma new_bigs_spec {X : Type} (xs : list X) (h : gmap positive Z) :
  ∃ ps h', mapM (λ _, Mem.new_big 0) xs h = Some (ps, h')
           ∧ h ⊆ h' ∧ Mem.points_to h' ps (replicate (length xs) 0)
           ∧ NoDup ps ∧ Forall (Mem.fresh_in h) ps.
Proof.
  revert h. induction xs as [|x xs IH]; intros h; simpl.
  - exists [], h. repeat split; [done | constructor | constructor | constructor].
  - set (l := fresh (dom h)).
    assert (h !! l = None) as Hl by (apply not_elem_of_dom, is_fresh).
    assert (h ⊆ <[l := 0]> h) as Hsub0 by (by apply insert_subseteq).
    destruct (IH (<[l := 0]> h)) as (ps & h' & Hrun & Hsub & Hpt & Hnd & Hfresh).
    exists (Some l :: ps), h'.
    rewrite (M_bind_Some _ _ h (<[l := 0]> h) (Some l)) by done.
    rewrite (M_bind_Some _ _ (<[l := 0]> h) h' ps) by done.
    split; [done|]. split; [by etrans|]. split; [|split].
    + constructor; [|done]. exists l. split; [done|].
      eapply lookup_weaken; [|exact Hsub]. by rewrite lookup_insert_eq.
    + constructor; [|done]. intros Hin.
      rewrite Forall_forall in Hfresh.
      destruct (Hfresh _ Hin) as (l' & [= <-] & Hnone).
      by rewrite lookup_insert_eq in Hnone.
    + constructor; [by exists l|].
      eapply Forall_impl; [exact Hfresh|]. intros p. by apply fresh_in_mono.
Qed.

Lemma points_to_store (h : gmap positive Z) (ps : list Mem.ptr) (vs : list Z)
    (k : nat) (l : positive) (v : Z) :
  Mem.points_to h ps vs → NoDup ps → ps !! k = Some (Some l) →
  Mem.points_to (<[l := v]> h) ps (<[k := v]> vs).
Proof.
  intros Hpt Hnd Hk. unfold Mem.points_to in *.
  assert (length ps = length vs) as Hlen by (by eapply Forall2_length).
  assert (k < length ps)%nat as Hklt by (by eapply lookup_lt_Some).
  apply Forall2_same_length_lookup. split.
  - by rewrite length_insert.
  - intros i p w Hp Hw.
    destruct (decide (i = k)) as [Heq|Hik]; [subst i|].
    + assert (p = Some l) as -> by (unfold Mem.ptr in *; congruence).
      rewrite list_lookup_insert_eq in Hw by lia.
      injection Hw as <-. exists l. by rewrite lookup_insert_eq.
    + rewrite list_lookup_insert_ne in Hw by done.
      destruct (Forall2_lookup_lr _ _ _ _ _ _ Hpt Hp Hw) as (l' & -> & Hl').
      exists l'. split; [done|].
      rewrite lookup_insert_ne; [done|]. intros <-.
      apply Hik. by eapply NoDup_lookup.
Qed.

Lemma subseteq_store (h0 h : gmap positive Z) (l : positive) (v : Z) :
  h0 ⊆ h → h0 !! l = None → h0 ⊆ <[l := v]> h.
Proof.
  intros Hsub Hl. apply map_subseteq_spec. intros l' v' Hl'.
  rewrite lookup_insert_ne by congruence. by eapply lookup_weaken.
Qed.

Lemma digest_at_store (h : gmap positive Z) (p : Mem.ptr) (d : option Z)
    (l : positive) (v : Z) :
  Mem.digest_at h p d → p ≠ Some l → Mem.digest_at (<[l := v]> h) p d.
Proof.
  destruct d as [w|]; simpl; [|done].
  intros (l' & -> & Hl') Hne. exists l'. split; [done|].
  rewrite lookup_insert_ne; [done | congruence].
Qed.

Lemma for_range_r_refines_over {Sp Sv : Type} (h0 : gmap positive Z)
    (R : gmap positive Z → Sp → Sv → Prop)
    (body_p : nat → Sp → Mem.M (result Sp))
    (body_v : nat → Sv → option (result Sv))
    (n lo : nat) (sp : Sp) (sv : Sv) (h : gmap positive Z) :
  h0 ⊆ h → R h sp sv →
  (∀ i h sp sv, (lo ≤ i < lo + n)%nat → R h sp sv →
                Mem.refines_over h0 R h (body_p i sp) (body_v i sv)) →
  Mem.refines_over h0 R h (Mem.for_range_r lo n body_p sp)
    (for_range_r lo n body_v sv).
Proof.
  revert lo sp sv h. induction n as [|n IH]; intros lo sp sv h Hsub HR Hstep; simpl.
  - exists sp, h. done.
  - specialize (Hstep lo h sp sv) as Hs. unfold Mem.refines_over in Hs |- *.
    destruct (body_v lo sv) as [[sv'|e]|].
    + destruct Hs as (sp' & h' & Hrun & Hsub' & HR'); [lia | done |].
      rewrite (M_bind_Some _ _ h h' (Ok sp')) by done.
      apply IH; [done | done |]. intros. apply Hstep; [lia | done].
    + destruct Hs as (h' & Hrun & Hsub'); [lia | done |].
      exists h'. by rewrite (M_bind_Some _ _ h h' (Err e)).
    + rewrite M_bind_None; [done|]. apply Hs; [lia | done].
Qed.

Lemma bytes_step_store (h0 hc : gmap positive Z) (sp : Mem.sponge) (sv : sponge)
    (c : Z) :
  bytes_sponge_rel h0 hc sp sv →
  match set_at (sp_frame sv) (sp_k sv) c with
  | None => Mem.sp_frame sp !! Mem.sp_k sp = None
  | Some vs' =>
      ∃ l, Mem.sp_frame sp !! Mem.sp_k sp = Some (Some l)
           ∧ Mem.store (Some l) c hc = Some (tt, <[l := c]> hc)
           ∧ h0 ⊆ <[l := c]> hc
           ∧ Mem.points_to (<[l := c]> hc) (Mem.sp_frame sp) vs'
           ∧ Mem.digest_at (<[l := c]> hc) (Mem.sp_hash sp) (sp_hash sv)
  end.
Proof.
  intros (Hsub & (Hfr & Hk & Hd & Hh) & Hnd & Hfresh & Hhash).
  assert (length (Mem.sp_frame sp) = length (sp_frame sv)) as Hlen
    by (by eapply Forall2_length).
  unfold set_at. rewrite <- Hk, <- Hlen.
  destruct (decide (Mem.sp_k sp < length (Mem.sp_frame sp))%nat) as [Hlt|Hlt].
  2:{ apply lookup_ge_None. lia. }
  destruct (lookup_lt_is_Some_2 _ _ Hlt) as [p Hp].
  destruct (Forall2_lookup_l _ _ _ _ _ Hfr Hp) as (v & Hv & l & -> & Hl).
  exists l. split; [done|].
  split; [unfold Mem.store; by rewrite Hl|].
  assert (h0 !! l = None) as Hl0.
  { rewrite Forall_lookup in Hfresh.
    destruct (Hfresh _ _ Hp) as (l' & [= <-] & Hnone). done. }
  split; [by apply subseteq_store|].
  split; [by apply points_to_store|].
  destruct Hhash as [Hnil|[Hk1 H0]].
  - rewrite Hnil in *. destruct (sp_hash sv) as [d|]; simpl in *; [|done].
    by destruct Hh as (l' & [=] & _).
  - apply digest_at_store; [done|]. intros Heq.
    unfold Mem.ptr in *. rewrite Heq in H0.
    pose proof (NoDup_lookup _ _ _ _ Hnd H0 Hp). lia.
Qed.

Lemma bytes_step_hash (cs : constants) (h0 hc : gmap positive Z) (F : nat)
    (frame : list Mem.ptr) (vs : list Z) :
  (2 ≤ F)%nat → h0 ⊆ hc → Mem.points_to hc frame vs →
  Mem.refines_over h0 (bytes_sponge_rel h0) hc
    (r ← Mem.Hash cs frame;
     match r with
     | Err e => mret (Err e)
     | Ok h =>
         rest ← mapM (λ _, Mem.new_big 0) (seq 1 (F - 1));
         mret (Ok (Mem.Build_sponge (h :: rest) 1 false h))
     end)
    (r ← Hash cs vs;
     match r with
     | Err e => Some (Err e)
     | Ok h =>
         inputs ← set_at (replicate F 0) 0 h;
         Some (Ok (Build_sponge inputs 1 false (Some h)))
     end).
Proof.
  intros HF Hsub Hpt.
  pose proof (Hash_refines cs hc frame vs Hpt) as Hh1.
  pose proof (preserves_Hash cs h0 frame hc Hsub) as Hfr1.
  unfold Mem.refines, Mem.refines_over in *.
  destruct (Hash cs vs) as [[hv|e]|]; cbn [mbind option_bind].
  - destruct Hh1 as (hp & h2 & Hrun2 & Hsub2 & Hhp).
    destruct (Hfr1 _ _ Hrun2) as [Hsub02 Hfresh2].
    rewrite (M_bind_Some _ _ hc h2 (Ok hp)) by done.
    rewrite set_at_Some by (rewrite length_replicate; lia).
    cbn [mbind option_bind].
    destruct (new_bigs_spec (seq 1 (F - 1)) h2)
      as (rest & h3 & Hrun3 & Hsub3 & Hpt3 & Hnd3 & Hfresh3).
    rewrite length_seq in Hpt3.
    rewrite (M_bind_Some _ _ h2 h3 rest) by done.
    eexists _, h3. split; [done|].
    assert (h0 ⊆ h3) by (by etrans).
    assert (Mem.digest_at h3 hp (Some hv)) as Hhp3
      by (eapply digest_at_mono; [exact Hsub3 | exact Hhp]).
    split; [done|]. split; [done|]. split; [|split; [|split]].
    + repeat split; try done. simpl.
      replace F with (S (F - 1)) by lia. simpl.
      constructor; done.
    + simpl. constructor; [|done]. intros Hin.
      rewrite Forall_forall in Hfresh3.
      destruct (Hfresh3 _ Hin) as (l & -> & Hnone).
      destruct Hhp as (l' & [= <-] & Hsome). congruence.
    + simpl. constructor; [done|].
      eapply Forall_impl; [exact Hfresh3|]. intros p. by apply fresh_in_mono.
    + right. simpl. split; [lia | done].
  - destruct Hh1 as (h2 & Hrun2 & Hsub2).
    destruct (Hfr1 _ _ Hrun2) as [Hsub02 _].
    exists h2. by rewrite (M_bind_Some _ _ hc h2 (Err e)).
  - by rewrite M_bind_None.
Qed.

Lemma HashBytesX_refines (cs : constants) (h : gmap positive Z)
    (msg : list byte) (frameSize : Z) :
  Mem.refines Mem.digest_at h
    (Mem.HashBytesX cs msg frameSize) (HashBytesX cs msg frameSize).
Proof.
  unfold Mem.HashBytesX, HashBytesX.
  destruct (decide (frameSize < 2 ∨ 16 < frameSize)) as [HF|HF]; [by exists h|].
  set (F := Z.to_nat frameSize).
  assert (2 ≤ F)%nat as HF2 by lia.
  destruct (new_bigs_spec (seq 0 F) h)
    as (frame & h1 & Hrun1 & Hsub1 & Hpt1 & Hnd1 & Hfresh1).
  rewrite length_seq in Hpt1.
  set (body_p := λ (i : nat) (st : Mem.sponge), _ : Mem.M (result Mem.sponge)).
  set (body_v := λ (i : nat) (st : sponge), _ : option (result sponge)).
  assert (Mem.refines_over h (bytes_sponge_rel h) h1
            (Mem.for_range_r 0 (length msg / spongeChunkSize) body_p
               (Mem.Build_sponge frame 0 false None))
            (for_range_r 0 (length msg / spongeChunkSize) body_v
               (Build_sponge (replicate F 0) 0 false None))) as Hloop.
  { apply for_range_r_refines_over; [done | |].
    - split; [done|]. split; [repeat split; done|].
      split; [done|]. split; [done|]. by left.
    - intros i hc sp sv _ Hrel.
      pose proof (bytes_step_store h hc sp sv (SetBytes (chunk msg i)) Hrel) as Hst.
      destruct Hrel as (Hsubc & (Hfr & Hk & Hd & Hh) & Hnd & Hfresh & Hhash).
      unfold body_p, body_v.
      destruct (set_at (sp_frame sv) (sp_k sv) _) as [fv|]; cbn [mbind option_bind].
      2:{ unfold Mem.refines_over. rewrite M_bind_None; [done|].
          unfold Mem.lift. by rewrite Hst. }
      destruct Hst as (l & Hp & Hstore & Hsub' & Hpt' & Hh').
      set (hc' := <[l := SetBytes (chunk msg i)]> hc) in *.
      rewrite Hk in Hp |- *.
      destruct (decide (sp_k sv = F - 1)%nat) as [HkF|HkF].
      + pose proof (bytes_step_hash cs h hc' F _ _ HF2 Hsub' Hpt') as Hhash'.
        unfold Mem.refines_over in *.
        rewrite (M_bind_Some _ _ hc hc (Some l)) by (unfold Mem.lift, Mem.ptr in *; by rewrite Hp).
        rewrite (M_bind_Some _ _ hc hc' tt) by done.
        exact Hhash'.
      + unfold Mem.refines_over.
        rewrite (M_bind_Some _ _ hc hc (Some l)) by (unfold Mem.lift, Mem.ptr in *; by rewrite Hp).
        rewrite (M_bind_Some _ _ hc hc' tt) by done.
        eexists _, hc'. split; [done|]. split; [done|].
        split; [done|]. split; [repeat split; simpl; done|].
        split; [done|]. split; [done|]. simpl.
        destruct Hhash as [Hnil|[Hk1 H0]]; [by left | right].
        split; [lia | done]. }
  unfold Mem.refines, Mem.refines_over in *.
  rewrite (M_bind_Some _ _ h h1 frame) by done.
  destruct (for_range_r 0 _ body_v _) as [[sv|e]|]; cbn [mbind option_bind].
  - destruct Hloop as (sp & h2 & Hrun2 & _ & Hsub2 & (Hfr & Hk & Hd & Hh) & _).
    rewrite (M_bind_Some _ _ h1 h2 (Ok sp)) by done.
    destruct (decide (length msg mod spongeChunkSize ≠ 0)%nat) as [Hrem|Hrem].
    + set (v := SetBytes (last_chunk msg)).
      set (l := fresh (dom h2)).
      assert (h2 !! l = None) as Hl by (apply not_elem_of_dom, is_fresh).
      set (h3 := <[l := v]> h2).
      assert (h2 ⊆ h3) as Hsub3 by (by apply insert_subseteq).
      assert (Mem.digest_at h3 (Some l) (Some v)) as Hlv
        by (exists l; split; [done | by apply lookup_insert_eq]).
      pose proof (set_at_points_to h3 _ _ (sp_k sv) (Some l) v
                    (points_to_mono _ _ _ _ Hsub3 Hfr) Hlv) as Hset.
      rewrite Hk.
      destruct (set_at (sp_frame sv) (sp_k sv) v) as [fv|]; cbn [mbind option_bind].
      * destruct Hset as (fp & Hfp & Hptf).
        rewrite (M_bind_Some _ _ h2 h3
                   (Mem.Build_sponge fp (sp_k sv) true (Mem.sp_hash sp))).
        2:{ rewrite (M_bind_Some _ _ h2 h3 (Some l)) by done.
            rewrite (M_bind_Some _ _ h3 h3 fp) by (unfold Mem.lift; by rewrite Hfp).
            done. }
        unfold finish. simpl.
        pose proof (Hash_refines cs h3 _ _ Hptf) as Hh1. unfold Mem.refines in Hh1.
        destruct (Hash cs fv) as [[hv|e]|]; cbn [mbind option_bind].
        -- destruct Hh1 as (hp & h4 & Hrun4 & Hsub4 & Hhp).
           exists hp, h4. split; [done|]. split; [|done].
           etrans; [exact Hsub2|]. by etrans.
        -- destruct Hh1 as (h4 & Hrun4 & Hsub4).
           exists h4. split; [done|]. etrans; [exact Hsub2|]. by etrans.
        -- done.
      * rewrite M_bind_None; [done|].
        rewrite (M_bind_Some _ _ h2 h3 (Some l)) by done.
        rewrite M_bind_None; [done|]. unfold Mem.lift. by rewrite Hset.
    + rewrite (M_bind_Some _ _ h2 h2 sp) by done.
      cbn [mbind option_bind]. unfold finish. rewrite Hd.
      destruct (sp_dirty sv).
      * pose proof (Hash_refines cs h2 _ _ Hfr) as Hh1. unfold Mem.refines in Hh1.
        destruct (Hash cs (sp_frame sv)) as [[hv|e]|]; cbn [mbind option_bind].
        -- destruct Hh1 as (hp & h3 & Hrun3 & Hsub3 & Hhp).
           exists hp, h3. split; [done|]. split; [by etrans | done].
        -- destruct Hh1 as (h3 & Hrun3 & Hsub3).
           exists h3. split; [done | by etrans].
        -- done.
      * exists (Mem.sp_hash sp), h2. done.
  - destruct Hloop as (h2 & Hrun2 & Hsub2).
    exists h2. by rewrite (M_bind_Some _ _ h1 h2 (Err e)).
  - by rewrite M_bind_None.
Qed.

(** ** Properties of [HashBytesX] on the heap *)

(** X20. [HashBytesX] writes the chunks in place, through the pointers its
    frame holds, and keeps the digest of the last hash in slot 0 of the next
    frame.  No such write reaches the digest, another slot, or an integer of
    the caller: on a non-empty message and a frame size in 2..16 the call
    returns a pointer to the digest of the value-level [HashBytesX], in a
    heap that extends the one it started in. *)
Theorem Mem_HashBytesX_computes (cs : constants) (h : gmap positive Z)
    (msg : list byte) (frameSize : Z) :
  constants_ok cs = true → 2 ≤ frameSize ≤ 16 → msg ≠ [] →
  ∃ l h' d, Mem.HashBytesX cs msg frameSize h = Some (Ok (Some l), h')
            ∧ h ⊆ h'
            ∧ h' !! l = Some d
            ∧ HashBytesX cs msg frameSize = Some (Ok (Some d)).
Proof.
  intros Hcs HF Hne.
  destruct (HashBytesX_returns cs msg frameSize) as (d & Hd & _); try done.
  pose proof (HashBytesX_refines cs h msg frameSize) as Hr.
  unfold Mem.refines in Hr. rewrite Hd in Hr.
  destruct Hr as (p & h' & Hrun & Hsub & l & -> & Hl).
  by exists l, h', d.
Qed.

Lemma Mem_HashBytesX_computes_witness :
  let h : gmap positive Z := {[ 1%positive := 5 ]} in
  let msg := replicate 70 x61 in
  ∃ l h' d, Mem.HashBytesX sample_constants msg 2 h = Some (Ok (Some l), h')
            ∧ h ⊆ h'
            ∧ h' !! l = Some d
            ∧ HashBytesX sample_constants msg 2 = Some (Ok (Some d)).
Proof.
  intros h msg.
  apply (Mem_HashBytesX_computes sample_constants h msg 2).
  - vm_compute. reflexivity.
  - lia.
  - discriminate.
Defined.
